(** * stm2kicad: the pin layout engine of [extractor.ts]

    A shallow embedding of the renderers ([SipRenderer], [DipRenderer],
    [QfpRenderer]), of [Block] and of [render_symbol], followed by the
    properties of the layout that the specification states.

    Conventions of the embedding.
    - A JavaScript [number] that the code only ever uses as an integer (pin
      positions, unit numbers, pin counts, slot indices) is a [Z]; a number
      that goes through a division by two (coordinates, half sizes) is a [Q].
      All such values are integers or half-integers of small magnitude, which
      IEEE doubles represent and combine exactly.
    - A JavaScript string is a [string]; a character stands for a UTF-16 code
      unit below 256.
    - A thrown [Error] is the [Throw] case of [result].
    - Objects that are mutated and shared (pins, blocks) live in a store and
      are referred to by index.
    - An output line is a constructor of [Line] carrying the values that the
      template string interpolates, in the order of the template. *)

From Stdlib Require Import ZArith QArith Qround List String Ascii Bool Lia.
From Stdlib Require Import Sorting.Sorted Sorting.Permutation Lqa.
Import ListNotations.

Open Scope string_scope.
Open Scope list_scope.
Open Scope Z_scope.

(** ** Exceptions *)

Inductive result (A : Type) : Type :=
| Ok (a : A)
| Throw (msg : string).

Arguments Ok {A} a.
Arguments Throw {A} msg.

Definition bind {A B : Type} (m : result A) (k : A -> result B) : result B :=
  match m with
  | Ok a => k a
  | Throw msg => Throw msg
  end.

Notation "x <- m ;; k" := (bind m (fun x => k))
  (at level 61, m at next level, right associativity).

(** ** Numbers *)

(** [Math.floor] and [Math.ceil] are [Qfloor] and [Qceiling]; the remainder
    operator [%] truncates the quotient towards zero. *)
Definition Qtrunc (q : Q) : Z :=
  if Qle_bool 0 q then Qfloor q else Qceiling q.

Definition Qrem (a b : Q) : Q :=
  (a - b * inject_Z (Qtrunc (a / b)))%Q.

(** [xs[i]] for an array and [s[i]] for a string: [None] is [undefined]. *)
Definition js_index {A : Type} (xs : list A) (i : Z) : option A :=
  if i <? 0 then None else nth_error xs (Z.to_nat i).

Definition js_char (s : string) (i : Z) : option ascii :=
  if i <? 0 then None else String.get (Z.to_nat i) s.

(** ** lodash *)

Section SortBy.
Context {A : Type}.

(** [_.sortBy] is a stable ascending sort: an element goes in front of the
    first later element that is not smaller. *)
Fixpoint insert_by (le : A -> A -> bool) (x : A) (l : list A) : list A :=
  match l with
  | [] => [x]
  | y :: r => if le x y then x :: l else y :: insert_by le x r
  end.

Definition sortBy (le : A -> A -> bool) (l : list A) : list A :=
  fold_right (insert_by le) [] l.
End SortBy.

Section GroupBy.
Context {A : Type}.

(** [_.groupBy]: the object it builds, as the list of its entries in
    insertion order. *)
Fixpoint group_insert (k : Z) (v : A) (groups : list (Z * list A))
  : list (Z * list A) :=
  match groups with
  | [] => [(k, [v])]
  | (k', vs) :: rest =>
      if k =? k' then (k', vs ++ [v]) :: rest
      else (k', vs) :: group_insert k v rest
  end.

Definition groupBy (f : A -> Z) (l : list A) : list (Z * list A) :=
  fold_left (fun groups v => group_insert (f v) v groups) l [].

(** [_.values] enumerates the properties of the object in JavaScript's
    order: the keys that are array indices first, in ascending order, then
    the other keys in insertion order. *)
Definition is_array_index (k : Z) : bool :=
  (0 <=? k) && (k <? 4294967295).

Definition entry_le (a b : Z * list A) : bool := fst a <=? fst b.

Definition values (groups : list (Z * list A)) : list (list A) :=
  map snd (sortBy entry_le (filter (fun e => is_array_index (fst e)) groups))
  ++ map snd (filter (fun e => negb (is_array_index (fst e))) groups).

(** [xs.map((x, index) => f x index)] *)
Definition mapi {B : Type} (f : A -> nat -> B) (xs : list A) : list B :=
  map (fun p => f (snd p) (fst p)) (combine (seq 0 (List.length xs)) xs).
End GroupBy.

(** [_.max] of an array of numbers, with [?? 0] for the empty array. *)
Definition max_or_0 (xs : list Z) : Z :=
  match xs with
  | [] => 0
  | x :: r => fold_left Z.max r x
  end.

(** ** Data model *)

Record Geometry := {
  pin_spacing : Q;
  pin_length : Q;
  margin_qfp : Q;
  width_sip : Q;
  width_dip : Q;
  margin_ip : Q
}.

(** [PinConfigType] is a string read from the database: ['Power'], ['I/O']
    or another type such as ['Reset']. *)
Definition PinConfigType := string.

Inductive PinElectricalType :=
| input | output | bidi | tristate | passive | unspecified
| power_in | power_out | open_collector | open_emitter | not_connected.

Definition block_ref := nat.
Definition pin_ref := nat.

Record Pin := {
  position : Z;
  name : string;
  config_type : PinConfigType;
  elec_type : PinElectricalType;
  mode : option string;
  label : option string;
  assigned : bool;
  block : option block_ref;
  display_name : option string
}.

Record PinPosition := { x : Q; y : Q; dir : ascii }.

Inductive Line :=
| LibraryLine
| DefLine (cubefile_name : string) (unit_count : nat)
| F0Line
| F1Line (cubefile_name : string)
| FpListLine
| FootprintLine (pattern : string)
| EndFpListLine
| DrawLine
| SLine (half_width half_height : Q) (unit : Z)
| XLine (display_name : option string) (position : Z) (x neg_y : Q)
        (pin_length : Q) (dir : ascii) (unit : Z) (elec_type : PinElectricalType)
| EndDrawLine
| EndDefLine
| EmptyLine.

(** [_.sortBy(pins, ['name', 'label'])]: strings compare by code units, an
    [undefined] label comes after every defined one. *)
Definition label_compare (a b : option string) : comparison :=
  match a, b with
  | Some s, Some t => String.compare s t
  | Some _, None => Lt
  | None, Some _ => Gt
  | None, None => Eq
  end.

Definition name_label_le (p q : Pin) : bool :=
  match String.compare (name p) (name q) with
  | Lt => true
  | Gt => false
  | Eq => match label_compare (label p) (label q) with
          | Gt => false
          | _ => true
          end
  end.

Definition position_le (p q : Pin) : bool := position p <=? position q.

(** A loop that pushes one line per element and stops at the first
    exception. *)
Fixpoint push_all (lines : list (result Line)) (out : list Line)
  : result (list Line) :=
  match lines with
  | [] => Ok out
  | l :: rest => line <- l ;; push_all rest (out ++ [line])
  end.

(** ** SipRenderer *)

Module SipRenderer.

Record t := {
  geometry : Geometry;
  unit : Z;
  half_inner_width : Q;
  half_inner_height : Q;
  half_width : Q;
  half_height : Q;
  pins : list Pin
}.

Definition new (geometry : Geometry) (unit : Z) : t :=
  {| geometry := geometry; unit := unit;
     half_inner_width := 0; half_inner_height := 0;
     half_width := 0; half_height := 0; pins := [] |}.

Definition calc_geometry (r : t) : t :=
  let g := geometry r in
  let half_inner_width := (width_sip g / 2)%Q in
  let half_inner_height :=
    ((inject_Z (Z.of_nat (List.length (pins r))) - 1) * pin_spacing g / 2)%Q in
  {| geometry := g; unit := unit r;
     half_inner_width := half_inner_width;
     half_inner_height := half_inner_height;
     half_width := half_inner_width;
     half_height := (half_inner_height + pin_spacing g * margin_ip g)%Q;
     pins := pins r |}.

Definition set_pins (ps : list Pin) (r : t) : t :=
  calc_geometry
    {| geometry := geometry r; unit := unit r;
       half_inner_width := half_inner_width r;
       half_inner_height := half_inner_height r;
       half_width := half_width r; half_height := half_height r;
       pins := sortBy name_label_le ps |}.

Definition get_position (r : t) (index : nat) : PinPosition :=
  let pin_x := (half_width r + pin_length (geometry r))%Q in
  let pin_y :=
    (- half_inner_height r
     + pin_spacing (geometry r) * inject_Z (Z.of_nat index))%Q in
  {| x := pin_x; y := pin_y; dir := "L"%char |}.

Definition render_block (r : t) (out : list Line) : list Line :=
  out ++ [SLine (half_width r) (half_height r) (unit r)].

Definition pin_line (r : t) (pin : Pin) (index : nat) : Line :=
  let pos := get_position r index in
  XLine (display_name pin) (position pin) (x pos) (- y pos)%Q
        (pin_length (geometry r)) (dir pos) (unit r) (elec_type pin).

Definition render_pins (r : t) (out : list Line) : list Line :=
  out ++ mapi (pin_line r) (pins r).

End SipRenderer.

(** ** DipRenderer *)

Module DipRenderer.

Record t := {
  geometry : Geometry;
  unit : Z;
  half_inner_width : Q;
  half_inner_height : Q;
  half_width : Q;
  half_height : Q;
  pins : list Pin
}.

Definition new (geometry : Geometry) (unit : Z) : t :=
  {| geometry := geometry; unit := unit;
     half_inner_width := 0; half_inner_height := 0;
     half_width := 0; half_height := 0; pins := [] |}.

(** [this.pins.length / 2] *)
Definition half_count (r : t) : Q :=
  (inject_Z (Z.of_nat (List.length (pins r))) / 2)%Q.

Definition calc_geometry (r : t) : t :=
  let g := geometry r in
  let half_inner_width := (width_dip g / 2)%Q in
  let half_inner_height :=
    ((inject_Z (Qceiling (half_count r)) - 1) * pin_spacing g / 2)%Q in
  {| geometry := g; unit := unit r;
     half_inner_width := half_inner_width;
     half_inner_height := half_inner_height;
     half_width := half_inner_width;
     half_height := (half_inner_height + pin_spacing g * margin_ip g)%Q;
     pins := pins r |}.

Definition set_pins (ps : list Pin) (r : t) : t :=
  calc_geometry
    {| geometry := geometry r; unit := unit r;
       half_inner_width := half_inner_width r;
       half_inner_height := half_inner_height r;
       half_width := half_width r; half_height := half_height r;
       pins := sortBy name_label_le ps |}.

Definition side_of (r : t) (index : nat) : Z :=
  Qfloor (inject_Z (Z.of_nat index) / half_count r).

Definition side_index_of (r : t) (index : nat) : Q :=
  Qrem (inject_Z (Z.of_nat index)) (half_count r).

(** [None]: [side] is outside the two arrays, where JavaScript goes on
    with [NaN] and [undefined]; an index below [pins.length] never gets
    there ([DipRenderer_get_position_defined]). *)
Definition get_position (r : t) (index : nat) : option PinPosition :=
  let side := side_of r index in
  let side_index := side_index_of r index in
  match js_index [(-1)%Q; 1%Q] side, js_char "RL" side with
  | Some sign, Some d =>
      Some {| x := (sign * (half_width r + pin_length (geometry r)))%Q;
              y := (- half_inner_height r
                    + pin_spacing (geometry r) * side_index)%Q;
              dir := d |}
  | _, _ => None
  end.

Definition render_block (r : t) (out : list Line) : list Line :=
  out ++ [SLine (half_width r) (half_height r) (unit r)].

Definition pin_line (r : t) (pin : Pin) (index : nat) : result Line :=
  match get_position r index with
  | Some pos =>
      Ok (XLine (display_name pin) (position pin) (x pos) (- y pos)%Q
                (pin_length (geometry r)) (dir pos) (unit r) (elec_type pin))
  | None => Throw "side out of range"
  end.

Definition render_pins (r : t) (out : list Line) : result (list Line) :=
  push_all (mapi (pin_line r) (pins r)) out.

End DipRenderer.

(** ** QfpRenderer *)

Inductive QfpMode := ACCURATE | COMPACT | CRUSHED.

Module QfpSide.
Definition LEFT := 0.
Definition BOTTOM := 1.
Definition RIGHT := 2.
Definition TOP := 3.
End QfpSide.

Record QfpPin := {
  side : Z;
  position_on_side : Z;
  qfp_pin : Pin
}.

Module QfpRenderer.

Record t := {
  geometry : Geometry;
  unit : Z;
  total_pins : Z;
  mode : QfpMode;
  half_inner_width : Q;
  half_inner_height : Q;
  half_width : Q;
  half_height : Q;
  pins : list QfpPin
}.

Definition new (geometry : Geometry) (unit total_pins : Z) (mode : QfpMode)
  : result t :=
  if negb (Z.rem total_pins 4 =? 0) then
    Throw "Pin count must be multiple of 4"
  else
    Ok {| geometry := geometry; unit := unit; total_pins := total_pins;
          mode := mode;
          half_inner_width := 0; half_inner_height := 0;
          half_width := 0; half_height := 0; pins := [] |}.

(** [this.total_pins / 4]: the constructor has checked that the division
    is exact. With no pin at all the quotient is 0, and dividing by it gives
    JavaScript a [NaN] or an infinity that [Z] has not; the properties below
    are stated for a positive pin count. *)
Definition pins_per_side (r : t) : Z := total_pins r / 4.

Definition max_on_sides (r : t) (sides : list Z) : Z :=
  max_or_0
    (map (fun s =>
            max_or_0
              (map position_on_side
                   (filter (fun pin => side pin =? s) (pins r))))
         sides).

Definition calc_geometry (r : t) : t :=
  let g := geometry r in
  let max_pin_index_h :=
    match mode r with
    | ACCURATE => pins_per_side r - 1
    | _ => max_on_sides r [QfpSide.TOP; QfpSide.BOTTOM]
    end in
  let max_pin_index_v :=
    match mode r with
    | ACCURATE => pins_per_side r - 1
    | _ => max_on_sides r [QfpSide.LEFT; QfpSide.RIGHT]
    end in
  let half_inner_width := (inject_Z max_pin_index_h * pin_spacing g / 2)%Q in
  let half_inner_height := (inject_Z max_pin_index_v * pin_spacing g / 2)%Q in
  {| geometry := g; unit := unit r; total_pins := total_pins r;
     mode := mode r;
     half_inner_width := half_inner_width;
     half_inner_height := half_inner_height;
     half_width := (half_inner_width + margin_qfp g * pin_spacing g)%Q;
     half_height := (half_inner_height + margin_qfp g * pin_spacing g)%Q;
     pins := pins r |}.

(** The reducer of the compact mode: [xs] are the slots so far and [next]
    is the position that continues the run. *)
Definition compact_step (acc : list Z * Z) (pin : Pin) : list Z * Z :=
  let '(xs, next) := acc in
  (xs ++ [(match xs with [] => 0 | _ => last xs 0 end)
          + (if position pin =? next then 1 else 2)],
   position pin + 1).

(** [QfpMode] has no other value, so the [default] branch that throws
    ['Invalid QFP layout mode'] has no counterpart. *)
Definition position_pins_on_side (r : t) (ps : list Pin) : list Z :=
  match mode r with
  | ACCURATE => map (fun pin => Z.rem (position pin - 1) (pins_per_side r)) ps
  | COMPACT =>
      match ps with
      | [] => []
      | first :: _ => fst (fold_left compact_step ps ([], position first))
      end
  | CRUSHED => mapi (fun _ index => Z.of_nat index) ps
  end.

Definition side_key (r : t) (pin : Pin) : Z :=
  (position pin - 1) / pins_per_side r.

(** [_.zip] pairs the slots with the pins of the side; the two lists have
    the same length ([position_pins_on_side_length]), so nothing is padded
    with [undefined]. *)
Definition set_pins (ps : list Pin) (r : t) : t :=
  let grouped := values (groupBy (side_key r) (sortBy position_le ps)) in
  let placed :=
    mapi (fun side_pins side_index =>
            map (fun '(slot, pin) =>
                   {| side := Z.of_nat side_index;
                      position_on_side := slot;
                      qfp_pin := pin |})
                (combine (position_pins_on_side r side_pins) side_pins))
         grouped in
  calc_geometry
    {| geometry := geometry r; unit := unit r; total_pins := total_pins r;
       mode := mode r;
       half_inner_width := half_inner_width r;
       half_inner_height := half_inner_height r;
       half_width := half_width r; half_height := half_height r;
       pins := List.concat placed |}.

Definition origins : list (Q * Q) :=
  [((-1)%Q, (-1)%Q); ((-1)%Q, 1%Q); (1%Q, 1%Q); (1%Q, (-1)%Q)].

Definition directions : list (Q * Q) :=
  [(0%Q, 1%Q); (1%Q, 0%Q); (0%Q, (-1)%Q); ((-1)%Q, 0%Q)].

(** One entry of [coords]; [direction ? 0 : origin] tests the direction
    against zero. *)
Definition coord (r : t) (pin : QfpPin) (half_inner origin direction : Q) : Q :=
  (half_inner * origin
   + inject_Z (position_on_side pin) * direction * pin_spacing (geometry r)
   + (if Qeq_bool direction 0 then origin else 0)
     * (margin_qfp (geometry r) * pin_spacing (geometry r)
        + pin_length (geometry r)))%Q.

(** A side outside [0..3] makes [origin] undefined and [origin[i]] throw a
    [TypeError]. *)
Definition get_position (r : t) (pin : QfpPin) : result PinPosition :=
  match js_index origins (side pin), js_index directions (side pin),
        js_char "RULD" (side pin) with
  | Some origin, Some direction, Some dir_char =>
      Ok {| x := coord r pin (half_inner_width r) (fst origin) (fst direction);
            y := coord r pin (half_inner_height r) (snd origin) (snd direction);
            dir := dir_char |}
  | _, _, _ => Throw "TypeError: cannot read properties of undefined"
  end.

Definition render_block (r : t) (out : list Line) : list Line :=
  out ++ [SLine (half_width r) (half_height r) (unit r)].

Definition pin_line (r : t) (pin : QfpPin) : result Line :=
  pos <- get_position r pin ;;
  Ok (XLine (display_name (qfp_pin pin)) (position (qfp_pin pin))
            (x pos) (- y pos)%Q (pin_length (geometry r)) (dir pos)
            (unit r) (elec_type (qfp_pin pin))).

Definition render_pins (r : t) (out : list Line) : result (list Line) :=
  push_all (map (pin_line r) (pins r)) out.

End QfpRenderer.

(** ** The renderer interface *)

Inductive Renderer :=
| Sip (r : SipRenderer.t)
| Dip (r : DipRenderer.t)
| Qfp (r : QfpRenderer.t).

Definition set_pins (ps : list Pin) (r : Renderer) : Renderer :=
  match r with
  | Sip s => Sip (SipRenderer.set_pins ps s)
  | Dip d => Dip (DipRenderer.set_pins ps d)
  | Qfp q => Qfp (QfpRenderer.set_pins ps q)
  end.

Definition render_block (r : Renderer) (out : list Line) : list Line :=
  match r with
  | Sip s => SipRenderer.render_block s out
  | Dip d => DipRenderer.render_block d out
  | Qfp q => QfpRenderer.render_block q out
  end.

Definition render_pins (r : Renderer) (out : list Line) : result (list Line) :=
  match r with
  | Sip s => Ok (SipRenderer.render_pins s out)
  | Dip d => DipRenderer.render_pins d out
  | Qfp q => QfpRenderer.render_pins q out
  end.

(** ** Blocks, the parsed file and the store *)

Module Block.
(** [pins] holds references to the pins of the file. *)
Record t := {
  renderer : Renderer;
  pins : list pin_ref
}.

Definition new (renderer : Renderer) : t :=
  {| renderer := renderer; pins := [] |}.
End Block.

Module CubeFile.
(** [pins] is the [Map] from position to pin, as the list of its values in
    insertion order; a [pin_ref] is an index into it. *)
Record t := {
  type : string;
  family : string;
  package : string;
  name : string;
  pins : list Pin
}.
End CubeFile.

Record Store := {
  cubefile : CubeFile.t;
  block_at : block_ref -> Block.t
}.

Definition set_cubefile_pins (ps : list Pin) (st : Store) : Store :=
  {| cubefile :=
       {| CubeFile.type := CubeFile.type (cubefile st);
          CubeFile.family := CubeFile.family (cubefile st);
          CubeFile.package := CubeFile.package (cubefile st);
          CubeFile.name := CubeFile.name (cubefile st);
          CubeFile.pins := ps |};
     block_at := block_at st |}.

Definition set_block (b : block_ref) (blk : Block.t) (st : Store) : Store :=
  {| cubefile := cubefile st;
     block_at := fun b' => if Nat.eqb b' b then blk else block_at st b' |}.

Fixpoint set_nth {A : Type} (i : nat) (v : A) (l : list A) : list A :=
  match l, i with
  | [], _ => []
  | _ :: r, O => v :: r
  | a :: r, S i' => a :: set_nth i' v r
  end.

Definition get_pin (st : Store) (pin : pin_ref) : option Pin :=
  nth_error (CubeFile.pins (cubefile st)) pin.

Definition update_pin (pin : pin_ref) (f : Pin -> Pin) (st : Store) : Store :=
  match get_pin st pin with
  | Some p => set_cubefile_pins (set_nth pin (f p) (CubeFile.pins (cubefile st))) st
  | None => st
  end.

Definition with_block (b : option block_ref) (p : Pin) : Pin :=
  {| position := position p; name := name p; config_type := config_type p;
     elec_type := elec_type p; mode := mode p; label := label p;
     assigned := assigned p; block := b; display_name := display_name p |}.

Definition with_elec_type (e : PinElectricalType) (p : Pin) : Pin :=
  {| position := position p; name := name p; config_type := config_type p;
     elec_type := e; mode := mode p; label := label p;
     assigned := assigned p; block := block p; display_name := display_name p |}.

Definition with_display_name (d : string) (p : Pin) : Pin :=
  {| position := position p; name := name p; config_type := config_type p;
     elec_type := elec_type p; mode := mode p; label := label p;
     assigned := assigned p; block := block p; display_name := Some d |}.

(** [Block.add]: [pin.block = this; this.pins.push(pin)] *)
Definition Block_add (this : block_ref) (pin : pin_ref) (st : Store) : Store :=
  let st := update_pin pin (with_block (Some this)) st in
  set_block this
    {| Block.renderer := Block.renderer (block_at st this);
       Block.pins := Block.pins (block_at st this) ++ [pin] |}
    st.

(** The pins behind a list of references. *)
Definition deref (st : Store) (refs : list pin_ref) : list Pin :=
  flat_map (fun i => match get_pin st i with Some p => [p] | None => [] end)
           refs.

Definition owned_by (this : block_ref) (p : Pin) : bool :=
  match block p with
  | Some b => Nat.eqb b this
  | None => false
  end.

(** [Block.render] *)
Definition Block_render (this : block_ref) (out : list Line) (st : Store)
  : result (list Line * Store) :=
  let blk := block_at st this in
  let renderer :=
    set_pins (filter (owned_by this) (deref st (Block.pins blk)))
             (Block.renderer blk) in
  let st := set_block this
              {| Block.renderer := renderer; Block.pins := Block.pins blk |} st in
  let out := render_block renderer out in
  out <- render_pins renderer out ;;
  Ok (out, st).

(** ** Options *)

Inductive IoStyle :=
| qfp (mode : QfpMode)
| sip.

Record Options := {
  io_style : IoStyle;
  separate_config : bool;
  separate_power : bool;
  separate_unassigned : bool;
  drop_unassigned : bool;
  geometry : Geometry
}.

Module Unit.
Definition IO := 1.
Definition POWER := 2.
Definition CONFIG := 3.
Definition UNASSIGNED := 4.
End Unit.

Record Blocks := {
  io_block : block_ref;
  power_block : block_ref;
  config_block : block_ref;
  unassigned_block : block_ref
}.

(** ** Strings *)

(** The code units below 256 that [\s] matches. *)
Definition is_space (c : ascii) : bool :=
  let n := N_of_ascii c in
  ((9 <=? n) && (n <=? 13) || (n =? 32) || (n =? 160))%N.

(** The code units below 256 that [.] does not match. *)
Definition is_line_terminator (c : ascii) : bool :=
  let n := N_of_ascii c in
  ((n =? 10) || (n =? 13))%N.

(** What is left of [s] after the longest prefix that [.*] matches. *)
Fixpoint after_dot_star (s : string) : string :=
  match s with
  | EmptyString => EmptyString
  | String c r => if is_line_terminator c then s else after_dot_star r
  end.

(** [s.replace(/\s.*/, '')] *)
Fixpoint remove_space_dot_star (s : string) : string :=
  match s with
  | EmptyString => EmptyString
  | String c r =>
      if is_space c then after_dot_star r
      else String c (remove_space_dot_star r)
  end.

(** [s.replace(/\s/g, '_')] *)
Fixpoint replace_spaces (s : string) : string :=
  match s with
  | EmptyString => EmptyString
  | String c r => String (if is_space c then "_"%char else c) (replace_spaces r)
  end.

(** [s.replace(/LQFP/, 'LQFP-')] *)
Fixpoint replace_LQFP (s : string) : string :=
  match s with
  | EmptyString => EmptyString
  | String c r =>
      if String.prefix "LQFP" s then
        String.append "LQFP-" (String.substring 4 (String.length s - 4) s)
      else String c (replace_LQFP r)
  end.

(** A label is truthy when it is defined and not empty. *)
Definition truthy_label (l : option string) : option string :=
  match l with
  | Some EmptyString => None
  | other => other
  end.

(** ** render_symbol *)

(** The de-duplication loop over the four blocks: [indexOf] compares object
    identities. *)
Definition push_new (block_order : list block_ref) (b : block_ref)
  : list block_ref :=
  if existsb (Nat.eqb b) block_order then block_order else block_order ++ [b].

Definition block_order_of (blocks : Blocks) : list block_ref :=
  fold_left push_new
    [io_block blocks; power_block blocks; config_block blocks;
     unassigned_block blocks]
    [].

(** The body of the loop over [cubefile.pins.values()]. *)
Definition classify (options : Options) (blocks : Blocks) (pin : pin_ref)
           (st : Store) : Store :=
  match get_pin st pin with
  | None => st
  | Some p =>
      let short_name := remove_space_dot_star (name p) in
      let shown :=
        match truthy_label (label p) with
        | Some l => String.append short_name (String.append "/" l)
        | None => name p
        end in
      let st := update_pin pin (with_display_name (replace_spaces shown)) st in
      if separate_power options && String.eqb (config_type p) "Power" then
        Block_add (power_block blocks) pin
                  (update_pin pin (with_elec_type power_in) st)
      else if separate_config options
              && negb (String.eqb (config_type p) "I/O") then
        Block_add (config_block blocks) pin
                  (update_pin pin (with_elec_type bidi) st)
      else if assigned p
              || negb (separate_unassigned options)
                 && negb (drop_unassigned options) then
        Block_add (io_block blocks) pin
                  (update_pin pin (with_elec_type passive) st)
      else if separate_unassigned options && negb (drop_unassigned options) then
        Block_add (unassigned_block blocks) pin
                  (update_pin pin (with_elec_type unspecified) st)
      else st
  end.

Definition classify_all (options : Options) (blocks : Blocks) (st : Store)
  : Store :=
  fold_left (fun st pin => classify options blocks pin st)
            (seq 0 (List.length (CubeFile.pins (cubefile st)))) st.

Fixpoint render_blocks (block_order : list block_ref) (out : list Line)
         (st : Store) : result (list Line * Store) :=
  match block_order with
  | [] => Ok (out, st)
  | b :: rest =>
      r <- Block_render b out st ;;
      render_blocks rest (fst r) (snd r)
  end.

Definition render_symbol (out : list Line) (options : Options)
           (blocks : Blocks) (st : Store) : result (list Line * Store) :=
  let block_order := block_order_of blocks in
  let st := classify_all options blocks st in
  let out :=
    out ++ [LibraryLine;
            DefLine (CubeFile.name (cubefile st)) (List.length block_order);
            F0Line;
            F1Line (CubeFile.name (cubefile st));
            FpListLine;
            FootprintLine (replace_LQFP (CubeFile.package (cubefile st)));
            EndFpListLine;
            DrawLine] in
  r <- render_blocks block_order out st ;;
  Ok (fst r ++ [EndDrawLine; EndDefLine; EmptyLine], snd r).

Definition create_io_block (options : Options) (cf : CubeFile.t)
  : result Block.t :=
  match io_style options with
  | sip => Ok (Block.new (Sip (SipRenderer.new (geometry options) Unit.IO)))
  | qfp mode =>
      r <- QfpRenderer.new (geometry options) Unit.IO
             (Z.of_nat (List.length (CubeFile.pins cf))) mode ;;
      Ok (Block.new (Qfp r))
  end.

(** The geometry that the program runs with. *)
Definition default_geometry : Geometry :=
  {| pin_spacing := 100; pin_length := 200; margin_qfp := 8; margin_ip := 1;
     width_sip := 800; width_dip := 1600 |}.

(** ** Definitions used to state the properties *)

(** The compact rule in the words of the specification: a slot counter and
    the expected next position, threaded through the pins of the side. *)
Fixpoint spec_compact_slots (counter expected_next_position : Z) (ps : list Pin)
  : list Z :=
  match ps with
  | [] => []
  | pin :: rest =>
      let counter' :=
        counter + (if position pin =? expected_next_position then 1 else 2) in
      counter' :: spec_compact_slots counter' (position pin + 1) rest
  end.

(** A pin as [load_cubefile] creates it. *)
Definition loaded_pin (position : Z) (name : string) (config_type : string)
           (label : option string) (assigned : bool) : Pin :=
  {| position := position; name := name; config_type := config_type;
     elec_type := unspecified; mode := None; label := label;
     assigned := assigned; block := None; display_name := None |}.

Definition io_pin (position : Z) (name : string) : Pin :=
  loaded_pin position name "I/O" None true.

(** A quad-flat renderer as its constructor leaves it. *)
Definition qfp_renderer (total_pins : Z) (mode : QfpMode) : QfpRenderer.t :=
  {| QfpRenderer.geometry := default_geometry; QfpRenderer.unit := Unit.IO;
     QfpRenderer.total_pins := total_pins; QfpRenderer.mode := mode;
     QfpRenderer.half_inner_width := 0; QfpRenderer.half_inner_height := 0;
     QfpRenderer.half_width := 0; QfpRenderer.half_height := 0;
     QfpRenderer.pins := [] |}.

(** A dual-row renderer holding four pins. *)
Definition dip_four : DipRenderer.t :=
  DipRenderer.set_pins
    [io_pin 1 "PA0"; io_pin 2 "PA1"; io_pin 3 "PA2"; io_pin 4 "PA3"]
    (DipRenderer.new default_geometry Unit.UNASSIGNED).

(** The five classification rules in the words of the specification, in
    their priority order; the last one always applies. *)
Inductive Rule := PowerRule | ConfigRule | IoRule | UnassignedRule | DropRule.

Definition rule_applies (options : Options) (p : Pin) (rule : Rule) : bool :=
  match rule with
  | PowerRule => separate_power options && String.eqb (config_type p) "Power"
  | ConfigRule =>
      separate_config options && negb (String.eqb (config_type p) "I/O")
  | IoRule =>
      assigned p
      || (negb (separate_unassigned options) && negb (drop_unassigned options))
  | UnassignedRule =>
      separate_unassigned options && negb (drop_unassigned options)
  | DropRule => true
  end.

Definition spec_rule (options : Options) (p : Pin) : Rule :=
  match find (rule_applies options p)
             [PowerRule; ConfigRule; IoRule; UnassignedRule; DropRule] with
  | Some rule => rule
  | None => DropRule
  end.

(** The electrical type that a rule stamps and the block that it assigns. *)
Definition spec_outcome (blocks : Blocks) (rule : Rule)
  : option (PinElectricalType * block_ref) :=
  match rule with
  | PowerRule => Some (power_in, power_block blocks)
  | ConfigRule => Some (bidi, config_block blocks)
  | IoRule => Some (passive, io_block blocks)
  | UnassignedRule => Some (unspecified, unassigned_block blocks)
  | DropRule => None
  end.

Definition assigned_to (options : Options) (blocks : Blocks) (b : block_ref)
           (p : Pin) : bool :=
  match spec_outcome blocks (spec_rule options p) with
  | Some (_, b') => Nat.eqb b' b
  | None => false
  end.

(** The pin behind reference [i] is assigned to block [b]. *)
Definition ref_assigned_to (options : Options) (blocks : Blocks) (st : Store)
           (b : block_ref) (i : pin_ref) : bool :=
  match get_pin st i with
  | Some p => assigned_to options blocks b p
  | None => false
  end.

(** The name of a pin truncated at its first whitespace. *)
Fixpoint truncate_at_space (s : string) : string :=
  match s with
  | EmptyString => EmptyString
  | String c r => if is_space c then EmptyString else String c (truncate_at_space r)
  end.

Fixpoint string_forallb (f : ascii -> bool) (s : string) : bool :=
  match s with
  | EmptyString => true
  | String c r => f c && string_forallb f r
  end.

(** The display name that the code gives a pin. *)
Definition shown_name (p : Pin) : string :=
  replace_spaces
    match truthy_label (label p) with
    | Some l => String.append (remove_space_dot_star (name p)) (String.append "/" l)
    | None => name p
    end.

(** A pin once it is classified. *)
Definition classified (options : Options) (blocks : Blocks) (p : Pin) : Pin :=
  let p' := with_display_name (shown_name p) p in
  match spec_outcome blocks (spec_rule options p) with
  | Some (e, b) => with_block (Some b) (with_elec_type e p')
  | None => p'
  end.

Definition is_XLine (l : Line) : bool :=
  match l with
  | XLine _ _ _ _ _ _ _ _ => true
  | _ => false
  end.

Definition unit_of (r : Renderer) : Z :=
  match r with
  | Sip s => SipRenderer.unit s
  | Dip d => DipRenderer.unit d
  | Qfp q => QfpRenderer.unit q
  end.

(** The options that the program runs with, the four blocks as the program
    creates them, and a store for a file with the given pins. *)
Definition program_options (style : IoStyle) : Options :=
  {| io_style := style; separate_config := true; separate_power := true;
     separate_unassigned := true; drop_unassigned := false;
     geometry := default_geometry |}.

Definition four_blocks : Blocks :=
  {| io_block := 0%nat; power_block := 1%nat; config_block := 2%nat;
     unassigned_block := 3%nat |}.

Definition store_of (ps : list Pin) : Store :=
  {| cubefile :=
       {| CubeFile.type := "STM32F103C8Tx"; CubeFile.family := "STM32F1";
          CubeFile.package := "LQFP48"; CubeFile.name := "MCU";
          CubeFile.pins := ps |};
     block_at := fun b =>
       match b with
       | 0%nat => Block.new (Sip (SipRenderer.new default_geometry Unit.IO))
       | 1%nat => Block.new (Sip (SipRenderer.new default_geometry Unit.POWER))
       | 2%nat => Block.new (Sip (SipRenderer.new default_geometry Unit.CONFIG))
       | _ => Block.new (Dip (DipRenderer.new default_geometry Unit.UNASSIGNED))
       end |}.

(** The pins that [Block.render] passes to the renderer of block [b]. *)
Definition render_input (st : Store) (b : block_ref) : list Pin :=
  filter (owned_by b) (deref st (Block.pins (block_at st b))).

(** What one block contributes to the output: the rectangle of its unit,
    then one pin line per pin of its input. *)
Definition block_lines (st : Store) (b : block_ref) (lines : list Line) : Prop :=
  exists hw hh xs,
    lines = SLine hw hh (unit_of (Block.renderer (block_at st b))) :: xs
    /\ forallb is_XLine xs = true
    /\ List.length xs = List.length (render_input st b).

(** The lines that [render_symbol] pushes before and after the blocks. *)
Definition header (st : Store) (unit_count : nat) : list Line :=
  [LibraryLine;
   DefLine (CubeFile.name (cubefile st)) unit_count;
   F0Line;
   F1Line (CubeFile.name (cubefile st));
   FpListLine;
   FootprintLine (replace_LQFP (CubeFile.package (cubefile st)));
   EndFpListLine;
   DrawLine].

Definition footer : list Line := [EndDrawLine; EndDefLine; EmptyLine].

(** Pins of a small device: a supply pin, a labelled and assigned port pin,
    the reset pin, an unassigned port pin whose name carries its alternate
    function, and a pin lost to [drop_unassigned] in [dropping_options]. *)
Definition VDD : Pin := loaded_pin 1 "VDD" "Power" None false.
Definition PA0 : Pin := loaded_pin 2 "PA0" "I/O" (Some "LED") true.
Definition NRST : Pin := loaded_pin 3 "NRST" "Reset" None false.
Definition PA13 : Pin := loaded_pin 4 "PA13 (JTMS/SWDIO)" "I/O" None false.

Definition dropping_options : Options :=
  {| io_style := sip; separate_config := true; separate_power := true;
     separate_unassigned := true; drop_unassigned := true;
     geometry := default_geometry |}.

(** ** Definitions for the further properties *)

(** The groups of a list whose keys come in ascending order: each group is a
    run of equal keys, and the keys of the groups increase. *)
Definition runs {A : Type} (f : A -> Z) (groups : list (Z * list A)) : Prop :=
  StronglySorted Z.lt (map fst groups)
  /\ Forall (fun e => snd e <> [] /\ Forall (fun a => f a = fst e) (snd e))
            groups.

Definition geometry_of (r : Renderer) : Geometry :=
  match r with
  | Sip s => SipRenderer.geometry s
  | Dip d => DipRenderer.geometry d
  | Qfp q => QfpRenderer.geometry q
  end.

(** What a pin line says about its pin, apart from where it is drawn: the
    display name, the position, the length, the unit and the electrical
    type. *)
Definition line_data (l : Line)
  : option (option string * Z * Q * Z * PinElectricalType) :=
  match l with
  | XLine d p _ _ len _ u e => Some (d, p, len, u, e)
  | _ => None
  end.

Definition pin_data (r : Renderer) (p : Pin)
  : option (option string * Z * Q * Z * PinElectricalType) :=
  Some (display_name p, position p, pin_length (geometry_of r), unit_of r,
        elec_type p).

(** A pin that one of the first four rules takes. *)
Definition kept (options : Options) (p : Pin) : bool :=
  match spec_rule options p with
  | DropRule => false
  | _ => true
  end.

(** ** The script *)

(** A top-level [const] that is read before the statement that declares it
    has run is in its temporal dead zone, and the read throws; [None] is the
    binding before that statement. (Compiled down to [var], the binding
    holds [undefined] instead and reading its property [pins] throws a
    [TypeError]; the read fails either way.) *)
Definition read_const {A : Type} (binding : option A) : result A :=
  match binding with
  | Some a => Ok a
  | None => Throw "ReferenceError: Cannot access 'cubefile' before initialization"
  end.

(** [create_io_block] with the binding of the global [cubefile] at the time
    of the call; with the binding initialised this is [create_io_block]
    ([create_io_block_with_initialised]). *)
Definition create_io_block_with (options : Options)
           (cubefile_binding : option CubeFile.t) : result Block.t :=
  match io_style options with
  | sip => Ok (Block.new (Sip (SipRenderer.new (geometry options) Unit.IO)))
  | qfp mode =>
      cf <- read_const cubefile_binding ;;
      r <- QfpRenderer.new (geometry options) Unit.IO
             (Z.of_nat (List.length (CubeFile.pins cf))) mode ;;
      Ok (Block.new (Qfp r))
  end.

(** The store of the script: the four blocks, which are four objects, and
    the parsed file. *)
Definition script_store (io power config unassigned : Block.t)
           (cf : CubeFile.t) : Store :=
  {| cubefile := cf;
     block_at := fun b =>
       match b with
       | 0%nat => io
       | 1%nat => power
       | 2%nat => config
       | _ => unassigned
       end |}.

(** The statements of the script from the resolved style on, in their
    order: the four blocks are created, then the file is loaded, then the
    symbol is rendered; the result is the list of lines that is joined and
    written. [loaded] is what [load_cubefile(input, database)] returns or
    throws. *)
Definition script (style : IoStyle) (loaded : result CubeFile.t)
  : result (list Line) :=
  let options := program_options style in
  io_block <- create_io_block_with options None ;;
  let power_block :=
    Block.new (Sip (SipRenderer.new (geometry options) Unit.POWER)) in
  let config_block :=
    Block.new (Sip (SipRenderer.new (geometry options) Unit.CONFIG)) in
  let unassigned_block :=
    Block.new (Dip (DipRenderer.new (geometry options) Unit.UNASSIGNED)) in
  cubefile <- loaded ;;
  let symbol := [] in
  r <- render_symbol symbol options four_blocks
         (script_store io_block power_block config_block unassigned_block
                       cubefile) ;;
  Ok (fst r).

(** A renderer whose [render_pins] has no way to throw. *)
Definition row_renderer (r : Renderer) : bool :=
  match r with
  | Qfp _ => false
  | _ => true
  end.

(** ** load_cubefile *)

(** A JavaScript [Map] as the list of its entries in insertion order:
    setting a key that is present replaces its value where it stands. *)
Section JsMap.
Context {K V : Type} (eqb : K -> K -> bool).

Fixpoint map_set (k : K) (v : V) (m : list (K * V)) : list (K * V) :=
  match m with
  | [] => [(k, v)]
  | (k', v') :: rest =>
      if eqb k k' then (k', v) :: rest else (k', v') :: map_set k v rest
  end.

Fixpoint map_get (k : K) (m : list (K * V)) : option V :=
  match m with
  | [] => None
  | (k', v') :: rest => if eqb k k' then Some v' else map_get k rest
  end.

Definition map_has (k : K) (m : list (K * V)) : bool :=
  match map_get k m with
  | Some _ => true
  | None => false
  end.

(** [new Map(entries)] *)
Definition new_map (entries : list (K * V)) : list (K * V) :=
  fold_left (fun m e => map_set (fst e) (snd e) m) entries [].
End JsMap.

(** [s.split('\n')] *)
Fixpoint split_lines (s : string) : list string :=
  match s with
  | EmptyString => [EmptyString]
  | String c r =>
      if Ascii.eqb c "010"%char then EmptyString :: split_lines r
      else match split_lines r with
           | l :: ls => String c l :: ls
           | [] => [String c EmptyString]
           end
  end.

(** The text before and after the first [=]. *)
Fixpoint split_at_equals (s : string) : option (string * string) :=
  match s with
  | EmptyString => None
  | String c r =>
      if Ascii.eqb c "="%char then Some (EmptyString, r)
      else match split_at_equals r with
           | Some (k, v) => Some (String c k, v)
           | None => None
           end
  end.

Definition one_line (s : string) : bool :=
  string_forallb (fun c => negb (is_line_terminator c)) s.

(** [s.match] with the pattern of a key, made of one or more characters
    other than [=], then [=], then a value that the dot has to match up to
    the end of the string: the key is what stands before the first [=] and
    is not empty; the value is the rest and holds no line terminator. *)
Definition match_key_value (s : string) : option (string * string) :=
  match split_at_equals s with
  | Some (EmptyString, _) => None
  | Some (k, v) => if one_line v then Some (k, v) else None
  | None => None
  end.

(** The text before a final [.Signal]. *)
Fixpoint strip_signal (k : string) : option string :=
  if String.eqb k ".Signal" then Some EmptyString
  else match k with
       | EmptyString => None
       | String c r =>
           match strip_signal r with
           | Some n => Some (String c n)
           | None => None
           end
       end.

(** [k.match] with the pattern of a name that the dot matches, followed
    by [.Signal] at the end of the string. *)
Definition match_signal (k : string) : option string :=
  if one_line k then strip_signal k else None.

(** [name.replace(/ /g, '\\ ')] *)
Fixpoint escape_spaces (s : string) : string :=
  match s with
  | EmptyString => EmptyString
  | String c r =>
      if Ascii.eqb c " "%char then String "\"%char (String " "%char (escape_spaces r))
      else String c (escape_spaces r)
  end.

(** What cheerio gives for the description of the microcontroller: the
    [Package] attribute of the [Mcu] element and, for each [Pin] child in
    document order, its attributes [Position] (read with [Number]; the
    packages covered are those whose positions are integers), [Name] and
    [Type]. *)
Record PinElement := {
  attr_Position : Z;
  attr_Name : string;
  attr_Type : string
}.

Record McuDocument := {
  attr_Package : string;
  pin_elements : list PinElement
}.

(** A value that is only ever interpolated into a template string, where
    [undefined] prints as its name. *)
Definition interpolated (v : option string) : string :=
  match v with
  | Some s => s
  | None => "undefined"
  end.

(** A string that is defined and not empty. *)
Definition truthy (v : option string) : option string :=
  match v with
  | Some EmptyString => None
  | other => other
  end.

Definition with_label_mode (l : string) (m : option string) (p : Pin) : Pin :=
  {| position := position p; name := name p; config_type := config_type p;
     elec_type := elec_type p;
     mode := match m with Some _ => m | None => mode p end;
     label := Some l;
     assigned := assigned p; block := block p; display_name := display_name p |}.

(** The first loop: one new pin per [Pin] element. *)
Definition add_pin_element (cubefile_data : list (string * string))
           (maps : list (string * Z) * list (Z * Pin)) (e : PinElement)
  : list (string * Z) * list (Z * Pin) :=
  let position := attr_Position e in
  let name := attr_Name e in
  let config_type := attr_Type e in
  let assigned :=
    map_has String.eqb (String.append (escape_spaces name) ".Signal")
            cubefile_data in
  (map_set String.eqb name position (fst maps),
   map_set Z.eqb position
           {| position := position; name := name; config_type := config_type;
              elec_type := unspecified; mode := None; label := None;
              assigned := assigned; block := None; display_name := None |}
           (snd maps)).

(** The body of the second loop, for one [name.Signal=label] entry. *)
Definition add_signal (cubefile_data : list (string * string))
           (name_to_pin : list (string * Z)) (pin_map : list (Z * Pin))
           (signal : string * string) : result (list (Z * Pin)) :=
  let '(name, label) := signal in
  match map_get String.eqb name name_to_pin with
  | None => Ok pin_map
  | Some position =>
      match map_get Z.eqb position pin_map with
      | None => Throw "TypeError: cannot set properties of undefined"
      | Some pin =>
          let mode := map_get String.eqb (String.append name ".Mode") cubefile_data in
          let gpio_label :=
            map_get String.eqb (String.append name ".GPIO_Label") cubefile_data in
          let l := match truthy gpio_label with Some g => g | None => label end in
          Ok (map_set Z.eqb position (with_label_mode l (truthy mode) pin) pin_map)
      end
  end.

Fixpoint add_signals (cubefile_data : list (string * string))
         (name_to_pin : list (string * Z)) (signals : list (string * string))
         (pin_map : list (Z * Pin)) : result (list (Z * Pin)) :=
  match signals with
  | [] => Ok pin_map
  | s :: rest =>
      pin_map <- add_signal cubefile_data name_to_pin pin_map s ;;
      add_signals cubefile_data name_to_pin rest pin_map
  end.

Definition key_values (content : string) : list (string * string) :=
  flat_map (fun s => match match_key_value s with
                     | Some kv => [kv]
                     | None => []
                     end)
           (split_lines content).

Definition signals_of (kvp : list (string * string)) : list (string * string) :=
  flat_map (fun kv => match match_signal (fst kv) with
                      | Some name => [(name, snd kv)]
                      | None => []
                      end)
           kvp.

(** [load_cubefile]: [content] is the text of the project file and
    [database] stands for reading and parsing the description of the
    microcontroller of the given name, which throws when there is no such
    file. The fields [family], [type] and [name] of the result may be
    [undefined]; the first two are never read and the third is only
    interpolated. *)
Definition load_cubefile (content : string)
           (database : string -> result McuDocument) : result CubeFile.t :=
  let kvp := key_values content in
  let cubefile_data := new_map String.eqb kvp in
  let mcu_name := map_get String.eqb "Mcu.Name" cubefile_data in
  doc <- database (interpolated mcu_name) ;;
  let package_name := attr_Package doc in
  let maps := fold_left (add_pin_element cubefile_data) (pin_elements doc) ([], []) in
  pin_map <- add_signals cubefile_data (fst maps) (signals_of kvp) (snd maps) ;;
  Ok {| CubeFile.family :=
          interpolated (map_get String.eqb "Mcu.Family" cubefile_data);
        CubeFile.type := interpolated mcu_name;
        CubeFile.package := package_name;
        CubeFile.name :=
          interpolated (map_get String.eqb "Mcu.UserName" cubefile_data);
        CubeFile.pins := map snd pin_map |}.

(** A project file and a description for the examples. *)
Definition example_project : string :=
  String.concat (String "010"%char EmptyString)
    ["Mcu.Name=STM32F103C(8-B)Tx"; "Mcu.UserName=STM32F103C8Tx";
     "PA0-WKUP.Signal=GPIO_Output"; "PA0-WKUP.GPIO_Label=LED";
     "PA13\ (JTMS/SWDIO).Signal=SYS_JTMS-SWDIO"; "PA1.Signal=ADC1_IN1"; ""].

Definition example_document : McuDocument :=
  {| attr_Package := "LQFP48";
     pin_elements :=
       [ {| attr_Position := 1; attr_Name := "VBAT"; attr_Type := "Power" |};
         {| attr_Position := 10; attr_Name := "PA0-WKUP"; attr_Type := "I/O" |};
         {| attr_Position := 11; attr_Name := "PA1"; attr_Type := "I/O" |};
         {| attr_Position := 34; attr_Name := "PA13 (JTMS/SWDIO)";
            attr_Type := "I/O" |} ] |}.

Definition example_database (mcu_name : string) : result McuDocument :=
  if String.eqb mcu_name "STM32F103C(8-B)Tx" then Ok example_document
  else Throw "ENOENT: no such file or directory".

(** The value of the last entry with the given key. *)
Fixpoint lookup_last {K V : Type} (eqb : K -> K -> bool) (k : K)
         (entries : list (K * V)) : option V :=
  match entries with
  | [] => None
  | (k', v) :: rest =>
      match lookup_last eqb k rest with
      | Some v' => Some v'
      | None => if eqb k k' then Some v else None
      end
  end.

(** A pin without what the second loop of [load_cubefile] sets. *)
Definition unlabelled (p : Pin) : Pin :=
  {| position := position p; name := name p; config_type := config_type p;
     elec_type := elec_type p; mode := None; label := None;
     assigned := assigned p; block := block p; display_name := display_name p |}.

(** The pin that the first loop of [load_cubefile] creates for an
    element. *)
Definition pin_of_element (cubefile_data : list (string * string))
           (e : PinElement) : Pin :=
  loaded_pin (attr_Position e) (attr_Name e) (attr_Type e) None
             (map_has String.eqb
                      (String.append (escape_spaces (attr_Name e)) ".Signal")
                      cubefile_data).





Fixpoint string_mem (c : ascii) (s : string) : bool :=
  match s with
  | EmptyString => false
  | String c' r => Ascii.eqb c c' || string_mem c r
  end.


(** * Properties *)

(** ** Lists and lodash *)

Lemma mapi_length {A B : Type} (f : A -> nat -> B) (xs : list A) :
  List.length (mapi f xs) = List.length xs.
Proof.
  unfold mapi.
  rewrite length_map, length_combine, length_seq.
  apply Nat.min_id.
Qed.

Lemma combine_seq_nth_error {A : Type} (xs : list A) (start i : nat) (a : A) :
  nth_error xs i = Some a ->
  nth_error (combine (seq start (List.length xs)) xs) i = Some ((start + i)%nat, a).
Proof.
  revert start i.
  induction xs as [|b xs IH]; intros start [|i] H; simpl in *; try discriminate.
  - inversion H; subst. now rewrite Nat.add_0_r.
  - rewrite (IH (S start) i H). f_equal. f_equal. lia.
Qed.

Lemma mapi_nth_error {A B : Type} (f : A -> nat -> B) (xs : list A) (i : nat) (a : A) :
  nth_error xs i = Some a ->
  nth_error (mapi f xs) i = Some (f a i).
Proof.
  intros H. unfold mapi.
  rewrite nth_error_map, (combine_seq_nth_error xs 0 i a H).
  reflexivity.
Qed.

Lemma insert_by_length {A : Type} (le : A -> A -> bool) (a : A) (l : list A) :
  List.length (insert_by le a l) = S (List.length l).
Proof.
  induction l as [|b l IH]; simpl; [reflexivity|].
  destruct (le a b); simpl; [reflexivity | now rewrite IH].
Qed.

Lemma sortBy_length {A : Type} (le : A -> A -> bool) (l : list A) :
  List.length (sortBy le l) = List.length l.
Proof.
  induction l as [|a l IH]; simpl; [reflexivity|].
  now rewrite insert_by_length, IH.
Qed.

Lemma insert_by_perm {A : Type} (le : A -> A -> bool) (a : A) (l : list A) :
  Permutation (insert_by le a l) (a :: l).
Proof.
  induction l as [|b l IH]; simpl; [reflexivity|].
  destruct (le a b); [reflexivity|].
  rewrite IH. apply perm_swap.
Qed.

Lemma sortBy_perm {A : Type} (le : A -> A -> bool) (l : list A) :
  Permutation (sortBy le l) l.
Proof.
  induction l as [|a l IH]; simpl; [reflexivity|].
  now rewrite insert_by_perm, IH.
Qed.

Lemma insert_by_HdRel {A : Type} (le : A -> A -> bool) (a b : A) (l : list A) :
  le b a = true ->
  HdRel (fun u v => le u v = true) b l ->
  HdRel (fun u v => le u v = true) b (insert_by le a l).
Proof.
  intros Hba Hl. destruct l as [|c l]; simpl; [now constructor|].
  destruct (le a c); constructor; [exact Hba|].
  now inversion Hl.
Qed.

(** [_.sortBy] sorts: for a total order, each element of the result is at
    most the next one. *)
Lemma sortBy_Sorted {A : Type} (le : A -> A -> bool) (l : list A) :
  (forall a b, le a b = false -> le b a = true) ->
  Sorted (fun u v => le u v = true) (sortBy le l).
Proof.
  intros Htotal.
  induction l as [|a l IH]; simpl; [constructor|].
  induction IH as [|b r Hr IHr Hb]; simpl; [repeat constructor|].
  destruct (le a b) eqn:E.
  - constructor; [now constructor | now constructor].
  - constructor; [exact IHr|].
    apply insert_by_HdRel; [now apply Htotal | exact Hb].
Qed.

Lemma label_compare_antisym (a b : option string) :
  label_compare a b = CompOpp (label_compare b a).
Proof.
  destruct a as [s|], b as [t|]; simpl; try reflexivity.
  apply String.compare_antisym.
Qed.

Lemma name_label_le_total (p q : Pin) :
  name_label_le p q = false -> name_label_le q p = true.
Proof.
  unfold name_label_le.
  rewrite (String.compare_antisym (name p) (name q)).
  rewrite (label_compare_antisym (label p) (label q)).
  destruct (String.compare (name q) (name p)); simpl; try congruence.
  destruct (label_compare (label q) (label p)); simpl; congruence.
Qed.

(** The single-row and dual-row renderers hold their pins in ascending
    (name, label) order. *)
Lemma sortBy_name_label (ps : list Pin) :
  Sorted (fun p q => name_label_le p q = true) (sortBy name_label_le ps)
  /\ Permutation (sortBy name_label_le ps) ps.
Proof.
  split; [apply sortBy_Sorted, name_label_le_total | apply sortBy_perm].
Qed.

Lemma filter_split_perm {A : Type} (f : A -> bool) (l : list A) :
  Permutation (filter f l ++ filter (fun a => negb (f a)) l) l.
Proof.
  induction l as [|a l IH]; simpl; [reflexivity|].
  destruct (f a); simpl.
  - now rewrite IH.
  - rewrite <- Permutation_middle. now rewrite IH.
Qed.

Lemma concat_perm {A : Type} (l l' : list (list A)) :
  Permutation l l' -> Permutation (List.concat l) (List.concat l').
Proof.
  induction 1; simpl.
  - reflexivity.
  - now apply Permutation_app_head.
  - rewrite !app_assoc. apply Permutation_app_tail, Permutation_app_comm.
  - etransitivity; eassumption.
Qed.

Lemma group_insert_perm {A : Type} (k : Z) (v : A) (groups : list (Z * list A)) :
  Permutation (List.concat (map snd (group_insert k v groups)))
              (v :: List.concat (map snd groups)).
Proof.
  induction groups as [|[k' vs] rest IH]; simpl; [reflexivity|].
  destruct (k =? k'); simpl.
  - rewrite <- app_assoc. simpl. symmetry. apply Permutation_middle.
  - rewrite IH. symmetry. apply Permutation_middle.
Qed.

Lemma groupBy_perm {A : Type} (f : A -> Z) (l : list A) :
  Permutation (List.concat (map snd (groupBy f l))) l.
Proof.
  unfold groupBy.
  enough (H : forall groups,
             Permutation
               (List.concat
                  (map snd (fold_left (fun g v => group_insert (f v) v g) l groups)))
               (List.concat (map snd groups) ++ l))
    by apply (H []).
  induction l as [|v l IH]; intros groups; simpl.
  - now rewrite app_nil_r.
  - rewrite IH, group_insert_perm. simpl. apply Permutation_middle.
Qed.

Lemma values_perm {A : Type} (groups : list (Z * list A)) :
  Permutation (values groups) (map snd groups).
Proof.
  unfold values.
  rewrite <- map_app.
  apply Permutation_map.
  rewrite sortBy_perm.
  apply filter_split_perm.
Qed.

(** Sorting, grouping and enumerating the groups neither loses nor
    duplicates an element. *)
Lemma grouped_perm {A : Type} (le : A -> A -> bool) (f : A -> Z) (l : list A) :
  Permutation (List.concat (values (groupBy f (sortBy le l)))) l.
Proof.
  rewrite (concat_perm _ _ (values_perm _)), groupBy_perm.
  apply sortBy_perm.
Qed.

Lemma mapi_In {A B : Type} (f : A -> nat -> B) (xs : list A) (b : B) :
  In b (mapi f xs) -> exists a i, In a xs /\ b = f a i.
Proof.
  unfold mapi. intros H.
  apply in_map_iff in H. destruct H as [[i a] [<- H]].
  exists a, i. split; [|reflexivity].
  eapply in_combine_r; eassumption.
Qed.

Lemma map_combine_snd {A B : Type} (xs : list B) (l : list A) :
  List.length xs = List.length l ->
  map snd (combine xs l) = l.
Proof.
  revert xs. induction l as [|a l IH]; intros [|b xs] H; simpl in *;
    try discriminate; [reflexivity|].
  f_equal. apply IH. lia.
Qed.

Lemma concat_mapi_project {A B : Type} (proj : B -> A) (xs : list (list A))
      (F : list A -> nat -> list B) :
  (forall l i, map proj (F l i) = l) ->
  map proj (List.concat (mapi F xs)) = List.concat xs.
Proof.
  intros H. unfold mapi.
  generalize 0%nat.
  induction xs as [|l xs IH]; intros start; simpl; [reflexivity|].
  rewrite map_app, H. f_equal. apply IH.
Qed.

(** ** Slot assignment of the quad-flat renderer *)

Lemma compact_step_last (xs : list Z) (next : Z) (pin : Pin) :
  QfpRenderer.compact_step (xs, next) pin
  = (xs ++ [last xs 0 + (if position pin =? next then 1 else 2)],
     position pin + 1).
Proof.
  unfold QfpRenderer.compact_step. destruct xs; reflexivity.
Qed.

Lemma compact_fold (ps : list Pin) (xs : list Z) (next : Z) :
  fst (fold_left QfpRenderer.compact_step ps (xs, next))
  = xs ++ spec_compact_slots (last xs 0) next ps.
Proof.
  revert xs next.
  induction ps as [|pin ps IH]; intros xs next.
  - simpl. now rewrite app_nil_r.
  - cbn [fold_left]. rewrite compact_step_last, IH, last_last, <- app_assoc.
    reflexivity.
Qed.

Lemma spec_compact_slots_length (c n : Z) (ps : list Pin) :
  List.length (spec_compact_slots c n ps) = List.length ps.
Proof.
  revert c n. induction ps as [|p ps IH]; intros c n; simpl; [reflexivity|].
  now rewrite IH.
Qed.

Lemma spec_compact_slots_above (c n : Z) (ps : list Pin) :
  Forall (fun s => c < s) (spec_compact_slots c n ps).
Proof.
  revert c n. induction ps as [|p ps IH]; intros c n; simpl; constructor.
  - destruct (position p =? n); lia.
  - eapply Forall_impl; [|apply IH].
    intros s Hs. cbv beta in Hs. destruct (position p =? n); lia.
Qed.

Lemma spec_compact_slots_sorted (c n : Z) (ps : list Pin) :
  StronglySorted Z.lt (spec_compact_slots c n ps).
Proof.
  revert c n. induction ps as [|p ps IH]; intros c n; simpl; constructor.
  - apply IH.
  - apply spec_compact_slots_above.
Qed.

Lemma position_pins_on_side_compact (r : QfpRenderer.t) (first : Pin) (rest : list Pin) :
  QfpRenderer.mode r = COMPACT ->
  QfpRenderer.position_pins_on_side r (first :: rest)
  = spec_compact_slots 0 (position first) (first :: rest).
Proof.
  intros Hm. unfold QfpRenderer.position_pins_on_side. rewrite Hm.
  now rewrite compact_fold.
Qed.

Lemma position_pins_on_side_length (r : QfpRenderer.t) (ps : list Pin) :
  List.length (QfpRenderer.position_pins_on_side r ps) = List.length ps.
Proof.
  unfold QfpRenderer.position_pins_on_side.
  destruct (QfpRenderer.mode r).
  - apply length_map.
  - destruct ps as [|p ps]; [reflexivity|].
    rewrite compact_fold. apply spec_compact_slots_length.
  - apply mapi_length.
Qed.

Lemma new_inv (g : Geometry) (u n : Z) (m : QfpMode) (r : QfpRenderer.t) :
  QfpRenderer.new g u n m = Ok r ->
  Z.rem n 4 = 0 /\ QfpRenderer.geometry r = g /\ QfpRenderer.unit r = u
  /\ QfpRenderer.total_pins r = n /\ QfpRenderer.mode r = m.
Proof.
  unfold QfpRenderer.new.
  destruct (Z.rem n 4 =? 0) eqn:E; simpl; [|discriminate].
  intros H. inversion H; subst; simpl.
  apply Z.eqb_eq in E. auto.
Qed.

Lemma set_pins_fields (ps : list Pin) (r : QfpRenderer.t) :
  QfpRenderer.geometry (QfpRenderer.set_pins ps r) = QfpRenderer.geometry r
  /\ QfpRenderer.unit (QfpRenderer.set_pins ps r) = QfpRenderer.unit r
  /\ QfpRenderer.total_pins (QfpRenderer.set_pins ps r) = QfpRenderer.total_pins r
  /\ QfpRenderer.mode (QfpRenderer.set_pins ps r) = QfpRenderer.mode r.
Proof. repeat split. Qed.

(** The pins that [set_pins] stores are the pins of the groups, in order. *)
Lemma set_pins_qfp_pins (ps : list Pin) (r : QfpRenderer.t) :
  map qfp_pin (QfpRenderer.pins (QfpRenderer.set_pins ps r))
  = List.concat (values (groupBy (QfpRenderer.side_key r) (sortBy position_le ps))).
Proof.
  unfold QfpRenderer.set_pins, QfpRenderer.calc_geometry. cbn [QfpRenderer.pins].
  apply concat_mapi_project.
  intros l i. rewrite map_map.
  transitivity (map snd (combine (QfpRenderer.position_pins_on_side r l) l)).
  - apply map_ext. now intros [slot pin].
  - apply map_combine_snd, position_pins_on_side_length.
Qed.

Lemma set_pins_perm (ps : list Pin) (r : QfpRenderer.t) :
  Permutation (map qfp_pin (QfpRenderer.pins (QfpRenderer.set_pins ps r))) ps.
Proof. rewrite set_pins_qfp_pins. apply grouped_perm. Qed.

Lemma set_pins_count (ps : list Pin) (r : QfpRenderer.t) :
  List.length (QfpRenderer.pins (QfpRenderer.set_pins ps r)) = List.length ps.
Proof.
  rewrite <- (length_map qfp_pin). apply Permutation_length, set_pins_perm.
Qed.

(** Each stored pin carries a slot that [position_pins_on_side] computed for
    the group [side_pins] it belongs to. *)
Lemma set_pins_slot (ps : list Pin) (r : QfpRenderer.t) (q : QfpPin) :
  In q (QfpRenderer.pins (QfpRenderer.set_pins ps r)) ->
  exists side_pins,
    In side_pins
       (values (groupBy (QfpRenderer.side_key r) (sortBy position_le ps)))
    /\ In (position_on_side q, qfp_pin q)
          (combine (QfpRenderer.position_pins_on_side r side_pins) side_pins).
Proof.
  unfold QfpRenderer.set_pins, QfpRenderer.calc_geometry. cbn [QfpRenderer.pins].
  intros H. apply in_concat in H. destruct H as [placed [Hp Hq]].
  apply mapi_In in Hp. destruct Hp as [side_pins [i [Hs ->]]].
  exists side_pins. split; [exact Hs|].
  apply in_map_iff in Hq. destruct Hq as [[slot pin] [<- Hq]]. exact Hq.
Qed.

Lemma combine_map_In {A B : Type} (g : A -> B) (l : list A) (b : B) (a : A) :
  In (b, a) (combine (map g l) l) -> b = g a.
Proof.
  induction l as [|a' l IH]; simpl; [tauto|].
  intros [H|H]; [now inversion H | auto].
Qed.

Lemma pins_per_side_pos (g : Geometry) (u n : Z) (m : QfpMode) (r : QfpRenderer.t) :
  0 < n -> QfpRenderer.new g u n m = Ok r ->
  0 < QfpRenderer.pins_per_side r /\ QfpRenderer.pins_per_side r = n / 4.
Proof.
  intros Hn Hr. apply new_inv in Hr.
  destruct Hr as (Hrem & _ & _ & Ht & _).
  unfold QfpRenderer.pins_per_side. rewrite Ht.
  rewrite Z.rem_mod_nonneg in Hrem by lia.
  split; [|reflexivity].
  apply Z.div_str_pos.
  pose proof (Z.div_mod n 4 ltac:(lia)). lia.
Qed.

Lemma StronglySorted_map_lt {A : Type} (f g : A -> Z) (l : list A) :
  (forall a b, In a l -> In b l -> f a < f b -> g a < g b) ->
  StronglySorted Z.lt (map f l) -> StronglySorted Z.lt (map g l).
Proof.
  induction l as [|a l IH]; intros Hmono Hs; simpl in *; [constructor|].
  inversion Hs as [|? ? Hs' Hall]; subst.
  constructor.
  - apply IH; [|exact Hs']. intros; apply Hmono; auto.
  - rewrite Forall_map in *. rewrite Forall_forall in *.
    intros b Hb. apply Hmono; auto.
Qed.

Lemma seq_sorted (start len : nat) :
  StronglySorted Z.lt (map Z.of_nat (seq start len)).
Proof.
  revert start. induction len as [|len IH]; intros start; simpl; constructor.
  - apply IH.
  - rewrite Forall_map, Forall_forall. intros i Hi.
    apply in_seq in Hi. lia.
Qed.

Lemma mapi_index {A : Type} (xs : list A) :
  mapi (fun (_ : A) index => Z.of_nat index) xs
  = map Z.of_nat (seq 0 (List.length xs)).
Proof.
  unfold mapi. generalize 0%nat.
  induction xs as [|a xs IH]; intros start; simpl; [reflexivity|].
  now rewrite IH.
Qed.

Lemma StronglySorted_lt_NoDup (l : list Z) :
  StronglySorted Z.lt l -> NoDup l.
Proof.
  induction 1 as [|a l Hs IH Hall]; constructor; [|exact IH].
  intros Hin. rewrite Forall_forall in Hall. specialize (Hall a Hin). lia.
Qed.

Lemma StronglySorted_lt_nth (l : list Z) (i j : nat) (a b : Z) :
  StronglySorted Z.lt l -> (i < j)%nat ->
  nth_error l i = Some a -> nth_error l j = Some b -> a < b.
Proof.
  intros Hs. revert i j.
  induction Hs as [|c l Hs IH Hall]; intros i j Hij Ha Hb.
  - destruct i; discriminate.
  - destruct j as [|j]; [lia|]. simpl in Hb.
    destruct i as [|i]; simpl in Ha.
    + inversion Ha; subst. rewrite Forall_forall in Hall.
      apply Hall. eapply nth_error_In; eassumption.
    + apply (IH i j); auto. lia.
Qed.

(** The slots of a side increase strictly, whatever the mode. *)
Lemma position_pins_on_side_sorted (r : QfpRenderer.t) (k : Z) (ps : list Pin) :
  0 < QfpRenderer.pins_per_side r -> 0 <= k ->
  StronglySorted Z.lt (map position ps) ->
  (forall p, In p ps ->
             k * QfpRenderer.pins_per_side r + 1 <= position p
             <= (k + 1) * QfpRenderer.pins_per_side r) ->
  StronglySorted Z.lt (QfpRenderer.position_pins_on_side r ps).
Proof.
  intros Hq Hk Hsorted Hrange.
  unfold QfpRenderer.position_pins_on_side.
  destruct (QfpRenderer.mode r).
  - apply (StronglySorted_map_lt position); [|exact Hsorted].
    intros a b Ha Hb Hlt.
    pose proof (Hrange a Ha) as Ra. pose proof (Hrange b Hb) as Rb.
    set (q := QfpRenderer.pins_per_side r) in *.
    assert (Hrem : forall p, k * q + 1 <= p <= (k + 1) * q ->
                             Z.rem (p - 1) q = p - 1 - k * q).
    { intros p Hp. rewrite Z.rem_mod_nonneg by nia.
      symmetry. apply (Z.mod_unique_pos _ _ k); nia. }
    rewrite (Hrem _ Ra), (Hrem _ Rb). lia.
  - destruct ps as [|p ps]; [constructor|].
    rewrite compact_fold. apply spec_compact_slots_sorted.
  - rewrite mapi_index. apply seq_sorted.
Qed.

Lemma js_index_Some_range {A : Type} (xs : list A) (i : Z) (a : A) :
  js_index xs i = Some a -> 0 <= i < Z.of_nat (List.length xs).
Proof.
  unfold js_index. destruct (i <? 0) eqn:E; [discriminate|].
  intros H. apply Z.ltb_ge in E.
  assert (Hn : nth_error xs (Z.to_nat i) <> None) by congruence.
  apply nth_error_Some in Hn. lia.
Qed.

Lemma scaled_slot_injective (a b : Z) (d s c0 c1 : Q) :
  ~ (s == 0)%Q -> ~ (d == 0)%Q ->
  (c0 + inject_Z a * d * s + c1 == c0 + inject_Z b * d * s + c1)%Q -> a = b.
Proof.
  intros Hs Hd H.
  assert (E : ((inject_Z a - inject_Z b) * (d * s) == 0)%Q).
  { transitivity ((c0 + inject_Z a * d * s + c1)
                  - (c0 + inject_Z b * d * s + c1))%Q; [ring|].
    rewrite H. ring. }
  apply Qmult_integral in E. destruct E as [E|E].
  - apply inject_Z_injective.
    transitivity ((inject_Z a - inject_Z b) + inject_Z b)%Q; [ring|].
    rewrite E. ring.
  - apply Qmult_integral in E. tauto.
Qed.

(** Two pins of one side with different slots are drawn at different
    places. *)
Lemma get_position_distinct (r : QfpRenderer.t) (s a b : Z) (p1 p2 : Pin)
      (pa pb : PinPosition) :
  ~ (pin_spacing (QfpRenderer.geometry r) == 0)%Q ->
  a <> b ->
  QfpRenderer.get_position r
    {| side := s; position_on_side := a; qfp_pin := p1 |} = Ok pa ->
  QfpRenderer.get_position r
    {| side := s; position_on_side := b; qfp_pin := p2 |} = Ok pb ->
  ~ (x pa == x pb /\ y pa == y pb)%Q.
Proof.
  intros Hs Hab Ha Hb [Hx Hy].
  unfold QfpRenderer.get_position in Ha, Hb. cbn [side] in Ha, Hb.
  destruct (js_index QfpRenderer.origins s) as [o|] eqn:Eo; [|discriminate].
  apply js_index_Some_range in Eo as Hrange. cbn in Hrange.
  destruct (js_index QfpRenderer.directions s) as [d|] eqn:Ed; [|discriminate].
  destruct (js_char "RULD" s) as [c|] eqn:Ec; [|discriminate].
  inversion Ha; subst pa. inversion Hb; subst pb. clear Ha Hb.
  cbn [x y] in Hx, Hy. unfold QfpRenderer.coord in Hx, Hy.
  cbn [position_on_side] in Hx, Hy.
  apply Hab.
  assert (Hcase : s = 0 \/ s = 1 \/ s = 2 \/ s = 3) by lia.
  destruct Hcase as [-> | [-> | [-> | ->]]];
    cbv in Eo, Ed; inversion Eo; inversion Ed; subst o d; cbn [fst snd] in Hx, Hy.
  - now apply (scaled_slot_injective _ _ _ _ _ _ Hs) in Hy.
  - now apply (scaled_slot_injective _ _ _ _ _ _ Hs) in Hx.
  - now apply (scaled_slot_injective _ _ _ _ _ _ Hs) in Hy.
  - now apply (scaled_slot_injective _ _ _ _ _ _ Hs) in Hx.
Qed.

(** ** The quad-flat renderer: claims *)

(** C1. In compact mode the first pin of a side does not get slot 0: the
    reducer starts from a counter of 0 and advances it for the first pin as
    for every other one, so a side with the single pin 1 gets the slot list
    [1], and the pins 1, 2, 5 get [1; 2; 4]. *)
Theorem compact_first_pin_gets_slot_1 :
  QfpRenderer.new default_geometry Unit.IO 40 COMPACT = Ok (qfp_renderer 40 COMPACT)
  /\ QfpRenderer.position_pins_on_side (qfp_renderer 40 COMPACT) [io_pin 1 "PA0"]
     = [1]
  /\ QfpRenderer.position_pins_on_side (qfp_renderer 40 COMPACT)
       [io_pin 1 "PA0"; io_pin 2 "PA1"; io_pin 5 "PA4"]
     = [1; 2; 4]
  /\ (forall (total_pins : Z) (first : Pin) (rest : list Pin),
         QfpRenderer.position_pins_on_side (qfp_renderer total_pins COMPACT)
                                           (first :: rest)
         = spec_compact_slots 0 (position first) (first :: rest)
         /\ hd_error (QfpRenderer.position_pins_on_side
                        (qfp_renderer total_pins COMPACT) (first :: rest))
            = Some 1).
Proof.
  repeat split; try reflexivity.
  - now apply position_pins_on_side_compact.
  - rewrite position_pins_on_side_compact by reflexivity.
    simpl. now rewrite Z.eqb_refl.
Qed.

(** C2. The side that [set_pins] records is the rank of the pin's group among
    the populated groups, not the group's key: with 8 pins in total, the lone
    pin at position 3 belongs to side floor((3 - 1) / 2) = 1 and is recorded
    on side 0. *)
Theorem lone_pin_recorded_on_side_0 :
  QfpRenderer.new default_geometry Unit.IO 8 CRUSHED = Ok (qfp_renderer 8 CRUSHED)
  /\ map (fun q => (position (qfp_pin q), side q))
         (QfpRenderer.pins
            (QfpRenderer.set_pins [io_pin 3 "PA2"] (qfp_renderer 8 CRUSHED)))
     = [(3, 0)]
  /\ QfpRenderer.side_key (qfp_renderer 8 CRUSHED) (io_pin 3 "PA2") = 1
  /\ (3 - 1) / (8 / 4) = 1.
Proof. repeat split. Qed.

(** C7. The constructor of the quad-flat renderer throws exactly when
    [total_pins] is not a multiple of 4, and whatever is sequenced after it
    (setting pins, rendering) does not run; 101 pins fail in this way. *)
Theorem qfp_constructor_throws_iff (g : Geometry) (u n : Z) (m : QfpMode) :
  (QfpRenderer.new g u n m = Throw "Pin count must be multiple of 4"
   <-> ~ (4 | n))
  /\ ((exists r, QfpRenderer.new g u n m = Ok r) <-> (4 | n))
  /\ (~ (4 | n) ->
      forall (rendering : QfpRenderer.t -> result (list Line)),
        (r <- QfpRenderer.new g u n m ;; rendering r)
        = Throw "Pin count must be multiple of 4")
  /\ QfpRenderer.new g u 101 m = Throw "Pin count must be multiple of 4"
  /\ (forall (options : Options) (cf : CubeFile.t),
        io_style options = qfp m ->
        n = Z.of_nat (List.length (CubeFile.pins cf)) ->
        ~ (4 | n) ->
        create_io_block options cf = Throw "Pin count must be multiple of 4").
Proof.
  assert (Hdiv : Z.rem n 4 = 0 <-> (4 | n)) by (apply Z.rem_divide; lia).
  assert (Hthrow : ~ (4 | n) ->
                   forall g' u',
                     QfpRenderer.new g' u' n m
                     = Throw "Pin count must be multiple of 4").
  { intros Hn g' u'. unfold QfpRenderer.new.
    destruct (Z.rem n 4 =? 0) eqn:E; [|reflexivity].
    apply Z.eqb_eq in E. tauto. }
  split; [|split; [|split; [|split]]].
  - split; [|intros Hn; now apply Hthrow].
    unfold QfpRenderer.new.
    destruct (Z.rem n 4 =? 0) eqn:E; simpl; [discriminate|].
    apply Z.eqb_neq in E. tauto.
  - split.
    + intros [r Hr]. apply new_inv in Hr. tauto.
    + intros Hn. unfold QfpRenderer.new.
      rewrite (proj2 (Z.eqb_eq _ _) (proj2 Hdiv Hn)). simpl.
      eexists; reflexivity.
  - intros Hn rendering. now rewrite Hthrow.
  - reflexivity.
  - intros options cf Hstyle Hcount Hn.
    unfold create_io_block. rewrite Hstyle, <- Hcount.
    now rewrite Hthrow.
Qed.

Lemma qfp_constructor_throws_iff_witness :
  ~ (4 | 101)
  /\ (r <- QfpRenderer.new default_geometry Unit.IO 101 CRUSHED ;;
      QfpRenderer.render_pins
        (QfpRenderer.set_pins [io_pin 1 "PA0"] r) [])
     = Throw "Pin count must be multiple of 4".
Proof.
  assert (H : ~ (4 | 101)).
  { intros [c Hc]. lia. }
  split; [exact H|].
  apply (proj1 (proj2 (proj2
           (qfp_constructor_throws_iff default_geometry Unit.IO 101 CRUSHED))) H).
Defined.

(** C9. In accurate mode [set_pins] keeps every pin and gives it the slot
    (position - 1) mod (total_pins / 4), and the inner half sizes are those of
    total_pins / 4 - 1 slots on both axes, whichever pins are given. *)
Theorem accurate_slots_and_bounds (g : Geometry) (u n : Z) (r : QfpRenderer.t)
        (ps : list Pin) :
  0 < n ->
  QfpRenderer.new g u n ACCURATE = Ok r ->
  (forall p, In p ps -> 1 <= position p) ->
  let r' := QfpRenderer.set_pins ps r in
  Permutation (map qfp_pin (QfpRenderer.pins r')) ps
  /\ (forall q, In q (QfpRenderer.pins r') ->
                position_on_side q = (position (qfp_pin q) - 1) mod (n / 4))
  /\ QfpRenderer.half_inner_width r'
     = (inject_Z (n / 4 - 1) * pin_spacing g / 2)%Q
  /\ QfpRenderer.half_inner_height r'
     = (inject_Z (n / 4 - 1) * pin_spacing g / 2)%Q.
Proof.
  intros Hn Hnew Hpos r'.
  destruct (pins_per_side_pos g u n ACCURATE r Hn Hnew) as [Hq Hq4].
  apply new_inv in Hnew. destruct Hnew as (_ & Hg & _ & _ & Hm).
  split; [apply set_pins_perm|].
  split; [|split].
  - intros q Hin.
    assert (Hp : In (qfp_pin q) ps).
    { apply (Permutation_in _ (set_pins_perm ps r)), in_map, Hin. }
    apply set_pins_slot in Hin. destruct Hin as [side_pins [_ Hin]].
    unfold QfpRenderer.position_pins_on_side in Hin. rewrite Hm in Hin.
    apply combine_map_In in Hin. rewrite Hin, Hq4.
    apply Z.rem_mod_nonneg; [specialize (Hpos _ Hp)|]; lia.
  - subst r'. unfold QfpRenderer.set_pins, QfpRenderer.calc_geometry.
    cbn [QfpRenderer.half_inner_width QfpRenderer.mode QfpRenderer.geometry].
    rewrite Hm, Hg. unfold QfpRenderer.pins_per_side.
    cbn [QfpRenderer.total_pins]. unfold QfpRenderer.pins_per_side in Hq4.
    now rewrite Hq4.
  - subst r'. unfold QfpRenderer.set_pins, QfpRenderer.calc_geometry.
    cbn [QfpRenderer.half_inner_height QfpRenderer.mode QfpRenderer.geometry].
    rewrite Hm, Hg. unfold QfpRenderer.pins_per_side.
    cbn [QfpRenderer.total_pins]. unfold QfpRenderer.pins_per_side in Hq4.
    now rewrite Hq4.
Qed.

Lemma accurate_slots_and_bounds_witness :
  let r' := QfpRenderer.set_pins [io_pin 30 "PB2"; io_pin 21 "PB10"]
                                 (qfp_renderer 40 ACCURATE) in
  map (fun q => (position (qfp_pin q), position_on_side q)) (QfpRenderer.pins r')
  = [(21, 0); (30, 9)]
  /\ (forall q, In q (QfpRenderer.pins r') ->
                position_on_side q = (position (qfp_pin q) - 1) mod (40 / 4))
  /\ QfpRenderer.half_inner_width r' = (inject_Z 9 * 100 / 2)%Q
  /\ QfpRenderer.half_inner_height r' = (inject_Z 9 * 100 / 2)%Q.
Proof.
  intros r'.
  split; [reflexivity|].
  apply (accurate_slots_and_bounds default_geometry Unit.IO 40
           (qfp_renderer 40 ACCURATE) [io_pin 30 "PB2"; io_pin 21 "PB10"]).
  - lia.
  - reflexivity.
  - intros p [<-|[<-|[]]]; simpl; lia.
Defined.

(** C10. In every mode the slots that [position_pins_on_side] returns for
    the pins of one side, given in strictly increasing position, increase
    strictly; so no slot is shared and, the pin spacing not being zero, two
    pins of the side are never drawn at the same place. *)
Theorem qfp_slots_strictly_increasing (g : Geometry) (u n : Z) (m : QfpMode)
        (r : QfpRenderer.t) (k : Z) (ps : list Pin) :
  0 < n ->
  QfpRenderer.new g u n m = Ok r ->
  0 <= k < 4 ->
  StronglySorted Z.lt (map position ps) ->
  (forall p, In p ps -> k * (n / 4) + 1 <= position p <= (k + 1) * (n / 4)) ->
  let slots := QfpRenderer.position_pins_on_side r ps in
  StronglySorted Z.lt slots
  /\ NoDup slots
  /\ List.length slots = List.length ps
  /\ (~ (pin_spacing g == 0)%Q ->
      forall (r' : QfpRenderer.t) (s : Z) (i j : nat) (a b : Z) (p1 p2 : Pin)
             (pa pb : PinPosition),
        QfpRenderer.geometry r' = g ->
        i <> j ->
        nth_error slots i = Some a ->
        nth_error slots j = Some b ->
        QfpRenderer.get_position r'
          {| side := s; position_on_side := a; qfp_pin := p1 |} = Ok pa ->
        QfpRenderer.get_position r'
          {| side := s; position_on_side := b; qfp_pin := p2 |} = Ok pb ->
        ~ (x pa == x pb /\ y pa == y pb)%Q).
Proof.
  intros Hn Hnew Hk Hsorted Hrange slots.
  destruct (pins_per_side_pos g u n m r Hn Hnew) as [Hq Hq4].
  assert (Hs : StronglySorted Z.lt slots).
  { apply (position_pins_on_side_sorted r k); try lia; try assumption.
    now rewrite Hq4. }
  split; [exact Hs|].
  split; [now apply StronglySorted_lt_NoDup|].
  split; [apply position_pins_on_side_length|].
  intros Hspacing r' s i j a b p1 p2 pa pb Hg Hij Ha Hb Hpa Hpb.
  apply (get_position_distinct r' s a b p1 p2); try assumption.
  - now rewrite Hg.
  - assert (Hlt : (i < j)%nat \/ (j < i)%nat) by lia.
    destruct Hlt as [Hlt|Hlt].
    + pose proof (StronglySorted_lt_nth slots i j a b Hs Hlt Ha Hb). lia.
    + pose proof (StronglySorted_lt_nth slots j i b a Hs Hlt Hb Ha). lia.
Qed.

Lemma qfp_slots_strictly_increasing_witness :
  let slots := QfpRenderer.position_pins_on_side (qfp_renderer 40 COMPACT)
                 [io_pin 11 "PA10"; io_pin 12 "PA11"; io_pin 15 "PA14"] in
  slots = [1; 2; 4] /\ StronglySorted Z.lt slots /\ NoDup slots.
Proof.
  intros slots.
  split; [reflexivity|].
  assert (H := qfp_slots_strictly_increasing default_geometry Unit.IO 40 COMPACT
                 (qfp_renderer 40 COMPACT) 1
                 [io_pin 11 "PA10"; io_pin 12 "PA11"; io_pin 15 "PA14"]).
  cbv zeta in H.
  destruct H as (Hsorted & Hnodup & _).
  - lia.
  - reflexivity.
  - lia.
  - simpl. repeat constructor; lia.
  - intros p [<-|[<-|[<-|[]]]]; simpl; change (40 / 4) with 10; lia.
  - split; assumption.
Defined.

(** ** The single-row renderer *)

Lemma sip_set_pins_fields (ps : list Pin) (r0 : SipRenderer.t) :
  let r := SipRenderer.set_pins ps r0 in
  SipRenderer.pins r = sortBy name_label_le ps
  /\ SipRenderer.geometry r = SipRenderer.geometry r0
  /\ SipRenderer.unit r = SipRenderer.unit r0
  /\ SipRenderer.half_width r = (width_sip (SipRenderer.geometry r0) / 2)%Q
  /\ SipRenderer.half_inner_height r
     = ((inject_Z (Z.of_nat (List.length ps)) - 1)
        * pin_spacing (SipRenderer.geometry r0) / 2)%Q.
Proof.
  unfold SipRenderer.set_pins, SipRenderer.calc_geometry. simpl.
  rewrite sortBy_length. repeat split.
Qed.

Lemma inject_nat_succ (i : nat) :
  (inject_Z (Z.of_nat (S i)) == inject_Z (Z.of_nat i) + 1)%Q.
Proof. now rewrite Nat2Z.inj_succ, <- Z.add_1_r, inject_Z_plus. Qed.

Lemma inject_nat_nonneg (i : nat) : (0 <= inject_Z (Z.of_nat i))%Q.
Proof. change 0%Q with (inject_Z 0). rewrite <- Zle_Qle. lia. Qed.

(** C8. The single-row renderer pushes one pin line per pin, for the pins in
    (name, label) order; pin i is at x = half_width + pin_length,
    y = -half_inner_height + pin_spacing * i, with direction L, so that the
    y coordinates go up in steps of pin_spacing from their minimum
    -((N - 1) * pin_spacing / 2). *)
Theorem sip_pins_in_arithmetic_progression (r0 : SipRenderer.t) (ps : list Pin)
        (out : list Line) :
  ps <> [] ->
  (0 <= pin_spacing (SipRenderer.geometry r0))%Q ->
  let g := SipRenderer.geometry r0 in
  let r := SipRenderer.set_pins ps r0 in
  let N := List.length ps in
  let pos := SipRenderer.get_position r in
  exists lines,
    SipRenderer.render_pins r out = out ++ lines
    /\ List.length lines = N
    /\ (forall i, (i < N)%nat ->
          exists pin,
            nth_error (sortBy name_label_le ps) i = Some pin
            /\ nth_error lines i
               = Some (XLine (display_name pin) (position pin) (x (pos i))
                             (- y (pos i))%Q (pin_length g) "L"%char
                             (SipRenderer.unit r0) (elec_type pin))
            /\ (x (pos i) == SipRenderer.half_width r + pin_length g)%Q
            /\ (y (pos i) == - SipRenderer.half_inner_height r
                             + pin_spacing g * inject_Z (Z.of_nat i))%Q
            /\ dir (pos i) = "L"%char)
    /\ (forall i, (S i < N)%nat -> (y (pos (S i)) - y (pos i) == pin_spacing g)%Q)
    /\ (y (pos 0%nat)
        == - ((inject_Z (Z.of_nat N) - 1) * pin_spacing g / 2))%Q
    /\ (forall i, (i < N)%nat -> (y (pos 0%nat) <= y (pos i))%Q)
    /\ (0 < N)%nat
    /\ Sorted (fun p q => name_label_le p q = true) (sortBy name_label_le ps)
    /\ Permutation (sortBy name_label_le ps) ps.
Proof.
  intros Hne Hspacing g r N pos.
  destruct (sip_set_pins_fields ps r0) as (Hpins & Hg & Hu & Hw & Hh).
  fold r in Hpins, Hg, Hu, Hw, Hh. fold g in Hg, Hw, Hh. fold N in Hh.
  exists (mapi (SipRenderer.pin_line r) (SipRenderer.pins r)).
  split; [reflexivity|].
  split; [now rewrite mapi_length, Hpins, sortBy_length|].
  assert (Hy : forall i, (y (pos i) == - SipRenderer.half_inner_height r
                                       + pin_spacing g * inject_Z (Z.of_nat i))%Q).
  { intros i. subst pos. unfold SipRenderer.get_position. cbn [y].
    rewrite Hg. reflexivity. }
  split; [|split; [|split; [|split; [|split]]]].
  6: apply sortBy_name_label.
  - intros i Hi.
    destruct (nth_error (sortBy name_label_le ps) i) as [pin|] eqn:E.
    2:{ apply nth_error_None in E. rewrite sortBy_length in E. fold N in E. lia. }
    exists pin. split; [reflexivity|].
    split.
    { rewrite (mapi_nth_error _ _ i pin) by now rewrite Hpins.
      unfold SipRenderer.pin_line. fold (pos i). rewrite Hg, Hu. reflexivity. }
    split; [|split; [apply Hy | reflexivity]].
    subst pos. unfold SipRenderer.get_position. cbn [x]. rewrite Hg. reflexivity.
  - intros i _. rewrite !Hy, inject_nat_succ. ring.
  - rewrite Hy, Hh. simpl. field.
  - intros i _. rewrite !Hy.
    apply Qplus_le_r.
    apply Qmult_le_compat_nonneg.
    + split; [exact Hspacing | apply Qle_refl].
    + split; [apply Qle_refl | apply inject_nat_nonneg].
  - subst N. destruct ps; [contradiction | simpl; lia].
Qed.

Lemma sip_pins_in_arithmetic_progression_witness :
  let r := SipRenderer.set_pins
             [io_pin 3 "PC0"; io_pin 1 "PB0"; io_pin 2 "PA0"]
             (SipRenderer.new default_geometry Unit.CONFIG) in
  exists lines,
    SipRenderer.render_pins r [] = lines
    /\ List.length lines = 3%nat
    /\ (y (SipRenderer.get_position r 0)
        == - ((inject_Z 3 - 1) * 100 / 2))%Q.
Proof.
  intros r.
  destruct (sip_pins_in_arithmetic_progression
              (SipRenderer.new default_geometry Unit.CONFIG)
              [io_pin 3 "PC0"; io_pin 1 "PB0"; io_pin 2 "PA0"] [])
    as (lines & Hout & Hlen & _ & _ & Hmin & _).
  - discriminate.
  - unfold Qle. simpl. lia.
  - exists lines. split; [exact Hout|]. split; [exact Hlen | exact Hmin].
Defined.

(** ** The dual-row renderer *)

Lemma dip_set_pins_fields (ps : list Pin) (r0 : DipRenderer.t) :
  let r := DipRenderer.set_pins ps r0 in
  DipRenderer.pins r = sortBy name_label_le ps
  /\ DipRenderer.geometry r = DipRenderer.geometry r0
  /\ DipRenderer.unit r = DipRenderer.unit r0
  /\ DipRenderer.half_width r = (width_dip (DipRenderer.geometry r0) / 2)%Q
  /\ DipRenderer.half_count r = (inject_Z (Z.of_nat (List.length ps)) / 2)%Q.
Proof.
  unfold DipRenderer.set_pins, DipRenderer.calc_geometry, DipRenderer.half_count.
  simpl. rewrite sortBy_length. repeat split.
Qed.

Lemma Qfloor_0_or_1 (q : Q) : (0 <= q)%Q -> (q < 2)%Q -> Qfloor q = 0 \/ Qfloor q = 1.
Proof.
  intros H0 H2.
  assert (Hlo : (inject_Z 0 < inject_Z (Qfloor q + 1))%Q).
  { eapply Qle_lt_trans; [exact H0 | apply Qlt_floor]. }
  assert (Hhi : (inject_Z (Qfloor q) < inject_Z 2)%Q).
  { eapply Qle_lt_trans; [apply Qfloor_le | exact H2]. }
  rewrite <- Zlt_Qlt in Hlo, Hhi. lia.
Qed.

Lemma dip_side_0_or_1 (r : DipRenderer.t) (index : nat) :
  (index < List.length (DipRenderer.pins r))%nat ->
  DipRenderer.side_of r index = 0 \/ DipRenderer.side_of r index = 1.
Proof.
  intros Hi. unfold DipRenderer.side_of, DipRenderer.half_count.
  set (N := List.length (DipRenderer.pins r)) in *.
  assert (HN : (0 < inject_Z (Z.of_nat N) / 2)%Q).
  { apply Qlt_shift_div_l; [reflexivity|].
    rewrite Qmult_0_l. change 0%Q with (inject_Z 0). rewrite <- Zlt_Qlt. lia. }
  apply Qfloor_0_or_1.
  - apply Qle_shift_div_l; [exact HN|].
    rewrite Qmult_0_l. apply inject_nat_nonneg.
  - apply Qlt_shift_div_r; [exact HN|].
    setoid_replace (2 * (inject_Z (Z.of_nat N) / 2))%Q
      with (inject_Z (Z.of_nat N)) by field.
    rewrite <- Zlt_Qlt. lia.
Qed.

(** The position of a pin that [render_pins] draws is defined. *)
Lemma DipRenderer_get_position_defined (r : DipRenderer.t) (index : nat) :
  (index < List.length (DipRenderer.pins r))%nat ->
  DipRenderer.get_position r index
  = Some {| x := ((if DipRenderer.side_of r index =? 0 then -1 else 1)
                  * (DipRenderer.half_width r
                     + pin_length (DipRenderer.geometry r)))%Q;
            y := (- DipRenderer.half_inner_height r
                  + pin_spacing (DipRenderer.geometry r)
                    * DipRenderer.side_index_of r index)%Q;
            dir := if DipRenderer.side_of r index =? 0 then "R"%char
                   else "L"%char |}.
Proof.
  intros Hi. unfold DipRenderer.get_position.
  destruct (dip_side_0_or_1 r index Hi) as [-> | ->]; reflexivity.
Qed.

Lemma push_all_ok (lines : list Line) (out : list Line) :
  push_all (map Ok lines) out = Ok (out ++ lines).
Proof.
  revert out. induction lines as [|l lines IH]; intros out; simpl.
  - now rewrite app_nil_r.
  - rewrite IH, <- app_assoc. reflexivity.
Qed.

Lemma push_all_inv (rs : list (result Line)) (out out' : list Line) :
  push_all rs out = Ok out' ->
  exists lines, rs = map Ok lines /\ out' = out ++ lines.
Proof.
  revert out. induction rs as [|[l|msg] rs IH]; intros out H; simpl in H.
  - inversion H; subst. exists []. now rewrite app_nil_r.
  - apply IH in H. destruct H as [lines [-> ->]].
    exists (l :: lines). now rewrite <- app_assoc.
  - discriminate.
Qed.

Lemma push_all_mapi_ok {A : Type} (f : A -> nat -> result Line)
      (g : A -> nat -> Line) (xs : list A) (out : list Line) :
  (forall a i, nth_error xs i = Some a -> f a i = Ok (g a i)) ->
  push_all (mapi f xs) out = Ok (out ++ mapi g xs).
Proof.
  intros H. rewrite <- push_all_ok. f_equal.
  apply nth_error_ext. intros i.
  rewrite nth_error_map.
  destruct (nth_error xs i) as [a|] eqn:E.
  - rewrite (mapi_nth_error f xs i a E), (mapi_nth_error g xs i a E).
    simpl. now rewrite H.
  - apply nth_error_None in E.
    rewrite (proj2 (nth_error_None (mapi f xs) i)) by now rewrite mapi_length.
    rewrite (proj2 (nth_error_None (mapi g xs) i)) by now rewrite mapi_length.
    reflexivity.
Qed.

(** With an even number of pins, the side and the index on the side are the
    integer quotient and remainder of the index by half the count. *)
Lemma dip_even_count (r : DipRenderer.t) (h index : nat) :
  List.length (DipRenderer.pins r) = (2 * h)%nat -> (0 < h)%nat ->
  DipRenderer.side_of r index = Z.of_nat (index / h)
  /\ (DipRenderer.side_index_of r index == inject_Z (Z.of_nat (index mod h)))%Q.
Proof.
  intros HN Hh.
  assert (Hc : (DipRenderer.half_count r == inject_Z (Z.of_nat h))%Q).
  { unfold DipRenderer.half_count. rewrite HN, Nat2Z.inj_mul, inject_Z_mult.
    simpl (Z.of_nat 2). field. }
  assert (Hfloor : Qfloor (inject_Z (Z.of_nat index) / DipRenderer.half_count r)
                   = Z.of_nat (index / h)).
  { rewrite Hc, <- Zdiv_Qdiv. symmetry. apply Nat2Z.inj_div. }
  split; [exact Hfloor|].
  unfold DipRenderer.side_index_of, Qrem, Qtrunc.
  assert (Hq : (0 <= inject_Z (Z.of_nat index) / DipRenderer.half_count r)%Q).
  { rewrite Hc. apply Qle_shift_div_l.
    - change 0%Q with (inject_Z 0). rewrite <- Zlt_Qlt. lia.
    - rewrite Qmult_0_l. apply inject_nat_nonneg. }
  apply Qle_bool_iff in Hq. rewrite Hq, Hfloor, Hc.
  unfold Qminus.
  rewrite <- inject_Z_mult, <- inject_Z_opp, <- inject_Z_plus.
  rewrite Nat2Z.inj_mod, Z.mod_eq by lia.
  rewrite Nat2Z.inj_div. reflexivity.
Qed.

(** C4, as the code has it. After the (name, label) sort, pin index i is on
    side floor(i / (count / 2)), which is 0 or 1, with side-local index
    i mod (count / 2); side 0 is drawn at x = -(half_width + pin_length), the
    left edge, with direction R, and side 1 at x = +(half_width + pin_length),
    the right edge, with direction L; on both sides
    y = -half_inner_height + pin_spacing * side_local_index. *)
Theorem dip_pin_placement (r0 : DipRenderer.t) (ps : list Pin) (i : nat)
        (out : list Line) :
  (i < List.length ps)%nat ->
  let g := DipRenderer.geometry r0 in
  let r := DipRenderer.set_pins ps r0 in
  let half := (inject_Z (Z.of_nat (List.length ps)) / 2)%Q in
  let side := Qfloor (inject_Z (Z.of_nat i) / half) in
  let side_index := Qrem (inject_Z (Z.of_nat i)) half in
  (side = 0 \/ side = 1)
  /\ (exists pos pin lines,
        DipRenderer.get_position r i = Some pos
        /\ (x pos == (if side =? 0 then -1 else 1)
                     * (DipRenderer.half_width r + pin_length g))%Q
        /\ dir pos = (if side =? 0 then "R"%char else "L"%char)
        /\ (y pos == - DipRenderer.half_inner_height r
                     + pin_spacing g * side_index)%Q
        /\ nth_error (sortBy name_label_le ps) i = Some pin
        /\ DipRenderer.render_pins r out = Ok (out ++ lines)
        /\ List.length lines = List.length ps
        /\ nth_error lines i
           = Some (XLine (display_name pin) (position pin) (x pos)
                         (- y pos)%Q (pin_length g) (dir pos)
                         (DipRenderer.unit r0) (elec_type pin)))
  /\ (forall h, List.length ps = (2 * h)%nat ->
                side = Z.of_nat (i / h)
                /\ (side_index == inject_Z (Z.of_nat (i mod h)))%Q).
Proof.
  intros Hi g r half side side_index.
  destruct (dip_set_pins_fields ps r0) as (Hpins & Hg & Hu & Hw & Hc).
  fold r in Hpins, Hg, Hu, Hw, Hc. fold g in Hg, Hw.
  assert (Hlen : List.length (DipRenderer.pins r) = List.length ps)
    by now rewrite Hpins, sortBy_length.
  assert (Hside : DipRenderer.side_of r i = side)
    by (unfold DipRenderer.side_of; now rewrite Hc).
  assert (Hsi : DipRenderer.side_index_of r i = side_index)
    by (unfold DipRenderer.side_index_of; now rewrite Hc).
  assert (Hi' : (i < List.length (DipRenderer.pins r))%nat) by lia.
  split; [rewrite <- Hside; now apply dip_side_0_or_1|].
  split.
  - pose proof (DipRenderer_get_position_defined r i Hi') as Hpos.
    rewrite Hside, Hsi, Hg in Hpos.
    destruct (nth_error (sortBy name_label_le ps) i) as [pin|] eqn:E.
    2:{ apply nth_error_None in E. rewrite sortBy_length in E. lia. }
    set (line := fun (p : Pin) (j : nat) =>
                   match DipRenderer.get_position r j with
                   | Some pos =>
                       XLine (display_name p) (position p) (x pos) (- y pos)%Q
                             (pin_length g) (dir pos) (DipRenderer.unit r0)
                             (elec_type p)
                   | None => EmptyLine
                   end).
    eexists; exists pin, (mapi line (DipRenderer.pins r)).
    split; [exact Hpos|]. cbn [x y dir].
    split; [reflexivity|]. split; [reflexivity|]. split; [reflexivity|].
    split; [reflexivity|].
    split; [|split].
    + unfold DipRenderer.render_pins. apply push_all_mapi_ok.
      intros p j Hj. unfold DipRenderer.pin_line, line.
      assert (Hj' : (j < List.length (DipRenderer.pins r))%nat)
        by (apply nth_error_Some; congruence).
      rewrite (DipRenderer_get_position_defined r j Hj'), Hg, Hu. reflexivity.
    + now rewrite mapi_length.
    + rewrite (mapi_nth_error line _ i pin) by now rewrite Hpins.
      unfold line. rewrite Hpos. reflexivity.
  - intros h Hh.
    assert (Hh0 : (0 < h)%nat) by lia.
    rewrite <- Hside, <- Hsi. apply dip_even_count; [lia | exact Hh0].
Qed.

Lemma dip_pin_placement_witness :
  exists pos,
    DipRenderer.get_position dip_four 0 = Some pos
    /\ (x pos == - (DipRenderer.half_width dip_four + 200))%Q
    /\ dir pos = "R"%char.
Proof.
  destruct (dip_pin_placement
              (DipRenderer.new default_geometry Unit.UNASSIGNED)
              [io_pin 1 "PA0"; io_pin 2 "PA1"; io_pin 3 "PA2"; io_pin 4 "PA3"]
              0 [])
    as (_ & (pos & pin & lines & Hpos & Hx & Hdir & _) & _).
  - simpl. lia.
  - exists pos. split; [exact Hpos|]. split.
    + rewrite Hx. vm_compute. reflexivity.
    + rewrite Hdir. reflexivity.
Defined.

(** C4, counterexample. With four pins, pin 0 is on side 0 and is not drawn
    on the right edge: its x is -(half_width + pin_length) = -1000. *)
Lemma dip_side_0_is_not_on_the_right_edge :
  ~ (forall (i : nat) (pos : PinPosition),
        (i < 4)%nat ->
        DipRenderer.get_position dip_four i = Some pos ->
        (DipRenderer.side_of dip_four i = 0 ->
         (x pos == DipRenderer.half_width dip_four + 200)%Q
         /\ dir pos = "R"%char)
        /\ (DipRenderer.side_of dip_four i = 1 ->
            (x pos == - (DipRenderer.half_width dip_four + 200))%Q
            /\ dir pos = "L"%char)).
Proof.
  intros H.
  destruct (H 0%nat
              {| x := (-1 * (DipRenderer.half_width dip_four + 200))%Q;
                 y := (- DipRenderer.half_inner_height dip_four
                       + 100 * DipRenderer.side_index_of dip_four 0)%Q;
                 dir := "R"%char |})
    as [H0 _]; [lia | reflexivity |].
  destruct (H0 eq_refl) as [Hx _].
  vm_compute in Hx. discriminate.
Qed.

(** ** The store *)

Lemma set_nth_length {A : Type} (i : nat) (v : A) (l : list A) :
  List.length (set_nth i v l) = List.length l.
Proof.
  revert i. induction l as [|a l IH]; intros [|i]; simpl; auto.
Qed.

Lemma set_nth_same {A : Type} (i : nat) (v : A) (l : list A) :
  (i < List.length l)%nat -> nth_error (set_nth i v l) i = Some v.
Proof.
  revert i. induction l as [|a l IH]; intros [|i] H; simpl in *; try lia; auto.
  apply IH. lia.
Qed.

Lemma set_nth_other {A : Type} (i j : nat) (v : A) (l : list A) :
  j <> i -> nth_error (set_nth i v l) j = nth_error l j.
Proof.
  revert i j. induction l as [|a l IH]; intros [|i] [|j] H; simpl; auto.
  congruence.
Qed.

Lemma get_pin_update_same (i : pin_ref) (f : Pin -> Pin) (st : Store) :
  get_pin (update_pin i f st) i = option_map f (get_pin st i).
Proof.
  unfold update_pin.
  destruct (get_pin st i) as [p|] eqn:E; simpl; [|exact E].
  unfold get_pin in *. simpl.
  apply set_nth_same. apply nth_error_Some. congruence.
Qed.

Lemma get_pin_update_other (i j : pin_ref) (f : Pin -> Pin) (st : Store) :
  j <> i -> get_pin (update_pin i f st) j = get_pin st j.
Proof.
  intros H. unfold update_pin.
  destruct (get_pin st i) as [p|] eqn:E; [|reflexivity].
  unfold get_pin. simpl. now apply set_nth_other.
Qed.

Lemma block_at_update (i : pin_ref) (f : Pin -> Pin) (st : Store) :
  block_at (update_pin i f st) = block_at st.
Proof. unfold update_pin. now destruct (get_pin st i). Qed.

Lemma pin_count_update (i : pin_ref) (f : Pin -> Pin) (st : Store) :
  List.length (CubeFile.pins (cubefile (update_pin i f st)))
  = List.length (CubeFile.pins (cubefile st)).
Proof.
  unfold update_pin. destruct (get_pin st i); [|reflexivity].
  simpl. apply set_nth_length.
Qed.

Lemma file_update (i : pin_ref) (f : Pin -> Pin) (st : Store) :
  CubeFile.name (cubefile (update_pin i f st)) = CubeFile.name (cubefile st)
  /\ CubeFile.package (cubefile (update_pin i f st))
     = CubeFile.package (cubefile st).
Proof. unfold update_pin. now destruct (get_pin st i). Qed.

Lemma get_pin_add (b : block_ref) (i j : pin_ref) (st : Store) :
  get_pin (Block_add b i st) j
  = if Nat.eqb j i then option_map (with_block (Some b)) (get_pin st i)
    else get_pin st j.
Proof.
  unfold Block_add.
  change (get_pin (set_block b ?blk ?s) j) with (get_pin s j).
  destruct (Nat.eqb j i) eqn:E.
  - apply Nat.eqb_eq in E. subst j. apply get_pin_update_same.
  - apply Nat.eqb_neq in E. now apply get_pin_update_other.
Qed.

Lemma block_at_add (b b' : block_ref) (i : pin_ref) (st : Store) :
  block_at (Block_add b i st) b'
  = if Nat.eqb b' b then
      {| Block.renderer := Block.renderer (block_at st b);
         Block.pins := Block.pins (block_at st b) ++ [i] |}
    else block_at st b'.
Proof.
  unfold Block_add. simpl. now rewrite block_at_update.
Qed.

Lemma file_add (b : block_ref) (i : pin_ref) (st : Store) :
  List.length (CubeFile.pins (cubefile (Block_add b i st)))
  = List.length (CubeFile.pins (cubefile st))
  /\ CubeFile.name (cubefile (Block_add b i st)) = CubeFile.name (cubefile st)
  /\ CubeFile.package (cubefile (Block_add b i st))
     = CubeFile.package (cubefile st).
Proof.
  unfold Block_add. simpl.
  split; [apply pin_count_update | apply file_update].
Qed.

(** ** Classification *)

(** The branch that the loop body takes is the first rule that applies. *)
Lemma classify_spec (options : Options) (blocks : Blocks) (i : pin_ref)
      (st : Store) (p : Pin) :
  get_pin st i = Some p ->
  classify options blocks i st
  = let st1 := update_pin i (with_display_name (shown_name p)) st in
    match spec_outcome blocks (spec_rule options p) with
    | Some (e, b) => Block_add b i (update_pin i (with_elec_type e) st1)
    | None => st1
    end.
Proof.
  intros H. unfold classify. rewrite H.
  unfold spec_rule, shown_name. cbn [find rule_applies].
  destruct (separate_power options && String.eqb (config_type p) "Power");
    [reflexivity|].
  destruct (separate_config options && negb (String.eqb (config_type p) "I/O"));
    [reflexivity|].
  destruct (assigned p
            || negb (separate_unassigned options)
               && negb (drop_unassigned options));
    [reflexivity|].
  destruct (separate_unassigned options && negb (drop_unassigned options));
    reflexivity.
Qed.

Lemma classify_get_pin (options : Options) (blocks : Blocks) (i j : pin_ref)
      (st : Store) (p : Pin) :
  get_pin st i = Some p ->
  get_pin (classify options blocks i st) j
  = if Nat.eqb j i then Some (classified options blocks p) else get_pin st j.
Proof.
  intros H. rewrite (classify_spec _ _ _ _ _ H). cbv zeta.
  unfold classified.
  destruct (spec_outcome blocks (spec_rule options p)) as [[e b]|].
  - rewrite get_pin_add.
    destruct (Nat.eqb j i) eqn:E.
    + now rewrite !get_pin_update_same, H.
    + apply Nat.eqb_neq in E. now rewrite !get_pin_update_other.
  - destruct (Nat.eqb j i) eqn:E.
    + apply Nat.eqb_eq in E. subst j. now rewrite get_pin_update_same, H.
    + apply Nat.eqb_neq in E. now rewrite get_pin_update_other.
Qed.

Lemma classify_block_at (options : Options) (blocks : Blocks) (i : pin_ref)
      (st : Store) (p : Pin) (b : block_ref) :
  get_pin st i = Some p ->
  block_at (classify options blocks i st) b
  = if assigned_to options blocks b p then
      {| Block.renderer := Block.renderer (block_at st b);
         Block.pins := Block.pins (block_at st b) ++ [i] |}
    else block_at st b.
Proof.
  intros H. rewrite (classify_spec _ _ _ _ _ H). cbv zeta.
  unfold assigned_to.
  destruct (spec_outcome blocks (spec_rule options p)) as [[e b']|].
  - rewrite block_at_add, !block_at_update.
    rewrite (Nat.eqb_sym b' b).
    destruct (Nat.eqb b b') eqn:E; [|reflexivity].
    apply Nat.eqb_eq in E. now subst b'.
  - now rewrite block_at_update.
Qed.

Lemma classify_file (options : Options) (blocks : Blocks) (i : pin_ref)
      (st : Store) :
  List.length (CubeFile.pins (cubefile (classify options blocks i st)))
  = List.length (CubeFile.pins (cubefile st))
  /\ CubeFile.name (cubefile (classify options blocks i st))
     = CubeFile.name (cubefile st)
  /\ CubeFile.package (cubefile (classify options blocks i st))
     = CubeFile.package (cubefile st).
Proof.
  destruct (get_pin st i) as [p|] eqn:H.
  - rewrite (classify_spec _ _ _ _ _ H). cbv zeta.
    destruct (spec_outcome blocks (spec_rule options p)) as [[e b]|].
    + destruct (file_add b i
                  (update_pin i (with_elec_type e)
                     (update_pin i (with_display_name (shown_name p)) st)))
        as (-> & -> & ->).
      rewrite !pin_count_update.
      destruct (file_update i (with_elec_type e)
                  (update_pin i (with_display_name (shown_name p)) st))
        as (-> & ->).
      destruct (file_update i (with_display_name (shown_name p)) st)
        as (-> & ->).
      auto.
    + rewrite pin_count_update.
      destruct (file_update i (with_display_name (shown_name p)) st)
        as (-> & ->).
      auto.
  - unfold classify. rewrite H. auto.
Qed.

(** The state of the store after the first [k] turns of the loop. *)
Lemma classify_prefix (options : Options) (blocks : Blocks) (st : Store) (k : nat) :
  (k <= List.length (CubeFile.pins (cubefile st)))%nat ->
  let st' := fold_left (fun st pin => classify options blocks pin st)
                       (seq 0 k) st in
  List.length (CubeFile.pins (cubefile st'))
  = List.length (CubeFile.pins (cubefile st))
  /\ CubeFile.name (cubefile st') = CubeFile.name (cubefile st)
  /\ CubeFile.package (cubefile st') = CubeFile.package (cubefile st)
  /\ (forall j,
         get_pin st' j
         = if (j <? k)%nat then option_map (classified options blocks) (get_pin st j)
           else get_pin st j)
  /\ (forall b,
         Block.renderer (block_at st' b) = Block.renderer (block_at st b)
         /\ Block.pins (block_at st' b)
            = Block.pins (block_at st b)
              ++ filter (ref_assigned_to options blocks st b) (seq 0 k)).
Proof.
  induction k as [|k IH]; intros Hk st'.
  - subst st'. simpl. repeat split; auto. now rewrite app_nil_r.
  - subst st'. rewrite seq_S, fold_left_app. cbn [fold_left Nat.add].
    specialize (IH ltac:(lia)). cbv zeta in IH.
    set (stk := fold_left (fun st pin => classify options blocks pin st)
                          (seq 0 k) st) in *.
    destruct IH as (Hlen & Hname & Hpkg & Hpins & Hblocks).
    destruct (get_pin st k) as [p|] eqn:Hp.
    2:{ apply nth_error_None in Hp. lia. }
    assert (Hpk : get_pin stk k = Some p).
    { rewrite Hpins, Nat.ltb_irrefl. exact Hp. }
    change (fold_left (fun st pin => classify options blocks pin st)
                      (seq 0 k) st) with stk.
    destruct (classify_file options blocks k stk) as (-> & -> & ->).
    split; [exact Hlen|]. split; [exact Hname|]. split; [exact Hpkg|].
    split.
    + intros j. rewrite (classify_get_pin _ _ _ _ _ _ Hpk), Hpins.
      destruct (Nat.eqb j k) eqn:E.
      * apply Nat.eqb_eq in E. subst j.
        rewrite (proj2 (Nat.ltb_lt k (S k))) by lia. now rewrite Hp.
      * apply Nat.eqb_neq in E.
        destruct (j <? k)%nat eqn:E1.
        -- apply Nat.ltb_lt in E1.
           now rewrite (proj2 (Nat.ltb_lt j (S k))) by lia.
        -- apply Nat.ltb_ge in E1.
           now rewrite (proj2 (Nat.ltb_ge j (S k))) by lia.
    + intros b. rewrite (classify_block_at _ _ _ _ _ _ Hpk).
      destruct (Hblocks b) as [Hr Hp'].
      rewrite filter_app. cbn [filter].
      unfold ref_assigned_to at 2. rewrite Hp.
      destruct (assigned_to options blocks b p); cbn [Block.renderer Block.pins].
      * split; [exact Hr|]. now rewrite Hp', app_assoc.
      * split; [exact Hr|]. now rewrite Hp', app_nil_r.
Qed.

Lemma flat_map_ext_members {A B : Type} (f g : A -> list B) (l : list A) :
  (forall a, In a l -> f a = g a) -> flat_map f l = flat_map g l.
Proof.
  induction l as [|a l IH]; intros H; simpl; [reflexivity|].
  rewrite (H a (or_introl eq_refl)), IH; [reflexivity|].
  intros b Hb. apply H. now right.
Qed.

Lemma nth_error_filter_map {A B : Type} (f : A -> B) (P : A -> bool) (l : list A) :
  flat_map (fun i => match nth_error (map f l) i with
                     | Some b => [b]
                     | None => []
                     end)
           (filter (fun i => match nth_error l i with
                             | Some a => P a
                             | None => false
                             end)
                   (seq 0 (List.length l)))
  = map f (filter P l).
Proof.
  induction l as [|a l IH] using rev_ind; [reflexivity|].
  rewrite length_app, Nat.add_1_r, seq_S, !filter_app, flat_map_app, !map_app.
  cbn [Nat.add filter].
  rewrite nth_error_app2, Nat.sub_diag by lia. cbn [nth_error].
  f_equal.
  - rewrite <- IH.
    rewrite (filter_ext_in
               (fun i => match nth_error (l ++ [a]) i with
                         | Some a0 => P a0
                         | None => false
                         end)
               (fun i => match nth_error l i with
                         | Some a0 => P a0
                         | None => false
                         end)).
    + apply flat_map_ext_members. intros i Hi. apply filter_In in Hi.
      destruct Hi as [Hi _]. apply in_seq in Hi.
      rewrite nth_error_app1 by (rewrite length_map; lia).
      reflexivity.
    + intros i Hi. apply in_seq in Hi. now rewrite nth_error_app1 by lia.
  - destruct (P a); cbn [flat_map map]; [|reflexivity].
    rewrite nth_error_app2 by (rewrite length_map; lia).
    rewrite length_map, Nat.sub_diag. reflexivity.
Qed.

(** The store once every pin of the file has been through the loop. *)
Lemma classify_all_spec (options : Options) (blocks : Blocks) (st : Store) :
  let st' := classify_all options blocks st in
  CubeFile.pins (cubefile st')
  = map (classified options blocks) (CubeFile.pins (cubefile st))
  /\ CubeFile.name (cubefile st') = CubeFile.name (cubefile st)
  /\ CubeFile.package (cubefile st') = CubeFile.package (cubefile st)
  /\ (forall b,
         Block.renderer (block_at st' b) = Block.renderer (block_at st b)
         /\ Block.pins (block_at st' b)
            = Block.pins (block_at st b)
              ++ filter (ref_assigned_to options blocks st b)
                        (seq 0 (List.length (CubeFile.pins (cubefile st))))).
Proof.
  intros st'.
  destruct (classify_prefix options blocks st
              (List.length (CubeFile.pins (cubefile st))) (le_n _))
    as (Hlen & Hname & Hpkg & Hpins & Hblocks).
  fold (classify_all options blocks st) in Hlen, Hname, Hpkg, Hpins, Hblocks.
  fold st' in Hlen, Hname, Hpkg, Hpins, Hblocks.
  split; [|auto].
  apply nth_error_ext. intros j.
  fold (get_pin st' j). rewrite Hpins, nth_error_map. fold (get_pin st j).
  destruct (j <? List.length (CubeFile.pins (cubefile st)))%nat eqn:E;
    [reflexivity|].
  apply Nat.ltb_ge in E. apply nth_error_None in E.
  unfold get_pin. now rewrite E.
Qed.

Lemma filter_all {A : Type} (f : A -> bool) (l : list A) :
  (forall a, In a l -> f a = true) -> filter f l = l.
Proof.
  induction l as [|a l IH]; intros H; simpl; [reflexivity|].
  rewrite (H a (or_introl eq_refl)), IH; [reflexivity|].
  intros b Hb. apply H. now right.
Qed.

Lemma classified_owned (options : Options) (blocks : Blocks) (b : block_ref)
      (p : Pin) :
  assigned_to options blocks b p = true ->
  owned_by b (classified options blocks p) = true.
Proof.
  unfold assigned_to, classified, owned_by.
  now destruct (spec_outcome blocks (spec_rule options p)) as [[e b']|].
Qed.

(** The pins that a block created empty hands to its renderer: the pins of
    the file that are assigned to it, classified, in the order of the
    file. *)
Lemma pins_rendered_by (options : Options) (blocks : Blocks) (st : Store)
      (b : block_ref) :
  Block.pins (block_at st b) = [] ->
  let st' := classify_all options blocks st in
  filter (owned_by b) (deref st' (Block.pins (block_at st' b)))
  = map (classified options blocks)
        (filter (assigned_to options blocks b) (CubeFile.pins (cubefile st))).
Proof.
  intros Hfresh st'.
  destruct (classify_all_spec options blocks st) as (Hpins & _ & _ & Hblocks).
  fold st' in Hpins, Hblocks.
  destruct (Hblocks b) as [_ Hb]. rewrite Hb, Hfresh. cbn [app].
  unfold deref, get_pin. rewrite Hpins.
  unfold ref_assigned_to, get_pin.
  rewrite (nth_error_filter_map (classified options blocks)
             (assigned_to options blocks b)).
  apply filter_all. intros p Hp.
  apply in_map_iff in Hp. destruct Hp as [p0 [<- Hp0]].
  apply filter_In in Hp0. now apply classified_owned.
Qed.

(** ** Rendering *)

Lemma unit_of_set_pins (ps : list Pin) (r : Renderer) :
  unit_of (set_pins ps r) = unit_of r.
Proof. now destruct r. Qed.

Lemma render_block_line (r : Renderer) (out : list Line) :
  exists hw hh, render_block r out = out ++ [SLine hw hh (unit_of r)].
Proof. destruct r as [s|d|q]; simpl; eexists; eexists; reflexivity. Qed.

Lemma forallb_mapi {A B : Type} (f : A -> nat -> B) (P : B -> bool) (xs : list A) :
  (forall a i, P (f a i) = true) -> forallb P (mapi f xs) = true.
Proof.
  intros H. apply forallb_forall. intros b Hb.
  apply mapi_In in Hb. destruct Hb as [a [i [_ ->]]]. apply H.
Qed.

(** [render_pins] pushes one pin line per pin that [set_pins] received. *)
Lemma render_pins_lines (ps : list Pin) (r : Renderer) (out out' : list Line) :
  render_pins (set_pins ps r) out = Ok out' ->
  exists xs,
    out' = out ++ xs
    /\ List.length xs = List.length ps
    /\ forallb is_XLine xs = true.
Proof.
  destruct r as [s|d|q]; simpl; intros H.
  - inversion H; subst. eexists. split; [reflexivity|].
    split.
    + rewrite mapi_length.
      destruct (sip_set_pins_fields ps s) as [-> _]. apply sortBy_length.
    + now apply forallb_mapi.
  - unfold DipRenderer.render_pins in H.
    apply push_all_inv in H. destruct H as [xs [Hxs ->]].
    exists xs. split; [reflexivity|].
    split.
    + rewrite <- (length_map Ok xs), <- Hxs, mapi_length.
      destruct (dip_set_pins_fields ps d) as [-> _]. apply sortBy_length.
    + apply forallb_forall. intros l Hl.
      apply (in_map Ok) in Hl. rewrite <- Hxs in Hl.
      apply mapi_In in Hl. destruct Hl as [p [i [_ Hl]]].
      unfold DipRenderer.pin_line in Hl.
      destruct (DipRenderer.get_position _ i); inversion Hl. reflexivity.
  - unfold QfpRenderer.render_pins in H.
    apply push_all_inv in H. destruct H as [xs [Hxs ->]].
    exists xs. split; [reflexivity|].
    split.
    + rewrite <- (length_map Ok xs), <- Hxs, length_map. apply set_pins_count.
    + apply forallb_forall. intros l Hl.
      apply (in_map Ok) in Hl. rewrite <- Hxs in Hl.
      apply in_map_iff in Hl. destruct Hl as [p [Hl _]].
      unfold QfpRenderer.pin_line in Hl.
      destruct (QfpRenderer.get_position _ p); inversion Hl. reflexivity.
Qed.

Lemma Block_render_spec (b : block_ref) (out out' : list Line) (st st' : Store) :
  Block_render b out st = Ok (out', st') ->
  (exists lines, out' = out ++ lines /\ block_lines st b lines)
  /\ cubefile st' = cubefile st
  /\ Block.pins (block_at st' b) = Block.pins (block_at st b)
  /\ unit_of (Block.renderer (block_at st' b))
     = unit_of (Block.renderer (block_at st b))
  /\ (forall b', b' <> b -> block_at st' b' = block_at st b').
Proof.
  unfold Block_render. fold (render_input st b).
  set (renderer := set_pins (render_input st b) (Block.renderer (block_at st b))).
  destruct (render_block_line renderer out) as (hw & hh & Hblock).
  rewrite Hblock.
  destruct (render_pins renderer (out ++ [SLine hw hh (unit_of renderer)]))
    as [out1|msg] eqn:Hpins; simpl; [|discriminate].
  intros H. inversion H; subst out' st'. clear H.
  apply render_pins_lines in Hpins. destruct Hpins as (xs & -> & Hlen & Hx).
  split; [|split; [|split; [|split]]].
  - exists (SLine hw hh (unit_of renderer) :: xs).
    split; [now rewrite <- app_assoc|].
    exists hw, hh, xs. subst renderer. rewrite unit_of_set_pins. auto.
  - reflexivity.
  - simpl. now rewrite Nat.eqb_refl.
  - simpl. rewrite Nat.eqb_refl. simpl. apply unit_of_set_pins.
  - intros b' Hb'. simpl. apply Nat.eqb_neq in Hb'. now rewrite Hb'.
Qed.

Lemma block_lines_frame (st st' : Store) (b : block_ref) (lines : list Line) :
  cubefile st' = cubefile st -> block_at st' b = block_at st b ->
  block_lines st' b lines -> block_lines st b lines.
Proof.
  unfold block_lines, render_input, deref, get_pin.
  intros -> ->. auto.
Qed.

(** The blocks are rendered one after the other, each exactly once. *)
Lemma render_blocks_spec (order : list block_ref) (out out' : list Line)
      (st st' : Store) :
  NoDup order ->
  render_blocks order out st = Ok (out', st') ->
  cubefile st' = cubefile st
  /\ (forall b, ~ In b order -> block_at st' b = block_at st b)
  /\ exists bodies,
       out' = out ++ List.concat bodies
       /\ Forall2 (block_lines st) order bodies.
Proof.
  revert out st.
  induction order as [|b order IH]; intros out st Hnd H; simpl in H.
  - inversion H; subst. split; [reflexivity|]. split; [reflexivity|].
    exists []. split; [now rewrite app_nil_r | constructor].
  - destruct (Block_render b out st) as [[out1 st1]|msg] eqn:Hb;
      simpl in H; [|discriminate].
    inversion Hnd as [|? ? Hnotin Hnd']; subst.
    apply Block_render_spec in Hb.
    destruct Hb as ((lines & -> & Hlines) & Hfile & _ & _ & Hframe).
    apply IH in H; [|exact Hnd'].
    destruct H as (Hfile' & Hframe' & bodies & -> & Hbodies).
    split; [congruence|].
    split.
    + intros b' Hb'. simpl in Hb'.
      rewrite Hframe' by tauto. apply Hframe. intros ->. tauto.
    + exists (lines :: bodies). split; [simpl; now rewrite app_assoc|].
      constructor; [exact Hlines|].
      clear - Hbodies Hfile Hframe Hnotin.
      induction Hbodies as [|b' l' order bodies Hl Hrest IHf]; constructor.
      * apply (block_lines_frame st st1); [exact Hfile | | exact Hl].
        apply Hframe. intros ->. apply Hnotin. now left.
      * apply IHf. intros Hin. apply Hnotin. now right.
Qed.

(** The order of the blocks: the four blocks, each at its first
    occurrence. *)
Lemma block_order_of_spec (blocks : Blocks) :
  let io := io_block blocks in
  let power := power_block blocks in
  let config := config_block blocks in
  let unassigned := unassigned_block blocks in
  block_order_of blocks
  = [io]
    ++ (if Nat.eqb power io then [] else [power])
    ++ (if Nat.eqb config io || Nat.eqb config power then [] else [config])
    ++ (if Nat.eqb unassigned io || Nat.eqb unassigned power
           || Nat.eqb unassigned config
        then [] else [unassigned]).
Proof.
  destruct blocks as [io power config unassigned].
  unfold block_order_of, push_new.
  cbn [io_block power_block config_block unassigned_block fold_left existsb app].
  repeat match goal with
         | |- context [Nat.eqb ?a ?b] =>
             destruct (Nat.eqb_spec a b); [subst|];
             cbn [existsb app orb]; try congruence
         end;
    try reflexivity.
Qed.

Lemma push_new_NoDup (order : list block_ref) (b : block_ref) :
  NoDup order -> NoDup (push_new order b).
Proof.
  intros H. unfold push_new.
  destruct (existsb (Nat.eqb b) order) eqn:E; [exact H|].
  apply NoDup_app; [exact H | repeat constructor; simpl; tauto |].
  intros a Ha [->|[]].
  assert (Hex : existsb (Nat.eqb a) order = true).
  { apply existsb_exists. exists a. split; [exact Ha | apply Nat.eqb_refl]. }
  congruence.
Qed.

Lemma block_order_of_NoDup (blocks : Blocks) : NoDup (block_order_of blocks).
Proof.
  unfold block_order_of. cbn [fold_left].
  repeat apply push_new_NoDup. constructor.
Qed.

(** ** Symbol assembly: claims *)

(** C5, as the code has it. [render_symbol] renders every distinct block,
    whether or not a pin was classified into it, in the order IO, power,
    config, unassigned with a block instance kept at its first occurrence;
    each block contributes its rectangle line and one pin line per pin; the
    unit count of the DEF line is the number of distinct blocks, which is the
    number of blocks rendered. *)
Theorem render_symbol_renders_every_distinct_block
        (out : list Line) (options : Options) (blocks : Blocks)
        (st : Store) (out' : list Line) (st' : Store) :
  render_symbol out options blocks st = Ok (out', st') ->
  let order := block_order_of blocks in
  let io := io_block blocks in
  let power := power_block blocks in
  let config := config_block blocks in
  let unassigned := unassigned_block blocks in
  order
  = [io]
    ++ (if Nat.eqb power io then [] else [power])
    ++ (if Nat.eqb config io || Nat.eqb config power then [] else [config])
    ++ (if Nat.eqb unassigned io || Nat.eqb unassigned power
           || Nat.eqb unassigned config
        then [] else [unassigned])
  /\ NoDup order
  /\ (1 <= List.length order <= 4)%nat
  /\ exists bodies,
       out' = out ++ header st (List.length order) ++ List.concat bodies ++ footer
       /\ List.length bodies = List.length order
       /\ Forall2 (block_lines (classify_all options blocks st)) order bodies.
Proof.
  intros H order io power config unassigned.
  pose proof (block_order_of_spec blocks) as Horder. cbv zeta in Horder.
  fold order io power config unassigned in Horder.
  split; [exact Horder|].
  split; [apply block_order_of_NoDup|].
  split.
  { rewrite Horder.
    destruct (Nat.eqb power io);
      destruct (Nat.eqb config io || Nat.eqb config power);
      destruct (Nat.eqb unassigned io || Nat.eqb unassigned power
                || Nat.eqb unassigned config);
      simpl; lia. }
  unfold render_symbol in H. fold order in H.
  destruct (classify_all_spec options blocks st) as (_ & Hname & Hpkg & _).
  rewrite Hname, Hpkg in H. fold (header st (List.length order)) in H.
  destruct (render_blocks order (out ++ header st (List.length order))
              (classify_all options blocks st))
    as [[out1 st1]|msg] eqn:Hr; simpl in H; [|discriminate].
  inversion H; subst out' st'. clear H.
  apply render_blocks_spec in Hr; [|apply block_order_of_NoDup].
  destruct Hr as (_ & _ & bodies & -> & Hbodies).
  exists bodies. split; [now rewrite <- !app_assoc|].
  split; [symmetry; eapply Forall2_length; eassumption | exact Hbodies].
Qed.

Lemma render_symbol_renders_every_distinct_block_witness :
  exists out' st' bodies,
    render_symbol [] (program_options sip) four_blocks (store_of [PA0])
    = Ok (out', st')
    /\ out' = [] ++ header (store_of [PA0]) 4 ++ List.concat bodies ++ footer
    /\ List.length bodies = 4%nat.
Proof.
  destruct (render_symbol [] (program_options sip) four_blocks (store_of [PA0]))
    as [[out' st']|msg] eqn:E.
  - destruct (render_symbol_renders_every_distinct_block _ _ _ _ _ _ E)
      as (_ & _ & _ & bodies & Hout & Hlen & _).
    exists out', st', bodies. split; [reflexivity|].
    split; [exact Hout | exact Hlen].
  - vm_compute in E. discriminate.
Defined.

(** C5, counterexample. With the program's options and the single port pin
    PA0, the power, config and unassigned blocks receive no pin, and yet the
    output has the rectangle of each of the four units. *)
Lemma empty_blocks_are_rendered :
  ~ (forall out' st',
        render_symbol [] (program_options sip) four_blocks (store_of [PA0])
        = Ok (out', st') ->
        forall b hw hh,
          In b (block_order_of four_blocks) ->
          In (SLine hw hh (unit_of (Block.renderer (block_at st' b)))) out' ->
          render_input (classify_all (program_options sip) four_blocks
                                     (store_of [PA0])) b <> []).
Proof.
  intros H.
  destruct (render_symbol [] (program_options sip) four_blocks (store_of [PA0]))
    as [[out' st']|msg] eqn:E; [|vm_compute in E; discriminate].
  specialize (H out' st' eq_refl 1%nat (800 # 2)%Q (100 # 2)%Q).
  vm_compute in E. inversion E; subst out' st'. clear E.
  apply H.
  - vm_compute. auto.
  - vm_compute. do 10 right. left. reflexivity.
  - vm_compute. reflexivity.
Qed.

(** C3. The loop body classifies a pin by the first of the five rules that
    applies: the rule stamps the electrical type and adds the pin to its
    block, and to no other; under the last rule the pin keeps its type, is
    added to no block, and no block renders it. After the loop every block
    renders exactly the pins that its rule assigned to it. *)
Theorem classification_follows_the_rules
        (options : Options) (blocks : Blocks) (st : Store) (i : pin_ref) (p : Pin) :
  get_pin st i = Some p ->
  (forall b, Block.pins (block_at st b) = []) ->
  let st1 := classify options blocks i st in
  let st' := classify_all options blocks st in
  let p' := classified options blocks p in
  get_pin st1 i = Some p'
  /\ (forall j, j <> i -> get_pin st1 j = get_pin st j)
  /\ match spec_outcome blocks (spec_rule options p) with
     | Some (e, b) =>
         elec_type p' = e
         /\ block p' = Some b
         /\ Block.pins (block_at st1 b) = [i]
         /\ (forall b', b' <> b -> block_at st1 b' = block_at st b')
         /\ In p' (render_input st' b)
     | None =>
         elec_type p' = elec_type p
         /\ block p' = block p
         /\ (forall b', block_at st1 b' = block_at st b')
         /\ (forall b', ~ In i (Block.pins (block_at st' b')))
     end
  /\ get_pin st' i = Some p'
  /\ (forall b,
         render_input st' b
         = map (classified options blocks)
               (filter (assigned_to options blocks b)
                       (CubeFile.pins (cubefile st)))).
Proof.
  intros Hp Hfresh st1 st' p'.
  assert (Hinput : forall b,
             render_input st' b
             = map (classified options blocks)
                   (filter (assigned_to options blocks b)
                           (CubeFile.pins (cubefile st)))).
  { intros b. apply pins_rendered_by, Hfresh. }
  destruct (classify_all_spec options blocks st) as (Hpins & _ & _ & Hblocks).
  fold st' in Hpins, Hblocks.
  split.
  { subst st1. now rewrite (classify_get_pin _ _ _ _ _ _ Hp), Nat.eqb_refl. }
  split.
  { intros j Hj. subst st1. rewrite (classify_get_pin _ _ _ _ _ _ Hp).
    apply Nat.eqb_neq in Hj. now rewrite Hj. }
  split; [|split; [|exact Hinput]].
  - subst p'. unfold classified.
    destruct (spec_outcome blocks (spec_rule options p)) as [[e b]|] eqn:Ho.
    + split; [reflexivity|]. split; [reflexivity|].
      split; [|split].
      * subst st1. rewrite (classify_block_at _ _ _ _ _ _ Hp).
        unfold assigned_to. rewrite Ho, Nat.eqb_refl. simpl.
        now rewrite Hfresh.
      * intros b' Hb'. subst st1. rewrite (classify_block_at _ _ _ _ _ _ Hp).
        unfold assigned_to. rewrite Ho.
        apply Nat.eqb_neq in Hb'. rewrite Nat.eqb_sym in Hb'. now rewrite Hb'.
      * rewrite Hinput.
        replace (with_block (Some b)
                   (with_elec_type e (with_display_name (shown_name p) p)))
          with (classified options blocks p)
          by (unfold classified; now rewrite Ho).
        apply in_map. apply filter_In. split.
        -- eapply nth_error_In. exact Hp.
        -- unfold assigned_to. now rewrite Ho, Nat.eqb_refl.
    + split; [reflexivity|]. split; [reflexivity|].
      split.
      * intros b'. subst st1. rewrite (classify_block_at _ _ _ _ _ _ Hp).
        unfold assigned_to. now rewrite Ho.
      * intros b' Hin. destruct (Hblocks b') as [_ Hb'].
        rewrite Hb', Hfresh in Hin. cbn [app] in Hin.
        apply filter_In in Hin. destruct Hin as [_ Hin].
        unfold ref_assigned_to in Hin. rewrite Hp in Hin.
        unfold assigned_to in Hin. rewrite Ho in Hin. discriminate.
  - unfold get_pin. rewrite Hpins, nth_error_map.
    unfold get_pin in Hp. now rewrite Hp.
Qed.

Lemma classification_follows_the_rules_witness :
  let st := store_of [VDD; PA0; NRST; PA13] in
  let st' := classify_all dropping_options four_blocks st in
  spec_rule dropping_options PA13 = DropRule
  /\ get_pin st' 3%nat = Some (with_display_name "PA13_(JTMS/SWDIO)" PA13)
  /\ (forall b, ~ In 3%nat (Block.pins (block_at st' b)))
  /\ map (fun b => map name (render_input st' b)) [0; 1; 2; 3]%nat
     = [["PA0"]; ["VDD"]; ["NRST"]; []].
Proof.
  intros st st'.
  pose proof (classification_follows_the_rules dropping_options four_blocks
                st 3%nat PA13 eq_refl) as H.
  cbv zeta in H.
  change (spec_outcome four_blocks (spec_rule dropping_options PA13))
    with (@None (PinElectricalType * block_ref)) in H.
  destruct H as (_ & _ & (_ & _ & _ & Hno) & Hget & _).
  - intros b. now destruct b as [|[|[|b]]].
  - split; [reflexivity|]. split; [exact Hget|]. split; [exact Hno|].
    reflexivity.
Defined.

(** ** Display names *)

Lemma after_dot_star_one_line (s : string) :
  string_forallb (fun c => negb (is_line_terminator c)) s = true ->
  after_dot_star s = EmptyString.
Proof.
  induction s as [|c s IH]; simpl; [reflexivity|].
  intros H. apply andb_prop in H. destruct H as [Hc Hs].
  destruct (is_line_terminator c); [discriminate | auto].
Qed.

Lemma remove_space_dot_star_one_line (s : string) :
  string_forallb (fun c => negb (is_line_terminator c)) s = true ->
  remove_space_dot_star s = truncate_at_space s.
Proof.
  induction s as [|c s IH]; simpl; [reflexivity|].
  intros H. apply andb_prop in H. destruct H as [Hc Hs].
  destruct (is_space c).
  - now apply after_dot_star_one_line.
  - now rewrite IH.
Qed.

Lemma replace_spaces_no_space (s : string) :
  string_forallb (fun c => negb (is_space c)) (replace_spaces s) = true.
Proof.
  induction s as [|c s IH]; simpl; [reflexivity|].
  rewrite IH, andb_true_r.
  destruct (is_space c) eqn:E; [reflexivity | now rewrite E].
Qed.

(** C6, as the code has it. Classification sets the display name of a pin
    that has no label, or an empty one, to its whole name, and that of a pin
    with a label to short_name/label, whitespace being replaced by
    underscores in both cases; short_name is the name without its first
    whitespace and what follows it on the line, which for a name of one line
    is the name truncated at its first whitespace. *)
Theorem display_name_of_classified_pin
        (options : Options) (blocks : Blocks) (st : Store) (i : pin_ref) (p : Pin) :
  get_pin st i = Some p ->
  let short_name := remove_space_dot_star (name p) in
  exists p',
    get_pin (classify_all options blocks st) i = Some p'
    /\ get_pin (classify options blocks i st) i = Some p'
    /\ display_name p'
       = Some (replace_spaces
                 match label p with
                 | None | Some EmptyString => name p
                 | Some l => String.append short_name (String.append "/" l)
                 end)
    /\ (string_forallb (fun c => negb (is_line_terminator c)) (name p) = true ->
        short_name = truncate_at_space (name p))
    /\ (forall d, display_name p' = Some d ->
                  string_forallb (fun c => negb (is_space c)) d = true).
Proof.
  intros Hp short_name.
  exists (classified options blocks p).
  destruct (classify_all_spec options blocks st) as (Hpins & _).
  assert (Hd : display_name (classified options blocks p) = Some (shown_name p)).
  { unfold classified.
    now destruct (spec_outcome blocks (spec_rule options p)) as [[e b]|]. }
  split; [|split; [|split; [|split]]].
  - unfold get_pin. rewrite Hpins, nth_error_map.
    unfold get_pin in Hp. now rewrite Hp.
  - now rewrite (classify_get_pin _ _ _ _ _ _ Hp), Nat.eqb_refl.
  - rewrite Hd. unfold shown_name, truthy_label.
    now destruct (label p) as [[|c l]|].
  - apply remove_space_dot_star_one_line.
  - rewrite Hd. intros d Heq. inversion Heq. apply replace_spaces_no_space.
Qed.

Lemma display_name_of_classified_pin_witness :
  exists p',
    get_pin (classify_all (program_options sip) four_blocks
                          (store_of [VDD; PA0; NRST; PA13])) 1%nat = Some p'
    /\ display_name p' = Some "PA0/LED".
Proof.
  destruct (display_name_of_classified_pin (program_options sip) four_blocks
              (store_of [VDD; PA0; NRST; PA13]) 1%nat PA0 eq_refl)
    as (p' & Hget & _ & Hd & _).
  exists p'. split; [exact Hget | exact Hd].
Defined.

(** C6, counterexample. The unlabelled pin named [PA13 (JTMS/SWDIO)] has the
    short name [PA13] and is displayed as [PA13_(JTMS/SWDIO)]. *)
Lemma unlabelled_pin_shows_its_whole_name :
  label PA13 = None
  /\ remove_space_dot_star (name PA13) = "PA13"
  /\ option_map display_name
       (get_pin (classify_all (program_options sip) four_blocks
                              (store_of [VDD; PA0; NRST; PA13])) 3%nat)
     = Some (Some "PA13_(JTMS/SWDIO)")
  /\ option_map display_name
       (get_pin (classify_all (program_options sip) four_blocks
                              (store_of [VDD; PA0; NRST; PA13])) 3%nat)
     <> Some (Some (replace_spaces (remove_space_dot_star (name PA13)))).
Proof.
  repeat split; try reflexivity.
  vm_compute. discriminate.
Qed.

(** * Further properties *)

(** ** Grouping a sorted list *)

Lemma group_insert_keys {A : Type} (k : Z) (v : A) (groups : list (Z * list A))
      (e : Z * list A) :
  In e (group_insert k v groups) -> fst e = k \/ In (fst e) (map fst groups).
Proof.
  induction groups as [|[k' vs] rest IH]; simpl.
  - intros [<-|[]]. now left.
  - destruct (k =? k') eqn:E; simpl.
    + intros [<-|He]; simpl; [now right; left|].
      right. right. now apply in_map.
    + intros [<-|He]; simpl; [now right; left|].
      destruct (IH He); auto.
Qed.

Lemma group_insert_runs {A : Type} (f : A -> Z) (v : A) (groups : list (Z * list A)) :
  runs f groups ->
  Forall (fun e => fst e <= f v) groups ->
  runs f (group_insert (f v) v groups)
  /\ List.concat (map snd (group_insert (f v) v groups))
     = List.concat (map snd groups) ++ [v]
  /\ Forall (fun e => fst e <= f v) (group_insert (f v) v groups).
Proof.
  unfold runs.
  induction groups as [|[k vs] rest IH]; intros [Hs Hg] Hle; simpl.
  - repeat split; repeat constructor; simpl; auto; try lia. discriminate.
  - inversion Hs as [|? ? Hs' Hall]; subst.
    inversion Hg as [|? ? [Hne Hk] Hg']; subst.
    inversion Hle as [|? ? Hkv Hle']; subst. simpl in *.
    destruct (f v =? k) eqn:E.
    + apply Z.eqb_eq in E.
      assert (rest = []) as ->.
      { destruct rest as [|[k' vs'] rest']; [reflexivity|].
        inversion Hall; subst. inversion Hle'; subst. simpl in *. lia. }
      simpl. rewrite !app_nil_r.
      repeat split; repeat constructor; simpl; auto; try lia.
      * intros Hnil. apply app_eq_nil in Hnil. destruct Hnil. discriminate.
      * apply Forall_app. split; [exact Hk | repeat constructor; exact E].
    + apply Z.eqb_neq in E.
      destruct (IH (conj Hs' Hg') Hle') as ((Hs1 & Hg1) & Hc1 & Hle1).
      repeat split.
      * simpl. constructor; [exact Hs1|].
        rewrite Forall_map. rewrite Forall_map in Hall.
        apply Forall_forall. intros e He.
        destruct (group_insert_keys _ _ _ _ He) as [Hk'|Hk']; [lia|].
        apply in_map_iff in Hk'. destruct Hk' as [e' [Heq He']].
        rewrite Forall_forall in Hall. specialize (Hall e' He'). lia.
      * constructor; [split; assumption | exact Hg1].
      * simpl. rewrite Hc1. now rewrite app_assoc.
      * constructor; [exact Hkv | exact Hle1].
Qed.

(** Grouping a list that is sorted by key cuts it into its runs, in order. *)
Lemma groupBy_runs {A : Type} (f : A -> Z) (l : list A) :
  StronglySorted (fun a b => f a <= f b) l ->
  runs f (groupBy f l) /\ List.concat (map snd (groupBy f l)) = l.
Proof.
  unfold groupBy.
  enough (H : forall groups,
             runs f groups ->
             Forall (fun e => Forall (fun a => fst e <= f a) l) groups ->
             StronglySorted (fun a b => f a <= f b) l ->
             runs f (fold_left (fun g v => group_insert (f v) v g) l groups)
             /\ List.concat
                  (map snd (fold_left (fun g v => group_insert (f v) v g) l groups))
                = List.concat (map snd groups) ++ l).
  { intros Hs. apply (H []); [|constructor | exact Hs].
    split; constructor. }
  induction l as [|v l IH]; intros groups Hr Hle Hs; simpl.
  - now rewrite app_nil_r.
  - inversion Hs as [|? ? Hs' Hv]; subst.
    assert (Hlev : Forall (fun e => fst e <= f v) groups).
    { eapply Forall_impl; [|exact Hle]. intros e He. now inversion He. }
    destruct (group_insert_runs f v groups Hr Hlev) as (Hr1 & Hc1 & Hle1).
    destruct (IH (group_insert (f v) v groups) Hr1) as [Hr2 Hc2];
      [|exact Hs'|].
    + eapply Forall_impl; [|exact Hle1]. intros e He. cbv beta in He.
      eapply Forall_impl; [|exact Hv]. intros a Ha. cbv beta in Ha. lia.
    + split; [exact Hr2|]. rewrite Hc2, Hc1, <- app_assoc. reflexivity.
Qed.

Lemma insert_by_head {A : Type} (le : A -> A -> bool) (a : A) (l : list A) :
  HdRel (fun u v => le u v = true) a l -> insert_by le a l = a :: l.
Proof.
  destruct l as [|b l]; simpl; [reflexivity|].
  intros H. inversion H; subst. now rewrite H1.
Qed.

(** Sorting a sorted list changes nothing. *)
Lemma sortBy_sorted {A : Type} (le : A -> A -> bool) (l : list A) :
  Sorted (fun u v => le u v = true) l -> sortBy le l = l.
Proof.
  induction 1 as [|a l Hs IH Hhd]; simpl; [reflexivity|].
  rewrite IH. now apply insert_by_head.
Qed.

Lemma filter_none {A : Type} (f : A -> bool) (l : list A) :
  (forall a, In a l -> f a = false) -> filter f l = [].
Proof.
  induction l as [|a l IH]; intros H; simpl; [reflexivity|].
  rewrite (H a (or_introl eq_refl)). apply IH.
  intros b Hb. apply H. now right.
Qed.

(** The groups whose keys are array indices and come in ascending order are
    enumerated as they are. *)
Lemma values_runs {A : Type} (groups : list (Z * list A)) :
  StronglySorted Z.lt (map fst groups) ->
  (forall e, In e groups -> 0 <= fst e < 4294967295) ->
  values groups = map snd groups.
Proof.
  intros Hs Hidx. unfold values.
  assert (Hall : forall e, In e groups -> is_array_index (fst e) = true).
  { intros e He. unfold is_array_index. specialize (Hidx e He).
    apply andb_true_intro. split; [apply Z.leb_le | apply Z.ltb_lt]; lia. }
  rewrite (filter_all _ groups Hall).
  rewrite (filter_none (fun e => negb (is_array_index (fst e))) groups)
    by (intros e He; now rewrite Hall).
  rewrite app_nil_r. f_equal.
  apply sortBy_sorted.
  clear Hidx Hall.
  induction groups as [|e rest IH]; [constructor|].
  simpl in Hs. inversion Hs as [|? ? Hs' Hlt]; subst.
  constructor; [now apply IH|].
  destruct rest as [|e' rest']; constructor.
  inversion Hlt; subst. unfold entry_le. apply Z.leb_le. lia.
Qed.

Lemma StronglySorted_weaken {A : Type} (R R' : A -> A -> Prop) (l : list A) :
  (forall a b, R a b -> R' a b) -> StronglySorted R l -> StronglySorted R' l.
Proof.
  intros H. induction 1 as [|a l Hs IH Hall]; constructor; [exact IH|].
  eapply Forall_impl; [|exact Hall]. auto.
Qed.

Lemma mapi_In_nth {A B : Type} (f : A -> nat -> B) (xs : list A) (b : B) :
  In b (mapi f xs) -> exists a i, nth_error xs i = Some a /\ b = f a i.
Proof.
  intros H. apply In_nth_error in H. destruct H as [i Hi].
  destruct (nth_error xs i) as [a|] eqn:E.
  - exists a, i. split; [exact E|].
    rewrite (mapi_nth_error f xs i a E) in Hi. congruence.
  - apply nth_error_None in E.
    assert (Hn : nth_error (mapi f xs) i <> None) by congruence.
    apply nth_error_Some in Hn. rewrite mapi_length in Hn. lia.
Qed.

(** A strictly increasing list that holds exactly the integers from [a] to
    [a + m - 1] is their enumeration. *)
Lemma sorted_range (ks : list Z) (a : Z) (m : nat) :
  StronglySorted Z.lt ks ->
  (forall k, In k ks <-> a <= k < a + Z.of_nat m) ->
  ks = map (fun i => a + Z.of_nat i) (seq 0 m).
Proof.
  revert ks a. induction m as [|m IH]; intros ks a Hs Hin.
  - destruct ks as [|k ks]; [reflexivity|].
    specialize (proj1 (Hin k) (or_introl eq_refl)). lia.
  - destruct ks as [|h t].
    { specialize (proj2 (Hin a) ltac:(lia)). intros []. }
    inversion Hs as [|? ? Hs' Hall]; subst.
    rewrite Forall_forall in Hall.
    assert (Hh : h = a).
    { pose proof (proj1 (Hin h) (or_introl eq_refl)) as Hr.
      destruct (proj2 (Hin a) ltac:(lia)) as [Ha|Ha]; [lia|].
      specialize (Hall a Ha). lia. }
    subst h. cbn [seq map]. f_equal; [lia|].
    rewrite <- seq_shift, map_map.
    rewrite (IH t (a + 1) Hs').
    + apply map_ext. intros i. lia.
    + intros k. split.
      * intros Hk. specialize (Hall k Hk).
        pose proof (proj1 (Hin k) (or_intror Hk)). lia.
      * intros Hk. destruct (proj2 (Hin k) ltac:(lia)) as [Hk'|Hk']; [lia|].
        exact Hk'.
Qed.

(** A strictly increasing list of integers from an interval is no longer
    than the interval. *)
Lemma sorted_bounded_length (ks : list Z) (a : Z) (m : nat) :
  StronglySorted Z.lt ks ->
  (forall k, In k ks -> a <= k < a + Z.of_nat m) ->
  (List.length ks <= m)%nat.
Proof.
  revert a m. induction ks as [|h t IH]; intros a m Hs Hin; simpl; [lia|].
  inversion Hs as [|? ? Hs' Hall]; subst.
  rewrite Forall_forall in Hall.
  pose proof (Hin h (or_introl eq_refl)) as Hh.
  destruct m as [|m]; [lia|].
  apply le_n_S. apply (IH (h + 1)); [exact Hs'|].
  intros k Hk. specialize (Hall k Hk).
  pose proof (Hin k (or_intror Hk)). lia.
Qed.

(** ** The groups of the quad-flat renderer *)

Lemma position_le_total (p q : Pin) :
  position_le p q = false -> position_le q p = true.
Proof.
  unfold position_le. intros H. apply Z.leb_gt in H. apply Z.leb_le. lia.
Qed.

Lemma sortBy_position_sorted (ps : list Pin) :
  StronglySorted (fun p q => position p <= position q) (sortBy position_le ps).
Proof.
  apply (StronglySorted_weaken (fun p q => position_le p q = true)).
  - intros p q H. now apply Z.leb_le.
  - apply Sorted_StronglySorted.
    + intros p q s Hpq Hqs. unfold position_le in *.
      apply Z.leb_le in Hpq, Hqs. apply Z.leb_le. lia.
    + apply sortBy_Sorted, position_le_total.
Qed.

(** For pins that are all on the package, the sides are the runs of the
    pins in ascending position, and their keys are among 0, 1, 2, 3. *)
Lemma qfp_groups (g : Geometry) (u n : Z) (m : QfpMode) (r : QfpRenderer.t)
      (ps : list Pin) :
  0 < n ->
  QfpRenderer.new g u n m = Ok r ->
  (forall p, In p ps -> 1 <= position p <= n) ->
  let groups := groupBy (QfpRenderer.side_key r) (sortBy position_le ps) in
  runs (QfpRenderer.side_key r) groups
  /\ List.concat (map snd groups) = sortBy position_le ps
  /\ values groups = map snd groups
  /\ (forall k, In k (map fst groups)
                <-> exists p, In p ps /\ QfpRenderer.side_key r p = k)
  /\ (forall k, In k (map fst groups) -> 0 <= k < 4).
Proof.
  intros Hn Hnew Hpos groups.
  destruct (pins_per_side_pos g u n m r Hn Hnew) as [Hq Hq4].
  assert (Hn4 : n = 4 * QfpRenderer.pins_per_side r).
  { apply new_inv in Hnew. destruct Hnew as (Hrem & _).
    rewrite Z.rem_mod_nonneg in Hrem by lia.
    rewrite Hq4. pose proof (Z.div_mod n 4 ltac:(lia)). lia. }
  assert (Hkey : forall p, In p ps -> 0 <= QfpRenderer.side_key r p < 4).
  { intros p Hp. specialize (Hpos p Hp). unfold QfpRenderer.side_key. split.
    - apply Z.div_pos; lia.
    - apply Z.div_lt_upper_bound; lia. }
  destruct (groupBy_runs (QfpRenderer.side_key r) (sortBy position_le ps))
    as [Hruns Hconcat].
  { apply (StronglySorted_weaken (fun p q => position p <= position q)).
    - intros p q Hpq. unfold QfpRenderer.side_key.
      apply Z.div_le_mono; lia.
    - apply sortBy_position_sorted. }
  fold groups in Hruns, Hconcat.
  assert (Hkeys : forall k, In k (map fst groups)
                            <-> exists p, In p ps /\ QfpRenderer.side_key r p = k).
  { destruct Hruns as [_ Hg]. rewrite Forall_forall in Hg.
    intros k. split.
    - intros Hk. apply in_map_iff in Hk. destruct Hk as [e [<- He]].
      destruct (Hg e He) as [Hne Hall].
      destruct (snd e) as [|a vs] eqn:Ee; [contradiction|].
      exists a. split.
      + apply (Permutation_in a (sortBy_perm position_le ps)).
        rewrite <- Hconcat. apply in_concat. exists (a :: vs).
        split; [|now left]. rewrite <- Ee. now apply in_map.
      + now inversion Hall.
    - intros [p [Hp <-]].
      apply (Permutation_in p (Permutation_sym (sortBy_perm position_le ps))) in Hp.
      rewrite <- Hconcat in Hp. apply in_concat in Hp.
      destruct Hp as [vs [Hvs Hp]].
      apply in_map_iff in Hvs. destruct Hvs as [e [<- He]].
      destruct (Hg e He) as [_ Hall]. rewrite Forall_forall in Hall.
      rewrite (Hall p Hp). now apply in_map. }
  assert (Hrange : forall k, In k (map fst groups) -> 0 <= k < 4).
  { intros k Hk. apply Hkeys in Hk. destruct Hk as [p [Hp <-]]. now apply Hkey. }
  split; [exact Hruns|]. split; [exact Hconcat|].
  split; [|split; assumption].
  apply values_runs; [apply Hruns|].
  intros e He. specialize (Hrange (fst e) (in_map fst _ _ He)). lia.
Qed.

(** A stored pin is on the side whose number is the index of its group. *)
Lemma set_pins_member (ps : list Pin) (r : QfpRenderer.t) (q : QfpPin) :
  In q (QfpRenderer.pins (QfpRenderer.set_pins ps r)) ->
  exists i side_pins,
    nth_error (values (groupBy (QfpRenderer.side_key r) (sortBy position_le ps))) i
    = Some side_pins
    /\ side q = Z.of_nat i
    /\ In (position_on_side q, qfp_pin q)
          (combine (QfpRenderer.position_pins_on_side r side_pins) side_pins).
Proof.
  unfold QfpRenderer.set_pins, QfpRenderer.calc_geometry. cbn [QfpRenderer.pins].
  intros H. apply in_concat in H. destruct H as [placed [Hp Hq]].
  apply mapi_In_nth in Hp. destruct Hp as [side_pins [i [Hs ->]]].
  exists i, side_pins. split; [exact Hs|].
  apply in_map_iff in Hq. destruct Hq as [[slot pin] [<- Hq]]. auto.
Qed.

(** X1. For pins that are all on the package, [set_pins] stores the pins in
    ascending physical position, which is the order in which [render_pins]
    draws them. *)
Theorem qfp_pins_in_ascending_position
        (g : Geometry) (u n : Z) (m : QfpMode) (r : QfpRenderer.t) (ps : list Pin) :
  0 < n ->
  QfpRenderer.new g u n m = Ok r ->
  (forall p, In p ps -> 1 <= position p <= n) ->
  let stored := map qfp_pin (QfpRenderer.pins (QfpRenderer.set_pins ps r)) in
  stored = sortBy position_le ps
  /\ StronglySorted (fun p q => position p <= position q) stored
  /\ Permutation stored ps.
Proof.
  intros Hn Hnew Hpos stored.
  destruct (qfp_groups g u n m r ps Hn Hnew Hpos) as (_ & Hconcat & Hvalues & _).
  assert (Hs : stored = sortBy position_le ps).
  { subst stored. now rewrite set_pins_qfp_pins, Hvalues. }
  split; [exact Hs|]. rewrite Hs.
  split; [apply sortBy_position_sorted | apply sortBy_perm].
Qed.

Lemma qfp_pins_in_ascending_position_witness :
  map (fun q => position (qfp_pin q))
      (QfpRenderer.pins
         (QfpRenderer.set_pins [io_pin 30 "PB2"; io_pin 3 "PA2"; io_pin 21 "PB10"]
                               (qfp_renderer 40 COMPACT)))
  = [3; 21; 30].
Proof.
  destruct (qfp_pins_in_ascending_position default_geometry Unit.IO 40 COMPACT
              (qfp_renderer 40 COMPACT)
              [io_pin 30 "PB2"; io_pin 3 "PA2"; io_pin 21 "PB10"])
    as (Hs & _).
  - lia.
  - reflexivity.
  - intros p [<-|[<-|[<-|[]]]]; simpl; lia.
  - rewrite <- map_map, Hs. reflexivity.
Defined.

(** X2. When the populated sides are the first [sides] ones (all four, for
    instance), every pin is recorded on the side
    floor((position - 1) / (total_pins / 4)). *)
Theorem qfp_side_when_lower_sides_populated
        (g : Geometry) (u n : Z) (m : QfpMode) (r : QfpRenderer.t)
        (ps : list Pin) (sides : nat) :
  0 < n ->
  QfpRenderer.new g u n m = Ok r ->
  (forall p, In p ps -> 1 <= position p <= n) ->
  (forall k, (exists p, In p ps /\ (position p - 1) / (n / 4) = k)
             <-> 0 <= k < Z.of_nat sides) ->
  forall q, In q (QfpRenderer.pins (QfpRenderer.set_pins ps r)) ->
            side q = (position (qfp_pin q) - 1) / (n / 4).
Proof.
  intros Hn Hnew Hpos Hsides q Hq.
  destruct (pins_per_side_pos g u n m r Hn Hnew) as [_ Hq4].
  destruct (qfp_groups g u n m r ps Hn Hnew Hpos)
    as ((Hsorted & Hgroups) & _ & Hvalues & Hkeys & _).
  set (groups := groupBy (QfpRenderer.side_key r) (sortBy position_le ps)) in *.
  assert (Hks : map fst groups = map (fun i => 0 + Z.of_nat i) (seq 0 sides)).
  { apply sorted_range; [exact Hsorted|].
    intros k. rewrite Hkeys. unfold QfpRenderer.side_key. rewrite Hq4.
    rewrite Hsides. lia. }
  apply set_pins_member in Hq. fold groups in Hq.
  destruct Hq as (i & side_pins & Hnth & Hside & Hin).
  rewrite Hvalues, nth_error_map in Hnth.
  destruct (nth_error groups i) as [e|] eqn:He; [|discriminate].
  inversion Hnth; subst side_pins. clear Hnth.
  rewrite Forall_forall in Hgroups.
  destruct (Hgroups e (nth_error_In _ _ He)) as [_ Hall].
  rewrite Forall_forall in Hall.
  pose proof (Hall _ (in_combine_r _ _ _ _ Hin)) as Hkey.
  unfold QfpRenderer.side_key in Hkey. rewrite Hq4 in Hkey.
  rewrite Hkey, Hside.
  assert (Hfst : nth_error (map fst groups) i = Some (fst e))
    by now rewrite nth_error_map, He.
  rewrite Hks, nth_error_map in Hfst.
  destruct (nth_error (seq 0 sides) i) as [j|] eqn:Hj; [|discriminate].
  apply nth_error_In in Hj as Hin'. apply in_seq in Hin'.
  rewrite nth_error_seq in Hj.
  destruct (i <? sides)%nat; [|discriminate].
  inversion Hj; subst j. inversion Hfst. lia.
Qed.

Lemma qfp_side_when_lower_sides_populated_witness :
  map (fun q => (position (qfp_pin q), side q))
      (QfpRenderer.pins
         (QfpRenderer.set_pins [io_pin 4 "PA3"; io_pin 1 "PA0"]
                               (qfp_renderer 8 CRUSHED)))
  = [(1, 0); (4, 1)]
  /\ forall q,
       In q (QfpRenderer.pins
               (QfpRenderer.set_pins [io_pin 4 "PA3"; io_pin 1 "PA0"]
                                     (qfp_renderer 8 CRUSHED))) ->
       side q = (position (qfp_pin q) - 1) / (8 / 4).
Proof.
  split; [reflexivity|].
  apply (qfp_side_when_lower_sides_populated default_geometry Unit.IO 8 CRUSHED
           (qfp_renderer 8 CRUSHED) [io_pin 4 "PA3"; io_pin 1 "PA0"] 2).
  - lia.
  - reflexivity.
  - intros p [<-|[<-|[]]]; simpl; lia.
  - intros k. split.
    + intros [p [[<-|[<-|[]]] <-]]; vm_compute; split; congruence.
    + intros Hk. assert (Hc : k = 0 \/ k = 1) by lia.
      destruct Hc as [-> | ->].
      * exists (io_pin 1 "PA0"). split; [simpl; auto | reflexivity].
      * exists (io_pin 4 "PA3"). split; [simpl; auto | reflexivity].
Defined.

Lemma qfp_get_position_defined (r : QfpRenderer.t) (q : QfpPin) :
  0 <= side q < 4 -> exists pos, QfpRenderer.get_position r q = Ok pos.
Proof.
  intros Hs. unfold QfpRenderer.get_position.
  assert (Hc : side q = 0 \/ side q = 1 \/ side q = 2 \/ side q = 3) by lia.
  destruct Hc as [-> | [-> | [-> | ->]]]; eexists; reflexivity.
Qed.

Lemma qfp_get_position_side (r : QfpRenderer.t) (q : QfpPin) (pos : PinPosition) :
  QfpRenderer.get_position r q = Ok pos -> 0 <= side q < 4.
Proof.
  unfold QfpRenderer.get_position.
  destruct (js_index QfpRenderer.origins (side q)) as [o|] eqn:Eo.
  - intros _. apply js_index_Some_range in Eo. exact Eo.
  - discriminate.
Qed.

Lemma map_results {A : Type} (f : A -> result Line) (xs : list A) :
  (forall a, In a xs -> exists l, f a = Ok l) ->
  exists lines, map f xs = map Ok lines.
Proof.
  induction xs as [|a xs IH]; intros H.
  - exists []. reflexivity.
  - destruct (H a (or_introl eq_refl)) as [l Hl].
    destruct IH as [lines Hlines]; [intros b Hb; apply H; now right|].
    exists (l :: lines). simpl. now rewrite Hl, Hlines.
Qed.

Lemma qfp_render_pins_ok_iff (r : QfpRenderer.t) (out : list Line) :
  (exists out', QfpRenderer.render_pins r out = Ok out')
  <-> Forall (fun q => 0 <= side q < 4) (QfpRenderer.pins r).
Proof.
  unfold QfpRenderer.render_pins. split.
  - intros [out' H]. apply push_all_inv in H. destruct H as [lines [Hl _]].
    apply Forall_forall. intros q Hq.
    apply (in_map (QfpRenderer.pin_line r)) in Hq. rewrite Hl in Hq.
    apply in_map_iff in Hq. destruct Hq as [l [Hl' _]].
    unfold QfpRenderer.pin_line in Hl'.
    destruct (QfpRenderer.get_position r q) as [pos|] eqn:E; [|discriminate].
    now apply qfp_get_position_side in E.
  - intros H. rewrite Forall_forall in H.
    destruct (map_results (QfpRenderer.pin_line r) (QfpRenderer.pins r))
      as [lines Hl].
    { intros q Hq. unfold QfpRenderer.pin_line.
      destruct (qfp_get_position_defined r q (H q Hq)) as [pos ->].
      eexists; reflexivity. }
    rewrite Hl, push_all_ok. eexists; reflexivity.
Qed.

(** X3. [render_pins] of the quad-flat renderer throws exactly when a stored
    pin is on a side other than 0, 1, 2 or 3; otherwise it pushes one line
    per stored pin. *)
Theorem qfp_render_pins_throws_iff (r : QfpRenderer.t) (out : list Line) :
  ((exists out', QfpRenderer.render_pins r out = Ok out')
   <-> Forall (fun q => 0 <= side q < 4) (QfpRenderer.pins r))
  /\ ((exists msg, QfpRenderer.render_pins r out = Throw msg)
      <-> Exists (fun q => ~ 0 <= side q < 4) (QfpRenderer.pins r))
  /\ (forall out', QfpRenderer.render_pins r out = Ok out' ->
        exists lines,
          out' = out ++ lines
          /\ List.length lines = List.length (QfpRenderer.pins r)).
Proof.
  pose proof (qfp_render_pins_ok_iff r out) as Hok.
  split; [exact Hok|]. split.
  - split.
    + intros [msg H]. apply neg_Forall_Exists_neg.
      * intros q. destruct (Z_le_dec 0 (side q)); [|right; lia].
        destruct (Z_lt_dec (side q) 4); [left | right]; lia.
      * intros Hall. apply Hok in Hall. destruct Hall as [out' Hout]. congruence.
    + intros Hex.
      destruct (QfpRenderer.render_pins r out) as [out'|msg] eqn:E;
        [|eexists; reflexivity].
      assert (Hall : Forall (fun q => 0 <= side q < 4) (QfpRenderer.pins r))
        by (apply Hok; eexists; reflexivity).
      apply Exists_exists in Hex. destruct Hex as [q [Hq Hn]].
      rewrite Forall_forall in Hall. specialize (Hall q Hq). contradiction.
  - intros out' H. unfold QfpRenderer.render_pins in H.
    apply push_all_inv in H. destruct H as [lines [Hl ->]].
    exists lines. split; [reflexivity|].
    now rewrite <- (length_map Ok lines), <- Hl, length_map.
Qed.

(** X4. For pins that are all on the package, [render_pins] after
    [set_pins] does not throw and pushes one line per pin. *)
Theorem qfp_render_pins_on_package
        (g : Geometry) (u n : Z) (m : QfpMode) (r : QfpRenderer.t)
        (ps : list Pin) (out : list Line) :
  0 < n ->
  QfpRenderer.new g u n m = Ok r ->
  (forall p, In p ps -> 1 <= position p <= n) ->
  exists lines,
    QfpRenderer.render_pins (QfpRenderer.set_pins ps r) out = Ok (out ++ lines)
    /\ List.length lines = List.length ps
    /\ forallb is_XLine lines = true.
Proof.
  intros Hn Hnew Hpos.
  destruct (qfp_groups g u n m r ps Hn Hnew Hpos)
    as ((Hsorted & _) & _ & Hvalues & _ & Hrange).
  set (groups := groupBy (QfpRenderer.side_key r) (sortBy position_le ps)) in *.
  assert (Hlen : (List.length groups <= 4)%nat).
  { rewrite <- (length_map fst). apply (sorted_bounded_length _ 0 4 Hsorted).
    intros k Hk. specialize (Hrange k Hk). lia. }
  assert (Hsides : Forall (fun q => 0 <= side q < 4)
                          (QfpRenderer.pins (QfpRenderer.set_pins ps r))).
  { apply Forall_forall. intros q Hq.
    apply set_pins_member in Hq. fold groups in Hq.
    destruct Hq as (i & side_pins & Hnth & Hside & _).
    assert (Hi : nth_error (values groups) i <> None) by congruence.
    apply nth_error_Some in Hi. rewrite Hvalues, length_map in Hi. lia. }
  apply (qfp_render_pins_ok_iff (QfpRenderer.set_pins ps r) out) in Hsides.
  destruct Hsides as [out' Hout].
  pose proof (render_pins_lines ps (Qfp r) out out' Hout) as (xs & -> & Hl & Hx).
  exists xs. auto.
Qed.

Lemma qfp_render_pins_on_package_witness :
  exists lines,
    QfpRenderer.render_pins
      (QfpRenderer.set_pins [io_pin 30 "PB2"; io_pin 3 "PA2"]
                            (qfp_renderer 40 CRUSHED)) []
    = Ok ([] ++ lines)
    /\ List.length lines = 2%nat.
Proof.
  destruct (qfp_render_pins_on_package default_geometry Unit.IO 40 CRUSHED
              (qfp_renderer 40 CRUSHED) [io_pin 30 "PB2"; io_pin 3 "PA2"] [])
    as (lines & Hout & Hlen & _).
  - lia.
  - reflexivity.
  - intros p [<-|[<-|[]]]; simpl; lia.
  - exists lines. split; [exact Hout | exact Hlen].
Defined.

Lemma qfp_render_pins_throws_iff_witness :
  exists msg,
    QfpRenderer.render_pins
      (QfpRenderer.set_pins
         [io_pin 1 "PA0"; io_pin 3 "PA2"; io_pin 5 "PA4"; io_pin 7 "PA6";
          io_pin 9 "PA8"]
         (qfp_renderer 8 CRUSHED)) []
    = Throw msg.
Proof.
  apply (proj2 (proj1 (proj2 (qfp_render_pins_throws_iff _ [])))).
  match goal with
  | |- Exists ?P ?l => let l' := eval vm_compute in l in change (Exists P l')
  end.
  do 4 apply Exists_cons_tl. apply Exists_cons_hd. simpl. lia.
Defined.

(** ** The outline of the quad-flat symbol *)

Lemma fold_max_ge (l : list Z) (a x : Z) :
  x = a \/ In x l -> x <= fold_left Z.max l a.
Proof.
  revert a x. induction l as [|b l IH]; intros a x H; simpl.
  - destruct H as [-> | []]. lia.
  - destruct H as [-> | [-> | H]].
    + apply Z.le_trans with (Z.max a b); [lia | apply IH; now left].
    + apply Z.le_trans with (Z.max a x); [lia | apply IH; now left].
    + apply IH. now right.
Qed.

Lemma max_or_0_ge (l : list Z) (x : Z) : In x l -> x <= max_or_0 l.
Proof.
  destruct l as [|a l]; simpl; [intros []|].
  intros [<-|H]; apply fold_max_ge; auto.
Qed.

(** In compact and crushed mode the largest slot of a pair of opposite
    sides bounds the slot of every pin of these sides. *)
Lemma max_on_sides_ge (r : QfpRenderer.t) (sides : list Z) (q : QfpPin) :
  In q (QfpRenderer.pins r) -> In (side q) sides ->
  position_on_side q <= QfpRenderer.max_on_sides r sides.
Proof.
  intros Hq Hs. unfold QfpRenderer.max_on_sides.
  apply Z.le_trans
    with (max_or_0 (map position_on_side
                        (filter (fun pin => side pin =? side q)
                                (QfpRenderer.pins r)))).
  - apply max_or_0_ge, in_map, filter_In. split; [exact Hq | apply Z.eqb_refl].
  - apply max_or_0_ge.
    apply (in_map (fun s => max_or_0
                              (map position_on_side
                                   (filter (fun pin => side pin =? s)
                                           (QfpRenderer.pins r))))).
    exact Hs.
Qed.

Lemma set_pins_half_inner (ps : list Pin) (r : QfpRenderer.t) :
  let r' := QfpRenderer.set_pins ps r in
  let g := QfpRenderer.geometry r in
  let max_h := match QfpRenderer.mode r with
               | ACCURATE => QfpRenderer.pins_per_side r - 1
               | _ => QfpRenderer.max_on_sides r' [QfpSide.TOP; QfpSide.BOTTOM]
               end in
  let max_v := match QfpRenderer.mode r with
               | ACCURATE => QfpRenderer.pins_per_side r - 1
               | _ => QfpRenderer.max_on_sides r' [QfpSide.LEFT; QfpSide.RIGHT]
               end in
  QfpRenderer.geometry r' = g
  /\ QfpRenderer.half_inner_width r' = (inject_Z max_h * pin_spacing g / 2)%Q
  /\ QfpRenderer.half_inner_height r' = (inject_Z max_v * pin_spacing g / 2)%Q
  /\ QfpRenderer.half_width r'
     = (QfpRenderer.half_inner_width r' + margin_qfp g * pin_spacing g)%Q
  /\ QfpRenderer.half_height r'
     = (QfpRenderer.half_inner_height r' + margin_qfp g * pin_spacing g)%Q.
Proof.
  unfold QfpRenderer.set_pins, QfpRenderer.calc_geometry. simpl.
  destruct (QfpRenderer.mode r); repeat split.
Qed.

(** The slot of a stored pin is not negative, and in accurate mode it is
    below the number of pins of a side. *)
Lemma set_pins_slot_bounds (g : Geometry) (u n : Z) (m : QfpMode)
      (r : QfpRenderer.t) (ps : list Pin) (q : QfpPin) :
  0 < n ->
  QfpRenderer.new g u n m = Ok r ->
  (forall p, In p ps -> 1 <= position p) ->
  In q (QfpRenderer.pins (QfpRenderer.set_pins ps r)) ->
  0 <= position_on_side q
  /\ (m = ACCURATE -> position_on_side q <= QfpRenderer.pins_per_side r - 1).
Proof.
  intros Hn Hnew Hpos Hq.
  destruct (pins_per_side_pos g u n m r Hn Hnew) as [Hpps _].
  assert (Hp : In (qfp_pin q) ps).
  { apply (Permutation_in _ (set_pins_perm ps r)), in_map, Hq. }
  apply new_inv in Hnew. destruct Hnew as (_ & _ & _ & _ & Hm).
  apply set_pins_slot in Hq. destruct Hq as [side_pins [_ Hin]].
  unfold QfpRenderer.position_pins_on_side in Hin. rewrite Hm in Hin.
  destruct m.
  - apply combine_map_In in Hin. rewrite Hin.
    specialize (Hpos _ Hp).
    pose proof (Z.rem_bound_pos (position (qfp_pin q) - 1)
                  (QfpRenderer.pins_per_side r) ltac:(lia) Hpps).
    split; [lia | intros _; lia].
  - split; [|discriminate].
    apply in_combine_l in Hin.
    destruct side_pins as [|p0 rest]; [contradiction|].
    rewrite compact_fold in Hin. cbn [app last] in Hin.
    pose proof (spec_compact_slots_above 0 (position p0) (p0 :: rest)) as Hall.
    rewrite Forall_forall in Hall. specialize (Hall _ Hin). lia.
  - split; [|discriminate].
    apply in_combine_l in Hin. rewrite mapi_index in Hin.
    apply in_map_iff in Hin. destruct Hin as [i [<- _]]. lia.
Qed.

Lemma scaled_slot_bounds (slot max : Z) (s : Q) :
  0 <= slot <= max -> (0 <= s)%Q ->
  (0 <= inject_Z slot * s /\ inject_Z slot * s <= inject_Z max * s)%Q.
Proof.
  intros [H0 Hm] Hs. split.
  - apply Qmult_le_0_compat; [|exact Hs].
    change 0%Q with (inject_Z 0). now rewrite <- Zle_Qle.
  - apply Qmult_le_compat_r; [|exact Hs]. now rewrite <- Zle_Qle.
Qed.

(** X5. Every pin that the quad-flat renderer draws ends [pin_length]
    outside the edge of the rectangle that belongs to its recorded side,
    points into the body, and lies within the span of that edge. *)
Theorem qfp_pins_on_the_outline
        (g : Geometry) (u n : Z) (m : QfpMode) (r : QfpRenderer.t)
        (ps : list Pin) (q : QfpPin) (pos : PinPosition) :
  0 < n ->
  QfpRenderer.new g u n m = Ok r ->
  (forall p, In p ps -> 1 <= position p) ->
  (0 <= pin_spacing g)%Q ->
  let r' := QfpRenderer.set_pins ps r in
  let hw := QfpRenderer.half_width r' in
  let hh := QfpRenderer.half_height r' in
  let hiw := QfpRenderer.half_inner_width r' in
  let hih := QfpRenderer.half_inner_height r' in
  In q (QfpRenderer.pins r') ->
  QfpRenderer.get_position r' q = Ok pos ->
  (side q = QfpSide.LEFT /\ dir pos = "R"%char
   /\ x pos == - (hw + pin_length g) /\ - hih <= y pos <= hih)%Q
  \/ (side q = QfpSide.BOTTOM /\ dir pos = "U"%char
      /\ y pos == hh + pin_length g /\ - hiw <= x pos <= hiw)%Q
  \/ (side q = QfpSide.RIGHT /\ dir pos = "L"%char
      /\ x pos == hw + pin_length g /\ - hih <= y pos <= hih)%Q
  \/ (side q = QfpSide.TOP /\ dir pos = "D"%char
      /\ y pos == - (hh + pin_length g) /\ - hiw <= x pos <= hiw)%Q.
Proof.
  intros Hn Hnew Hpos Hs r' hw hh hiw hih Hq Hget.
  destruct (set_pins_slot_bounds g u n m r ps q Hn Hnew Hpos Hq) as [H0 Hacc].
  destruct (set_pins_half_inner ps r) as (Hg & Hiw & Hih & Hw & Hh).
  cbv zeta in Hg, Hiw, Hih, Hw, Hh.
  fold r' in Hg, Hiw, Hih, Hw, Hh. fold hw hiw in Hw. fold hh hih in Hh.
  fold hiw in Hiw. fold hih in Hih.
  apply new_inv in Hnew as Hinv. destruct Hinv as (_ & Hgr & _ & _ & Hm).
  rewrite Hgr in *.
  assert (Hh_bound :
            In (side q) [QfpSide.TOP; QfpSide.BOTTOM] ->
            (0 <= inject_Z (position_on_side q) * pin_spacing g
             /\ inject_Z (position_on_side q) * pin_spacing g <= 2 * hiw)%Q).
  { intros Hside. rewrite Hiw.
    set (M := match QfpRenderer.mode r with
              | ACCURATE => QfpRenderer.pins_per_side r - 1
              | _ => QfpRenderer.max_on_sides r' [QfpSide.TOP; QfpSide.BOTTOM]
              end).
    assert (HM : position_on_side q <= M).
    { subst M. rewrite Hm. destruct m; [now apply Hacc | |];
        now apply max_on_sides_ge. }
    destruct (scaled_slot_bounds (position_on_side q) M (pin_spacing g)
                (conj H0 HM) Hs) as [Ha Hb].
    split; [exact Ha|]. unfold Qdiv. change (/ 2)%Q with (1 # 2)%Q. lra. }
  assert (Hv_bound :
            In (side q) [QfpSide.LEFT; QfpSide.RIGHT] ->
            (0 <= inject_Z (position_on_side q) * pin_spacing g
             /\ inject_Z (position_on_side q) * pin_spacing g <= 2 * hih)%Q).
  { intros Hside. rewrite Hih.
    set (M := match QfpRenderer.mode r with
              | ACCURATE => QfpRenderer.pins_per_side r - 1
              | _ => QfpRenderer.max_on_sides r' [QfpSide.LEFT; QfpSide.RIGHT]
              end).
    assert (HM : position_on_side q <= M).
    { subst M. rewrite Hm. destruct m; [now apply Hacc | |];
        now apply max_on_sides_ge. }
    destruct (scaled_slot_bounds (position_on_side q) M (pin_spacing g)
                (conj H0 HM) Hs) as [Ha Hb].
    split; [exact Ha|]. unfold Qdiv. change (/ 2)%Q with (1 # 2)%Q. lra. }
  pose proof (qfp_get_position_side r' q pos Hget) as Hrange.
  unfold QfpRenderer.get_position, QfpRenderer.coord in Hget.
  rewrite Hg in Hget.
  change (QfpRenderer.half_inner_width r') with hiw in Hget.
  change (QfpRenderer.half_inner_height r') with hih in Hget.
  clearbody hw hh hiw hih. clear Hiw Hih Hq Hg. clearbody r'.
  assert (Hc : side q = 0 \/ side q = 1 \/ side q = 2 \/ side q = 3) by lia.
  unfold QfpSide.LEFT, QfpSide.BOTTOM, QfpSide.RIGHT, QfpSide.TOP in *.
  destruct Hc as [Hc | [Hc | [Hc | Hc]]]; rewrite Hc in Hget, Hh_bound, Hv_bound;
    cbv [js_index js_char Z.ltb Z.compare Z.to_nat Pos.to_nat Pos.iter_op Nat.add
         nth_error QfpRenderer.origins QfpRenderer.directions String.get] in Hget;
    cbn [fst snd] in Hget;
    inversion Hget; subst pos; clear Hget; cbn [x y dir];
    [ left | right; left | right; right; left | right; right; right ];
    (split; [exact Hc|]); (split; [reflexivity|]).
  - destruct Hv_bound as [Ha Hb]; [simpl; auto|].
    change (Qeq_bool 0 0) with true. change (Qeq_bool 1 0) with false.
    rewrite Hw. repeat split; lra.
  - destruct Hh_bound as [Ha Hb]; [simpl; auto|].
    change (Qeq_bool 0 0) with true. change (Qeq_bool 1 0) with false.
    rewrite Hh. repeat split; lra.
  - destruct Hv_bound as [Ha Hb]; [simpl; auto|].
    change (Qeq_bool 0 0) with true. change (Qeq_bool (-1) 0) with false.
    rewrite Hw. repeat split; lra.
  - destruct Hh_bound as [Ha Hb]; [simpl; auto|].
    change (Qeq_bool 0 0) with true. change (Qeq_bool (-1) 0) with false.
    rewrite Hh. repeat split; lra.
Qed.

Lemma qfp_pins_on_the_outline_witness :
  let r' := QfpRenderer.set_pins [io_pin 1 "PA0"; io_pin 2 "PA1"; io_pin 5 "PA4"]
                                 (qfp_renderer 40 COMPACT) in
  let q := {| side := 0; position_on_side := 1; qfp_pin := io_pin 1 "PA0" |} in
  exists pos,
    QfpRenderer.get_position r' q = Ok pos
    /\ dir pos = "R"%char
    /\ (x pos == - (QfpRenderer.half_width r' + 200))%Q.
Proof.
  intros r' q.
  destruct (QfpRenderer.get_position r' q) as [pos|] eqn:E;
    [|vm_compute in E; discriminate].
  exists pos. split; [reflexivity|].
  destruct (qfp_pins_on_the_outline default_geometry Unit.IO 40 COMPACT
              (qfp_renderer 40 COMPACT)
              [io_pin 1 "PA0"; io_pin 2 "PA1"; io_pin 5 "PA4"] q pos)
    as [H | [H | [H | H]]].
  - lia.
  - reflexivity.
  - intros p [<-|[<-|[<-|[]]]]; simpl; lia.
  - unfold Qle. simpl. lia.
  - left. reflexivity.
  - exact E.
  - destruct H as (_ & Hd & Hx & _). split; [exact Hd | exact Hx].
  - destruct H as (Hside & _). discriminate.
  - destruct H as (Hside & _). discriminate.
  - destruct H as (Hside & _). discriminate.
Defined.

(** ** What the pin lines carry *)

Lemma map_results_data {A D : Type} (f : A -> result Line) (data : Line -> D)
      (h : A -> D) (zs : list A) (lines : list Line) :
  map f zs = map Ok lines ->
  (forall z l, f z = Ok l -> data l = h z) ->
  map data lines = map h zs.
Proof.
  revert lines. induction zs as [|z zs IH]; intros [|l lines] H Hd;
    simpl in *; try discriminate; [reflexivity|].
  inversion H as [[Hz Hrest]].
  rewrite (Hd z l Hz), (IH lines Hrest Hd). reflexivity.
Qed.

Lemma map_mapi {A B C : Type} (f : A -> nat -> B) (g : B -> C) (h : A -> C)
      (xs : list A) :
  (forall a i, g (f a i) = h a) -> map g (mapi f xs) = map h xs.
Proof.
  intros H. unfold mapi. rewrite map_map.
  transitivity (map h (map snd (combine (seq 0 (List.length xs)) xs))).
  - rewrite map_map. apply map_ext. intros [i a]. apply H.
  - now rewrite map_combine_snd by apply length_seq.
Qed.

(** X6. Whatever the renderer, [render_pins] after [set_pins] draws each pin
    it was given exactly once: the lines it pushes carry the display names,
    positions and electrical types of these pins, with the unit of the
    renderer and the pin length of the geometry, and nothing else is
    pushed. *)
Theorem render_pins_keeps_every_pin (ps : list Pin) (r : Renderer)
        (out out' : list Line) :
  render_pins (set_pins ps r) out = Ok out' ->
  exists lines,
    out' = out ++ lines
    /\ Permutation (map line_data lines) (map (pin_data r) ps).
Proof.
  destruct r as [s|d|q]; cbn [render_pins set_pins]; intros H.
  - inversion H; subst. eexists. split; [reflexivity|].
    destruct (sip_set_pins_fields ps s) as (Hpins & _).
    rewrite (map_mapi _ line_data (pin_data (Sip s))) by reflexivity.
    rewrite Hpins. apply Permutation_map, sortBy_perm.
  - unfold DipRenderer.render_pins, mapi in H.
    apply push_all_inv in H. destruct H as [lines [Hl ->]].
    exists lines. split; [reflexivity|].
    destruct (dip_set_pins_fields ps d) as (Hpins & _).
    rewrite (map_results_data _ line_data
               (fun z => pin_data (Dip d) (snd z)) _ _ Hl).
    + rewrite <- map_map, map_combine_snd by apply length_seq.
      rewrite Hpins. apply Permutation_map, sortBy_perm.
    + intros [i p] l Hz. cbn [fst snd] in Hz.
      unfold DipRenderer.pin_line in Hz.
      destruct (DipRenderer.get_position _ i); inversion Hz.
      reflexivity.
  - unfold QfpRenderer.render_pins in H.
    apply push_all_inv in H. destruct H as [lines [Hl ->]].
    exists lines. split; [reflexivity|].
    rewrite (map_results_data _ line_data
               (fun z => pin_data (Qfp q) (qfp_pin z)) _ _ Hl).
    + rewrite <- map_map. apply Permutation_map, set_pins_perm.
    + intros z l Hz. unfold QfpRenderer.pin_line in Hz.
      destruct (QfpRenderer.get_position _ z); inversion Hz.
      reflexivity.
Qed.

Lemma render_pins_keeps_every_pin_witness :
  exists lines,
    render_pins (set_pins [PA13; PA0] (Dip (DipRenderer.new default_geometry 4))) []
    = Ok ([] ++ lines)
    /\ Permutation (map line_data lines)
                   [Some (None, 4, 200%Q, 4, unspecified);
                    Some (None, 2, 200%Q, 4, unspecified)].
Proof.
  destruct (render_pins
              (set_pins [PA13; PA0] (Dip (DipRenderer.new default_geometry 4))) [])
    as [out'|msg] eqn:E; [|vm_compute in E; discriminate].
  destruct (render_pins_keeps_every_pin _ _ _ _ E) as (lines & -> & Hperm).
  exists lines. split; [reflexivity | exact Hperm].
Defined.

(** ** The rows of the single-row and dual-row symbols *)

Lemma inject_nat_sub (a b : nat) :
  (b <= a)%nat ->
  (inject_Z (Z.of_nat (a - b)) == inject_Z (Z.of_nat a) - inject_Z (Z.of_nat b))%Q.
Proof.
  intros H. rewrite Nat2Z.inj_sub by exact H.
  unfold Z.sub. rewrite inject_Z_plus, inject_Z_opp. reflexivity.
Qed.

(** X7. The pins of the single-row renderer are centred on the rectangle:
    pin i and pin N - 1 - i are at opposite y, and every pin is within the
    inner height, hence, the margin not being negative, within the
    rectangle. *)
Theorem sip_pins_are_centred (r0 : SipRenderer.t) (ps : list Pin) (i : nat) :
  (i < List.length ps)%nat ->
  (0 <= pin_spacing (SipRenderer.geometry r0))%Q ->
  (0 <= margin_ip (SipRenderer.geometry r0))%Q ->
  let r := SipRenderer.set_pins ps r0 in
  let N := List.length ps in
  let pos := SipRenderer.get_position r in
  (y (pos i) + y (pos (N - 1 - i)%nat) == 0)%Q
  /\ (- SipRenderer.half_inner_height r <= y (pos i)
      <= SipRenderer.half_inner_height r)%Q
  /\ (- SipRenderer.half_height r <= y (pos i) <= SipRenderer.half_height r)%Q
  /\ (x (pos i)
      == SipRenderer.half_width r + pin_length (SipRenderer.geometry r0))%Q.
Proof.
  intros Hi Hs Hm r N pos.
  destruct (sip_set_pins_fields ps r0) as (_ & Hg & _ & _ & Hh).
  fold r in Hg, Hh. fold N in Hh.
  assert (Hy : forall j, (y (pos j) == - SipRenderer.half_inner_height r
                                       + pin_spacing (SipRenderer.geometry r0)
                                         * inject_Z (Z.of_nat j))%Q).
  { intros j. subst pos. unfold SipRenderer.get_position. cbn [y].
    now rewrite Hg. }
  assert (Hhh : (SipRenderer.half_height r
                 == SipRenderer.half_inner_height r
                    + pin_spacing (SipRenderer.geometry r0)
                      * margin_ip (SipRenderer.geometry r0))%Q).
  { subst r. unfold SipRenderer.set_pins, SipRenderer.calc_geometry.
    cbn [SipRenderer.half_height SipRenderer.half_inner_height
         SipRenderer.geometry]. reflexivity. }
  assert (Hmargin : (0 <= pin_spacing (SipRenderer.geometry r0)
                          * margin_ip (SipRenderer.geometry r0))%Q)
    by now apply Qmult_le_0_compat.
  assert (HN : (inject_Z (Z.of_nat (N - 1 - i))
                == inject_Z (Z.of_nat N) - 1 - inject_Z (Z.of_nat i))%Q).
  { rewrite !inject_nat_sub by lia. reflexivity. }
  assert (Hi0 : (0 <= pin_spacing (SipRenderer.geometry r0)
                      * inject_Z (Z.of_nat i))%Q)
    by (apply Qmult_le_0_compat; [exact Hs | apply inject_nat_nonneg]).
  assert (Hi1 : (pin_spacing (SipRenderer.geometry r0) * inject_Z (Z.of_nat i)
                 <= pin_spacing (SipRenderer.geometry r0)
                    * (inject_Z (Z.of_nat N) - 1))%Q).
  { rewrite !(Qmult_comm (pin_spacing _)).
    apply Qmult_le_compat_r; [|exact Hs].
    assert (H1 : (inject_Z (Z.of_nat i) + inject_Z 1 <= inject_Z (Z.of_nat N))%Q)
      by (rewrite <- inject_Z_plus, <- Zle_Qle; lia).
    change (inject_Z 1) with 1%Q in H1. lra. }
  rewrite Hhh, !Hy, HN, Hh.
  unfold Qdiv. change (/ 2)%Q with (1 # 2)%Q.
  set (s := pin_spacing (SipRenderer.geometry r0)) in *.
  set (a := inject_Z (Z.of_nat i)) in *.
  set (b := inject_Z (Z.of_nat N)) in *.
  set (mg := margin_ip (SipRenderer.geometry r0)) in *.
  split; [ring|].
  split; [split; lra|].
  split; [split; lra|].
  subst pos. unfold SipRenderer.get_position. cbn [x]. now rewrite Hg.
Qed.

Lemma sip_pins_are_centred_witness :
  let r := SipRenderer.set_pins [VDD; PA0; NRST] (SipRenderer.new default_geometry 2) in
  (y (SipRenderer.get_position r 0) + y (SipRenderer.get_position r 2) == 0)%Q
  /\ (y (SipRenderer.get_position r 0) == - (100))%Q.
Proof.
  intros r.
  destruct (sip_pins_are_centred (SipRenderer.new default_geometry 2)
              [VDD; PA0; NRST] 0) as (Hsym & _).
  - simpl. lia.
  - unfold Qle. simpl. lia.
  - unfold Qle. simpl. lia.
  - split; [exact Hsym | reflexivity].
Defined.

Lemma Qfloor_unique (q : Q) (z : Z) :
  (inject_Z z <= q)%Q -> (q < inject_Z (z + 1))%Q -> Qfloor q = z.
Proof.
  intros Hlo Hhi.
  assert (H1 : (inject_Z (Qfloor q) < inject_Z (z + 1))%Q)
    by (eapply Qle_lt_trans; [apply Qfloor_le | exact Hhi]).
  assert (H2 : (inject_Z z < inject_Z (Qfloor q + 1))%Q)
    by (eapply Qle_lt_trans; [exact Hlo | apply Qlt_floor]).
  rewrite <- Zlt_Qlt in H1, H2. lia.
Qed.

(** The first half of the indices is on side 0, the rest on side 1, where
    the index on the side restarts from the index less half the count. *)
Lemma dip_side_split (r : DipRenderer.t) (i : nat) :
  (i < List.length (DipRenderer.pins r))%nat ->
  let N := List.length (DipRenderer.pins r) in
  ((2 * i < N)%nat ->
   DipRenderer.side_of r i = 0
   /\ (DipRenderer.side_index_of r i == inject_Z (Z.of_nat i))%Q)
  /\ ((N <= 2 * i)%nat ->
      DipRenderer.side_of r i = 1
      /\ (DipRenderer.side_index_of r i
          == inject_Z (Z.of_nat i) - DipRenderer.half_count r)%Q).
Proof.
  intros Hi N.
  unfold DipRenderer.side_of, DipRenderer.side_index_of, Qrem, Qtrunc.
  set (half := DipRenderer.half_count r).
  set (a := inject_Z (Z.of_nat i)).
  assert (Hhalf : (half == inject_Z (Z.of_nat N) * (1 # 2))%Q) by reflexivity.
  assert (HN : (0 < inject_Z (Z.of_nat N))%Q).
  { change 0%Q with (inject_Z 0). rewrite <- Zlt_Qlt. lia. }
  assert (Hpos : (0 < half)%Q) by (rewrite Hhalf; lra).
  assert (Ha : (0 <= a)%Q) by apply inject_nat_nonneg.
  assert (HaN : (a + 1 <= inject_Z (Z.of_nat N))%Q).
  { subst a. change 1%Q with (inject_Z 1).
    rewrite <- inject_Z_plus, <- Zle_Qle. lia. }
  assert (Hq0 : (0 <= a / half)%Q).
  { apply Qle_shift_div_l; [exact Hpos | lra]. }
  apply Qle_bool_iff in Hq0 as Hb. rewrite Hb.
  split; intros Hcase.
  - assert (H2 : (2 * a + 1 <= inject_Z (Z.of_nat N))%Q).
    { subst a. change 2%Q with (inject_Z 2). change 1%Q with (inject_Z 1).
      rewrite <- inject_Z_mult, <- inject_Z_plus, <- Zle_Qle. lia. }
    assert (Hfloor : Qfloor (a / half) = 0).
    { apply Qfloor_unique; [exact Hq0|].
      apply Qlt_shift_div_r; [exact Hpos|].
      change (inject_Z (0 + 1)) with 1%Q. rewrite Hhalf. lra. }
    rewrite Hfloor. split; [reflexivity|]. change (inject_Z 0) with 0%Q. ring.
  - assert (H2 : (inject_Z (Z.of_nat N) <= 2 * a)%Q).
    { subst a. change 2%Q with (inject_Z 2).
      rewrite <- inject_Z_mult, <- Zle_Qle. lia. }
    assert (Hfloor : Qfloor (a / half) = 1).
    { apply Qfloor_unique.
      - apply Qle_shift_div_l; [exact Hpos|].
        change (inject_Z 1) with 1%Q. rewrite Hhalf. lra.
      - apply Qlt_shift_div_r; [exact Hpos|].
        change (inject_Z (1 + 1)) with 2%Q. rewrite Hhalf. lra. }
    rewrite Hfloor. split; [reflexivity|]. change (inject_Z 1) with 1%Q. ring.
Qed.

(** X8. The dual-row renderer puts the pins with 2 * i < N on the left row,
    pin i at y = -half_inner_height + pin_spacing * i, and the others on the
    right row at y = -half_inner_height + pin_spacing * (i - N / 2). With an
    even N pin i faces pin i + N / 2; with an odd N = 2 * h + 1 the left row
    has one pin more and pin i + h + 1 of the right row sits half a spacing
    above pin i. *)
Theorem dip_rows (r0 : DipRenderer.t) (ps : list Pin) (i : nat) :
  (i < List.length ps)%nat ->
  let g := DipRenderer.geometry r0 in
  let r := DipRenderer.set_pins ps r0 in
  let N := List.length ps in
  let base := (- DipRenderer.half_inner_height r)%Q in
  let edge := (DipRenderer.half_width r + pin_length g)%Q in
  (exists pos,
      DipRenderer.get_position r i = Some pos
      /\ ((2 * i < N)%nat ->
          dir pos = "R"%char /\ (x pos == - edge)%Q
          /\ (y pos == base + pin_spacing g * inject_Z (Z.of_nat i))%Q)
      /\ ((N <= 2 * i)%nat ->
          dir pos = "L"%char /\ (x pos == edge)%Q
          /\ (y pos == base + pin_spacing g
                              * (inject_Z (Z.of_nat i)
                                 - inject_Z (Z.of_nat N) / 2))%Q))
  /\ (forall h pos pos',
         N = (2 * h)%nat -> (i < h)%nat ->
         DipRenderer.get_position r i = Some pos ->
         DipRenderer.get_position r (i + h) = Some pos' ->
         (y pos' == y pos)%Q /\ (x pos' == - x pos)%Q)
  /\ (forall h pos pos',
         N = (2 * h + 1)%nat -> (i < h)%nat ->
         DipRenderer.get_position r i = Some pos ->
         DipRenderer.get_position r (i + h + 1) = Some pos' ->
         (y pos' == y pos + pin_spacing g / 2)%Q /\ (x pos' == - x pos)%Q).
Proof.
  intros Hi g r N base edge.
  destruct (dip_set_pins_fields ps r0) as (Hpins & Hg & _ & _ & Hc).
  fold r in Hpins, Hg, Hc. fold g in Hg. fold N in Hc.
  assert (Hlen : List.length (DipRenderer.pins r) = N)
    by (rewrite Hpins; apply sortBy_length).
  assert (Hpos : forall j,
             (j < N)%nat ->
             exists pos,
               DipRenderer.get_position r j = Some pos
               /\ ((2 * j < N)%nat ->
                   dir pos = "R"%char /\ (x pos == - edge)%Q
                   /\ (y pos == base + pin_spacing g * inject_Z (Z.of_nat j))%Q)
               /\ ((N <= 2 * j)%nat ->
                   dir pos = "L"%char /\ (x pos == edge)%Q
                   /\ (y pos == base + pin_spacing g
                                       * (inject_Z (Z.of_nat j)
                                          - inject_Z (Z.of_nat N) / 2))%Q)).
  { intros j Hj.
    assert (Hj' : (j < List.length (DipRenderer.pins r))%nat) by lia.
    destruct (dip_side_split r j Hj') as [Hleft Hright].
    cbv zeta in Hleft, Hright. rewrite Hlen in Hleft, Hright.
    eexists. split; [apply DipRenderer_get_position_defined; exact Hj'|].
    cbn [x y dir]. rewrite Hg. fold edge base.
    split; intros Hcase.
    - destruct (Hleft Hcase) as [-> ->]. cbn [Z.eqb].
      split; [reflexivity|]. split; [ring | reflexivity].
    - destruct (Hright Hcase) as [-> ->]. cbn [Z.eqb]. rewrite Hc.
      split; [reflexivity|]. split; [ring | reflexivity]. }
  split; [now apply Hpos|].
  split.
  - intros h pos pos' HN Hh Hp Hp'.
    destruct (Hpos i ltac:(lia)) as (p & Hgp & Hl & _).
    destruct (Hpos (i + h)%nat ltac:(lia)) as (p' & Hgp' & _ & Hr).
    rewrite Hp in Hgp. rewrite Hp' in Hgp'.
    inversion Hgp; inversion Hgp'; subst p p'.
    destruct (Hl ltac:(lia)) as (_ & Hx & Hy).
    destruct (Hr ltac:(lia)) as (_ & Hx' & Hy').
    rewrite Hx, Hx', Hy, Hy'. split; [|ring].
    rewrite HN, Nat2Z.inj_add, Nat2Z.inj_mul, inject_Z_plus, inject_Z_mult.
    simpl (Z.of_nat 2). field.
  - intros h pos pos' HN Hh Hp Hp'.
    destruct (Hpos i ltac:(lia)) as (p & Hgp & Hl & _).
    destruct (Hpos (i + h + 1)%nat ltac:(lia)) as (p' & Hgp' & _ & Hr).
    rewrite Hp in Hgp. rewrite Hp' in Hgp'.
    inversion Hgp; inversion Hgp'; subst p p'.
    destruct (Hl ltac:(lia)) as (_ & Hx & Hy).
    destruct (Hr ltac:(lia)) as (_ & Hx' & Hy').
    rewrite Hx, Hx', Hy, Hy'. split; [|ring].
    rewrite HN, !Nat2Z.inj_add, Nat2Z.inj_mul, !inject_Z_plus, inject_Z_mult.
    simpl (Z.of_nat 2). simpl (Z.of_nat 1). field.
Qed.

Lemma dip_rows_witness :
  let r := DipRenderer.set_pins [VDD; PA0; NRST]
                                (DipRenderer.new default_geometry 4) in
  exists pos pos',
    DipRenderer.get_position r 0 = Some pos
    /\ DipRenderer.get_position r 2 = Some pos'
    /\ (y pos' == y pos + 100 / 2)%Q.
Proof.
  intros r.
  destruct (DipRenderer.get_position r 0) as [pos|] eqn:E0;
    [|vm_compute in E0; discriminate].
  destruct (DipRenderer.get_position r 2) as [pos'|] eqn:E2;
    [|vm_compute in E2; discriminate].
  exists pos, pos'. split; [reflexivity|]. split; [reflexivity|].
  destruct (dip_rows (DipRenderer.new default_geometry 4) [VDD; PA0; NRST] 0)
    as (_ & _ & Hodd).
  - simpl. lia.
  - destruct (Hodd 1%nat pos pos' eq_refl ltac:(lia) E0 E2) as [Hy _].
    exact Hy.
Defined.

(** ** Blocks *)

(** X9. A block without pins is still drawn: its renderer pushes the
    rectangle of its unit and no pin line. For the single-row and dual-row
    renderers the half height is then (margin_ip - 1/2) * pin_spacing, the
    inner half height being negative; for the quad-flat renderer the inner
    half sizes are those of total_pins / 4 - 1 slots in accurate mode and 0
    in the other modes. *)
Theorem empty_block_rectangle (r : Renderer) (out : list Line) :
  exists hw hh,
    render_pins (set_pins [] r) (render_block (set_pins [] r) out)
    = Ok (out ++ [SLine hw hh (unit_of r)])
    /\ match r with
       | Sip s =>
           let g := SipRenderer.geometry s in
           (hw == width_sip g / 2)%Q
           /\ (hh == (margin_ip g - (1 # 2)) * pin_spacing g)%Q
       | Dip d =>
           let g := DipRenderer.geometry d in
           (hw == width_dip g / 2)%Q
           /\ (hh == (margin_ip g - (1 # 2)) * pin_spacing g)%Q
       | Qfp q =>
           let g := QfpRenderer.geometry q in
           let slots := match QfpRenderer.mode q with
                        | ACCURATE => QfpRenderer.total_pins q / 4 - 1
                        | _ => 0
                        end in
           (hw == (inject_Z slots / 2 + margin_qfp g) * pin_spacing g)%Q
           /\ (hh == (inject_Z slots / 2 + margin_qfp g) * pin_spacing g)%Q
       end.
Proof.
  destruct r as [s|d|q].
  - exists (SipRenderer.half_width (SipRenderer.set_pins [] s)),
      (SipRenderer.half_height (SipRenderer.set_pins [] s)).
    split; [cbn; now rewrite app_nil_r|].
    cbn [SipRenderer.set_pins SipRenderer.calc_geometry sortBy fold_right
         SipRenderer.half_width SipRenderer.half_height SipRenderer.pins
         SipRenderer.geometry List.length Z.of_nat].
    split; [reflexivity|]. change (inject_Z 0) with 0%Q. field.
  - eexists; eexists. split; [reflexivity|].
    cbn [DipRenderer.set_pins DipRenderer.calc_geometry sortBy fold_right
         DipRenderer.half_width DipRenderer.half_height DipRenderer.pins
         DipRenderer.geometry DipRenderer.half_count List.length Z.of_nat].
    split; [reflexivity|].
    match goal with
    | |- context [Qceiling ?c] => change (Qceiling c) with 0
    end.
    change (inject_Z 0) with 0%Q. field.
  - eexists; eexists. split; [reflexivity|].
    unfold QfpRenderer.set_pins, QfpRenderer.calc_geometry,
      QfpRenderer.pins_per_side.
    cbn [QfpRenderer.half_width QfpRenderer.half_height QfpRenderer.mode
         QfpRenderer.geometry QfpRenderer.total_pins].
    destruct (QfpRenderer.mode q);
      try change (QfpRenderer.max_on_sides _ _) with 0;
      split; field.
Qed.

Lemma deref_app (st : Store) (l1 l2 : list pin_ref) :
  deref st (l1 ++ l2) = deref st l1 ++ deref st l2.
Proof. unfold deref. apply flat_map_app. Qed.

Lemma deref_unchanged (st st' : Store) (refs : list pin_ref) :
  (forall j, In j refs -> get_pin st' j = get_pin st j) ->
  deref st' refs = deref st refs.
Proof.
  intros H. unfold deref. apply flat_map_ext_members.
  intros j Hj. now rewrite H.
Qed.

(** X10. The last block a pin is added to is the one that renders it: a
    pin added to one block and then to another stays in the list of the
    first, which no longer hands it to its renderer. *)
Theorem last_block_wins (st : Store) (i : pin_ref) (p : Pin)
        (b1 b2 : block_ref) :
  get_pin st i = Some p ->
  b1 <> b2 ->
  ~ In i (Block.pins (block_at st b1)) ->
  ~ In i (Block.pins (block_at st b2)) ->
  let st' := Block_add b2 i (Block_add b1 i st) in
  In i (Block.pins (block_at st' b1))
  /\ get_pin st' i = Some (with_block (Some b2) p)
  /\ render_input st' b1 = render_input st b1
  /\ render_input st' b2 = render_input st b2 ++ [with_block (Some b2) p].
Proof.
  intros Hp Hb H1 H2 st'.
  assert (Hget : forall j,
             get_pin st' j
             = if Nat.eqb j i then Some (with_block (Some b2) p) else get_pin st j).
  { intros j. subst st'. rewrite !get_pin_add.
    destruct (Nat.eqb j i) eqn:E; [|reflexivity].
    rewrite Nat.eqb_refl, Hp. reflexivity. }
  assert (Hpins1 : Block.pins (block_at st' b1) = Block.pins (block_at st b1) ++ [i]).
  { subst st'. rewrite !block_at_add.
    rewrite (proj2 (Nat.eqb_neq b1 b2) Hb), Nat.eqb_refl. reflexivity. }
  assert (Hpins2 : Block.pins (block_at st' b2) = Block.pins (block_at st b2) ++ [i]).
  { subst st'. rewrite !block_at_add.
    rewrite Nat.eqb_refl. simpl.
    now rewrite (proj2 (Nat.eqb_neq b2 b1) (not_eq_sym Hb)). }
  assert (Hderef : forall refs,
             ~ In i refs ->
             deref st' (refs ++ [i])
             = deref st refs ++ [with_block (Some b2) p]).
  { intros refs Hn. rewrite deref_app. f_equal.
    - apply deref_unchanged. intros j Hj. rewrite Hget.
      destruct (Nat.eqb j i) eqn:E; [|reflexivity].
      apply Nat.eqb_eq in E. subst j. contradiction.
    - unfold deref. simpl. now rewrite Hget, Nat.eqb_refl. }
  split; [rewrite Hpins1; apply in_or_app; right; now left|].
  split; [now rewrite Hget, Nat.eqb_refl|].
  unfold render_input. rewrite Hpins1, Hpins2, !Hderef by assumption.
  rewrite !filter_app. cbn [filter owned_by block with_block].
  rewrite Nat.eqb_refl, (proj2 (Nat.eqb_neq b2 b1) (not_eq_sym Hb)).
  split; [apply app_nil_r | reflexivity].
Qed.

Lemma last_block_wins_witness :
  let st' := Block_add 1%nat 0%nat (Block_add 0%nat 0%nat (store_of [PA0])) in
  Block.pins (block_at st' 0%nat) = [0%nat]
  /\ render_input st' 0%nat = []
  /\ render_input st' 1%nat = [with_block (Some 1%nat) PA0].
Proof.
  intros st'.
  destruct (last_block_wins (store_of [PA0]) 0%nat PA0 0%nat 1%nat eq_refl)
    as (_ & _ & H1 & H2).
  - discriminate.
  - simpl. tauto.
  - simpl. tauto.
  - split; [reflexivity|]. split; [exact H1 | exact H2].
Defined.

(** ** What is dropped and what is drawn *)

Lemma spec_rule_drop_iff (options : Options) (p : Pin) :
  spec_rule options p = DropRule
  <-> (separate_power options && String.eqb (config_type p) "Power" = false
       /\ separate_config options && negb (String.eqb (config_type p) "I/O")
          = false
       /\ assigned p = false
       /\ drop_unassigned options = true).
Proof.
  unfold spec_rule. cbn [find rule_applies].
  destruct (separate_power options && String.eqb (config_type p) "Power");
    [split; [discriminate | intros (H & _); discriminate]|].
  destruct (separate_config options && negb (String.eqb (config_type p) "I/O"));
    [split; [discriminate | intros (_ & H & _); discriminate]|].
  destruct (assigned p), (separate_unassigned options),
    (drop_unassigned options); simpl; split; try discriminate; try tauto;
    intros (_ & _ & H1 & H2); discriminate.
Qed.

(** X11. The loop body leaves a pin out of every block exactly when
    [drop_unassigned] is set, the pin is unassigned, and neither the power
    rule nor the config rule takes it; [separate_unassigned] plays no part
    then. With [drop_unassigned] unset every pin goes to a block. *)
Theorem pin_is_dropped_iff (options : Options) (blocks : Blocks) (st : Store)
        (i : pin_ref) (p : Pin) :
  get_pin st i = Some p ->
  ((forall b, block_at (classify options blocks i st) b = block_at st b)
   <-> (separate_power options && String.eqb (config_type p) "Power" = false
        /\ separate_config options && negb (String.eqb (config_type p) "I/O")
           = false
        /\ assigned p = false
        /\ drop_unassigned options = true))
  /\ (drop_unassigned options = false ->
      exists b, Block.pins (block_at (classify options blocks i st) b)
                = Block.pins (block_at st b) ++ [i]).
Proof.
  intros Hp.
  assert (Hadd : forall e b0,
             spec_outcome blocks (spec_rule options p) = Some (e, b0) ->
             Block.pins (block_at (classify options blocks i st) b0)
             = Block.pins (block_at st b0) ++ [i]).
  { intros e b0 Ho. rewrite (classify_block_at _ _ _ _ _ _ Hp).
    unfold assigned_to. now rewrite Ho, Nat.eqb_refl. }
  split.
  - rewrite <- spec_rule_drop_iff. split.
    + intros Hsame.
      destruct (spec_outcome blocks (spec_rule options p)) as [[e b0]|] eqn:Ho.
      * specialize (Hadd e b0 eq_refl). rewrite Hsame in Hadd.
        apply (f_equal (@List.length pin_ref)) in Hadd.
        rewrite length_app in Hadd. simpl in Hadd. lia.
      * now destruct (spec_rule options p).
    + intros Hdrop b. rewrite (classify_block_at _ _ _ _ _ _ Hp).
      unfold assigned_to. now rewrite Hdrop.
  - intros Hd.
    destruct (spec_outcome blocks (spec_rule options p)) as [[e b0]|] eqn:Ho.
    + exists b0. now apply (Hadd e).
    + assert (Hr : spec_rule options p = DropRule)
        by now destruct (spec_rule options p).
      apply spec_rule_drop_iff in Hr. destruct Hr as (_ & _ & _ & Hr).
      congruence.
Qed.

Lemma pin_is_dropped_iff_witness :
  map (block_at (classify dropping_options four_blocks 3%nat
                          (store_of [VDD; PA0; NRST; PA13])))
      [0; 1; 2; 3]%nat
  = map (block_at (store_of [VDD; PA0; NRST; PA13])) [0; 1; 2; 3]%nat.
Proof.
  pose proof (proj2 (proj1 (pin_is_dropped_iff dropping_options four_blocks
                              (store_of [VDD; PA0; NRST; PA13]) 3%nat PA13
                              eq_refl))) as H.
  cbn [map]. rewrite !H by (repeat split). reflexivity.
Defined.

Lemma push_new_In (order : list block_ref) (x b : block_ref) :
  In b (push_new order x) <-> In b order \/ b = x.
Proof.
  unfold push_new. destruct (existsb (Nat.eqb x) order) eqn:E.
  - split; [auto|]. intros [H | ->]; [exact H|].
    apply existsb_exists in E. destruct E as [y [Hy Heq]].
    apply Nat.eqb_eq in Heq. now subst y.
  - rewrite in_app_iff. simpl. intuition congruence.
Qed.

Lemma block_order_of_In (blocks : Blocks) (b : block_ref) :
  In b (block_order_of blocks)
  <-> b = io_block blocks \/ b = power_block blocks
      \/ b = config_block blocks \/ b = unassigned_block blocks.
Proof.
  unfold block_order_of. cbn [fold_left].
  rewrite !push_new_In. simpl. tauto.
Qed.

Lemma list_sum_indicator (order : list block_ref) (b0 : block_ref) :
  NoDup order -> In b0 order ->
  list_sum (map (fun b => if Nat.eqb b0 b then 1 else 0)%nat order) = 1%nat.
Proof.
  induction 1 as [|b order Hnotin Hnd IH]; [intros []|].
  intros [-> | Hin]; simpl.
  - rewrite Nat.eqb_refl. f_equal.
    clear IH Hnd. induction order as [|c order IH]; [reflexivity|].
    simpl. destruct (Nat.eqb_spec b0 c) as [->|Hne].
    + exfalso. apply Hnotin. now left.
    + apply IH. intros H. apply Hnotin. now right.
  - destruct (Nat.eqb_spec b0 b) as [->|Hne]; [contradiction|].
    now apply IH.
Qed.

Lemma list_sum_zero {A : Type} (l : list A) :
  list_sum (map (fun _ => 0%nat) l) = 0%nat.
Proof. induction l; simpl; auto. Qed.

Lemma list_sum_add {A : Type} (f g : A -> nat) (l : list A) :
  list_sum (map (fun a => f a + g a)%nat l)
  = (list_sum (map f l) + list_sum (map g l))%nat.
Proof. induction l as [|a l IH]; simpl; [reflexivity | rewrite IH; lia]. Qed.

(** Over the distinct blocks, each kept pin is counted once. *)
Lemma assigned_pins_total (options : Options) (blocks : Blocks) (ps : list Pin) :
  list_sum (map (fun b => List.length (filter (assigned_to options blocks b) ps))
                (block_order_of blocks))
  = List.length (filter (kept options) ps).
Proof.
  induction ps as [|p ps IH].
  - simpl. apply list_sum_zero.
  - transitivity
      (list_sum
         (map (fun b => (if assigned_to options blocks b p then 1 else 0)
                        + List.length (filter (assigned_to options blocks b) ps))%nat
              (block_order_of blocks))).
    { f_equal. apply map_ext. intros b. simpl.
      now destruct (assigned_to options blocks b p). }
    rewrite list_sum_add, IH. simpl.
    unfold assigned_to, kept.
    destruct (spec_rule options p) eqn:Hr; cbn [spec_outcome];
      try (rewrite list_sum_indicator;
           [reflexivity | apply block_order_of_NoDup
            | apply block_order_of_In; tauto]).
    rewrite list_sum_zero. reflexivity.
Qed.

Lemma render_symbol_output (out : list Line) (options : Options)
      (blocks : Blocks) (st : Store) (out' : list Line) (st' : Store) :
  render_symbol out options blocks st = Ok (out', st') ->
  exists bodies,
    out' = out ++ header st (List.length (block_order_of blocks))
               ++ List.concat bodies ++ footer
    /\ Forall2 (block_lines (classify_all options blocks st))
               (block_order_of blocks) bodies.
Proof.
  intros H. unfold render_symbol in H.
  destruct (classify_all_spec options blocks st) as (_ & Hname & Hpkg & _).
  rewrite Hname, Hpkg in H.
  fold (header st (List.length (block_order_of blocks))) in H.
  destruct (render_blocks (block_order_of blocks)
              (out ++ header st (List.length (block_order_of blocks)))
              (classify_all options blocks st))
    as [[out1 st1]|msg] eqn:Hr; simpl in H; [|discriminate].
  inversion H; subst out' st'. clear H.
  apply render_blocks_spec in Hr; [|apply block_order_of_NoDup].
  destruct Hr as (_ & _ & bodies & -> & Hbodies).
  exists bodies. split; [now rewrite <- !app_assoc | exact Hbodies].
Qed.

Lemma bodies_length (st : Store) (order : list block_ref)
      (bodies : list (list Line)) :
  Forall2 (block_lines st) order bodies ->
  List.length (List.concat bodies)
  = (List.length order
     + list_sum (map (fun b => List.length (render_input st b)) order))%nat.
Proof.
  induction 1 as [|b lines order bodies Hb Hrest IH]; [reflexivity|].
  destruct Hb as (hw & hh & xs & -> & _ & Hlen).
  simpl. rewrite length_app, IH, Hlen. lia.
Qed.

(** X12. Started with blocks that hold no pin, [render_symbol] pushes the
    eight lines of the head, one rectangle per distinct block, one pin line
    per pin that a rule keeps, however the four blocks coincide, and the
    three lines of the foot. *)
Theorem render_symbol_line_count
        (out : list Line) (options : Options) (blocks : Blocks)
        (st : Store) (out' : list Line) (st' : Store) :
  (forall b, Block.pins (block_at st b) = []) ->
  render_symbol out options blocks st = Ok (out', st') ->
  List.length out'
  = (List.length out + 8 + List.length (block_order_of blocks)
     + List.length (filter (kept options) (CubeFile.pins (cubefile st)))
     + 3)%nat
  /\ List.length (filter is_XLine (skipn (List.length out) out'))
     = List.length (filter (kept options) (CubeFile.pins (cubefile st))).
Proof.
  intros Hfresh H.
  apply render_symbol_output in H. destruct H as (bodies & -> & Hbodies).
  pose proof (bodies_length _ _ _ Hbodies) as Hlen.
  assert (Hsum :
            list_sum (map (fun b =>
                             List.length
                               (render_input (classify_all options blocks st) b))
                          (block_order_of blocks))
            = List.length (filter (kept options) (CubeFile.pins (cubefile st)))).
  { rewrite <- assigned_pins_total with (blocks := blocks).
    f_equal. apply map_ext. intros b.
    unfold render_input.
    rewrite (pins_rendered_by options blocks st b (Hfresh b)).
    apply length_map. }
  split.
  - rewrite !length_app, Hlen, Hsum. simpl. lia.
  - rewrite skipn_app, skipn_all, Nat.sub_diag. cbn [skipn app].
    unfold header, footer. cbn [filter is_XLine app].
    rewrite filter_app. cbn [filter is_XLine]. rewrite app_nil_r.
    rewrite <- Hsum. clear Hlen Hsum.
    induction Hbodies as [|b lines order bodies Hb Hrest IH]; [reflexivity|].
    destruct Hb as (hw & hh & xs & -> & Hx & Hl).
    cbn [List.concat app filter is_XLine map list_sum].
    rewrite filter_app, length_app, IH.
    rewrite (filter_all is_XLine xs), Hl; [reflexivity|].
    intros l Hin. rewrite forallb_forall in Hx. now apply Hx.
Qed.

Lemma render_symbol_line_count_witness :
  exists out' st',
    render_symbol [] dropping_options four_blocks (store_of [VDD; PA0; NRST; PA13])
    = Ok (out', st')
    /\ List.length out' = (0 + 8 + 4 + 3 + 3)%nat.
Proof.
  destruct (render_symbol [] dropping_options four_blocks
              (store_of [VDD; PA0; NRST; PA13]))
    as [[out' st']|msg] eqn:E; [|vm_compute in E; discriminate].
  exists out', st'. split; [reflexivity|].
  assert (Hfresh : forall b,
             Block.pins (block_at (store_of [VDD; PA0; NRST; PA13]) b) = [])
    by (intros [|[|[|b]]]; reflexivity).
  destruct (render_symbol_line_count _ _ _ _ _ _ Hfresh E) as [Hlen _].
  exact Hlen.
Defined.

(** ** The script *)

Lemma create_io_block_with_initialised (options : Options) (cf : CubeFile.t) :
  create_io_block_with options (Some cf) = create_io_block options cf.
Proof. unfold create_io_block_with, create_io_block. now destruct (io_style options). Qed.

Lemma dip_render_pins_ok (d : DipRenderer.t) (out : list Line) :
  exists lines, DipRenderer.render_pins d out = Ok (out ++ lines).
Proof.
  set (line := fun (p : Pin) (j : nat) =>
                 match DipRenderer.get_position d j with
                 | Some pos =>
                     XLine (display_name p) (position p) (x pos) (- y pos)%Q
                           (pin_length (DipRenderer.geometry d)) (dir pos)
                           (DipRenderer.unit d) (elec_type p)
                 | None => EmptyLine
                 end).
  exists (mapi line (DipRenderer.pins d)).
  unfold DipRenderer.render_pins. apply push_all_mapi_ok.
  intros p j Hj. unfold DipRenderer.pin_line, line.
  assert (Hj' : (j < List.length (DipRenderer.pins d))%nat)
    by (apply nth_error_Some; congruence).
  now rewrite (DipRenderer_get_position_defined d j Hj').
Qed.

Lemma row_renderer_set_pins (ps : list Pin) (r : Renderer) :
  row_renderer (set_pins ps r) = row_renderer r.
Proof. now destruct r. Qed.

Lemma row_render_pins_ok (r : Renderer) (out : list Line) :
  row_renderer r = true -> exists out', render_pins r out = Ok out'.
Proof.
  destruct r as [s|d|q]; simpl; intros H; [| |discriminate].
  - eexists; reflexivity.
  - destruct (dip_render_pins_ok d out) as [lines ->]. eexists; reflexivity.
Qed.

Lemma Block_render_rows (b : block_ref) (out : list Line) (st : Store) :
  row_renderer (Block.renderer (block_at st b)) = true ->
  exists out' st',
    Block_render b out st = Ok (out', st')
    /\ (forall b', row_renderer (Block.renderer (block_at st' b'))
                   = row_renderer (Block.renderer (block_at st b'))).
Proof.
  intros Hrow. unfold Block_render.
  set (renderer := set_pins _ (Block.renderer (block_at st b))).
  assert (Hr : row_renderer renderer = true)
    by (subst renderer; now rewrite row_renderer_set_pins).
  destruct (row_render_pins_ok renderer (render_block renderer out) Hr)
    as [out' ->].
  eexists; eexists. split; [reflexivity|].
  intros b'. simpl. destruct (Nat.eqb b' b) eqn:E; [|reflexivity].
  apply Nat.eqb_eq in E. subst b'. simpl. congruence.
Qed.

Lemma render_blocks_rows (order : list block_ref) (out : list Line) (st : Store) :
  (forall b, In b order -> row_renderer (Block.renderer (block_at st b)) = true) ->
  exists out' st', render_blocks order out st = Ok (out', st').
Proof.
  revert out st. induction order as [|b order IH]; intros out st Hrows; simpl.
  - eexists; eexists; reflexivity.
  - destruct (Block_render_rows b out st (Hrows b (or_introl eq_refl)))
      as (out1 & st1 & -> & Hkeep).
    simpl. apply IH. intros b' Hb'. rewrite Hkeep. apply Hrows. now right.
Qed.

(** X13. With a quad-flat style, which is the default, the script throws
    when it creates the IO block, because [create_io_block] reads the global
    [cubefile] before the statement that initialises it: whatever the input
    files, nothing is loaded, rendered or written. With the sip style the
    script does not fail once the file is loaded, and writes the 8 lines of
    the head, 4 rectangles, one line per pin of the file and the 3 lines of
    the foot. *)
Theorem script_outcome (style : IoStyle) (loaded : result CubeFile.t) :
  match style with
  | qfp mode => exists msg, script style loaded = Throw msg
  | sip =>
      match loaded with
      | Throw msg => script style loaded = Throw msg
      | Ok cf =>
          exists lines,
            script style loaded = Ok lines
            /\ List.length lines = (15 + List.length (CubeFile.pins cf))%nat
            /\ List.length (filter is_XLine lines)
               = List.length (CubeFile.pins cf)
      end
  end.
Proof.
  destruct style as [mode|]; [eexists; reflexivity|].
  destruct loaded as [cf|msg]; [|reflexivity].
  unfold script. cbn [create_io_block_with program_options io_style bind geometry].
  set (options := program_options sip).
  set (st := script_store _ _ _ _ cf).
  assert (Hfresh : forall b, Block.pins (block_at st b) = [])
    by (intros [|[|[|b]]]; reflexivity).
  assert (Hkept : filter (kept options) (CubeFile.pins cf) = CubeFile.pins cf).
  { apply filter_all. intros p _. unfold kept.
    destruct (spec_rule options p) eqn:Hr; try reflexivity.
    apply spec_rule_drop_iff in Hr. destruct Hr as (_ & _ & _ & Hr). discriminate. }
  destruct (render_symbol [] options four_blocks st) as [[out' st']|msg] eqn:E.
  - exists out'. split; [reflexivity|].
    destruct (render_symbol_output _ _ _ _ _ _ E) as (bodies & Hout & Hbodies).
    pose proof (bodies_length _ _ _ Hbodies) as Hlen.
    assert (Hsum :
              list_sum
                (map (fun b =>
                        List.length
                          (render_input (classify_all options four_blocks st) b))
                     (block_order_of four_blocks))
              = List.length (CubeFile.pins cf)).
    { transitivity (List.length (filter (kept options) (CubeFile.pins cf)));
        [|now rewrite Hkept].
      rewrite <- assigned_pins_total with (blocks := four_blocks).
      f_equal. apply map_ext. intros b. unfold render_input.
      rewrite (pins_rendered_by options four_blocks st b (Hfresh b)).
      apply length_map. }
    cbn [fst]. rewrite Hout. split.
    + rewrite !length_app, Hlen, Hsum. unfold header, footer.
      cbn [List.length].
      change (List.length (block_order_of four_blocks)) with 4%nat. lia.
    + cbn [app]. unfold header, footer. cbn [filter is_XLine app].
      rewrite filter_app. cbn [filter is_XLine]. rewrite app_nil_r.
      rewrite <- Hsum. clear Hlen Hsum Hout.
      induction Hbodies as [|b lines order bodies Hb Hrest IH]; [reflexivity|].
      destruct Hb as (hw & hh & xs & -> & Hx & Hl).
      cbn [List.concat app filter is_XLine map list_sum].
      rewrite filter_app, length_app, IH.
      rewrite (filter_all is_XLine xs), Hl; [reflexivity|].
      intros l Hin. rewrite forallb_forall in Hx. now apply Hx.
  - exfalso. unfold render_symbol in E.
    destruct (render_blocks_rows (block_order_of four_blocks)
                ([] ++ header (classify_all options four_blocks st)
                              (List.length (block_order_of four_blocks)))
                (classify_all options four_blocks st)) as (o & s & Hr).
    + intros b _.
      destruct (classify_all_spec options four_blocks st) as (_ & _ & _ & Hb).
      destruct (Hb b) as [-> _]. now destruct b as [|[|[|b]]].
    + unfold header in Hr. rewrite Hr in E. discriminate.
Qed.

(** ** Maps *)

Section JsMapFacts.
Context {K V : Type} (eqb : K -> K -> bool).
Hypothesis eqb_eq : forall a b, eqb a b = true <-> a = b.

Lemma eqb_same (a : K) : eqb a a = true.
Proof. now apply eqb_eq. Qed.

Lemma map_get_set (k k' : K) (v : V) (m : list (K * V)) :
  map_get eqb k (map_set eqb k' v m)
  = if eqb k k' then Some v else map_get eqb k m.
Proof.
  induction m as [|[k0 v0] m IH]; simpl.
  - reflexivity.
  - destruct (eqb k' k0) eqn:E; simpl.
    + apply eqb_eq in E. subst k0. now destruct (eqb k k').
    + rewrite IH. destruct (eqb k k0) eqn:E0; [|reflexivity].
      destruct (eqb k k') eqn:E1; [|reflexivity].
      apply eqb_eq in E0, E1. subst k0 k'.
      rewrite eqb_same in E. discriminate.
Qed.

Lemma map_get_In (k : K) (m : list (K * V)) :
  (exists v, map_get eqb k m = Some v) <-> In k (map fst m).
Proof.
  induction m as [|[k0 v0] m IH]; simpl.
  - split; [intros [v H]; discriminate | intros []].
  - destruct (eqb k k0) eqn:E.
    + apply eqb_eq in E. subst k0. split; [auto | intros _; eexists; reflexivity].
    + rewrite IH. split; [auto|]. intros [H|H]; [|exact H].
      subst k0. rewrite eqb_same in E. discriminate.
Qed.

Lemma map_set_keys (k : K) (v : V) (m : list (K * V)) :
  map fst (map_set eqb k v m)
  = if map_has eqb k m then map fst m else map fst m ++ [k].
Proof.
  unfold map_has.
  induction m as [|[k0 v0] m IH]; simpl; [reflexivity|].
  destruct (eqb k k0) eqn:E; simpl; [reflexivity|].
  rewrite IH. now destruct (map_get eqb k m).
Qed.

Lemma map_set_NoDup (k : K) (v : V) (m : list (K * V)) :
  NoDup (map fst m) -> NoDup (map fst (map_set eqb k v m)).
Proof.
  intros H. rewrite map_set_keys. unfold map_has.
  destruct (map_get eqb k m) as [v0|] eqn:E; [exact H|].
  apply NoDup_app; [exact H | repeat constructor; simpl; tauto|].
  intros a Ha [->|[]].
  apply map_get_In in Ha. destruct Ha as [v1 Hv]. congruence.
Qed.

Lemma map_set_In (k : K) (v : V) (m : list (K * V)) (e : K * V) :
  In e (map_set eqb k v m) -> e = (k, v) \/ In e m.
Proof.
  induction m as [|[k0 v0] m IH]; simpl.
  - intros [<-|[]]. now left.
  - destruct (eqb k k0) eqn:E; simpl.
    + apply eqb_eq in E. subst k0. intros [<-|H]; auto.
    + intros [<-|H]; auto. destruct (IH H); auto.
Qed.

Lemma map_get_new_map_snoc (k k' : K) (v : V) (entries : list (K * V)) :
  map_get eqb k (new_map eqb (entries ++ [(k', v)]))
  = if eqb k k' then Some v else map_get eqb k (new_map eqb entries).
Proof.
  unfold new_map. rewrite fold_left_app. simpl. apply map_get_set.
Qed.

Lemma lookup_last_snoc (k k' : K) (v : V) (entries : list (K * V)) :
  lookup_last eqb k (entries ++ [(k', v)])
  = if eqb k k' then Some v else lookup_last eqb k entries.
Proof.
  induction entries as [|[k0 v0] entries IH]; simpl.
  - reflexivity.
  - rewrite IH. now destruct (eqb k k').
Qed.

(** [get] on a map built from entries gives the value of the last entry
    with the key. *)
Lemma map_get_new_map (k : K) (entries : list (K * V)) :
  map_get eqb k (new_map eqb entries) = lookup_last eqb k entries.
Proof.
  induction entries as [|[k' v] entries IH] using rev_ind; [reflexivity|].
  now rewrite map_get_new_map_snoc, lookup_last_snoc, IH.
Qed.

Lemma lookup_last_In (k : K) (entries : list (K * V)) :
  (exists v, lookup_last eqb k entries = Some v) <-> In k (map fst entries).
Proof.
  induction entries as [|[k0 v0] entries IH]; simpl.
  - split; [intros [v H]; discriminate | intros []].
  - destruct (lookup_last eqb k entries) as [v'|] eqn:E.
    + split; [|intros _; eexists; reflexivity].
      intros _. right. apply IH. eexists; reflexivity.
    + destruct (eqb k k0) eqn:E0.
      * apply eqb_eq in E0. subst k0.
        split; [auto | intros _; eexists; reflexivity].
      * split; [intros [v H]; discriminate|].
        intros [H|H]; [subst k0; rewrite eqb_same in E0; discriminate|].
        apply IH in H. destruct H as [v H]. discriminate.
Qed.

Lemma map_has_new_map (k : K) (entries : list (K * V)) :
  map_has eqb k (new_map eqb entries) = true <-> In k (map fst entries).
Proof.
  unfold map_has. rewrite map_get_new_map, <- lookup_last_In.
  destruct (lookup_last eqb k entries) as [v|].
  - split; [intros _; eexists; reflexivity | reflexivity].
  - split; [discriminate | intros [v H]; discriminate].
Qed.

End JsMapFacts.

(** ** Loading the file *)

Lemma first_loop (data : list (string * string)) (els : list PinElement) :
  let maps := fold_left (add_pin_element data) els ([], []) in
  NoDup (map fst (snd maps))
  /\ (forall k, In k (map fst (snd maps)) <-> In k (map attr_Position els))
  /\ (forall e', In e' (snd maps) ->
                 exists e, In e els /\ fst e' = attr_Position e
                           /\ snd e' = pin_of_element data e)
  /\ (forall n pos, map_get String.eqb n (fst maps) = Some pos ->
                    In pos (map fst (snd maps))).
Proof.
  induction els as [|e els IH] using rev_ind.
  - simpl. repeat split; try tauto; try constructor. discriminate.
  - rewrite fold_left_app. cbn [fold_left].
    set (maps := fold_left (add_pin_element data) els ([], [])) in *.
    cbv zeta in IH. destruct IH as (Hnd & Hkeys & Hpins & Hntp).
    unfold add_pin_element. cbn [fst snd].
    fold (pin_of_element data e).
    assert (Hk' : forall k,
               In k (map fst (map_set Z.eqb (attr_Position e)
                                      (pin_of_element data e) (snd maps)))
               <-> In k (map fst (snd maps)) \/ k = attr_Position e).
    { intros k. rewrite (map_set_keys Z.eqb). unfold map_has.
      destruct (map_get Z.eqb (attr_Position e) (snd maps)) as [v|] eqn:E.
      - split; [auto|]. intros [H | ->]; [exact H|].
        apply (map_get_In Z.eqb Z.eqb_eq). eexists; exact E.
      - rewrite in_app_iff. simpl. intuition congruence. }
    split; [apply (map_set_NoDup Z.eqb Z.eqb_eq), Hnd|].
    split; [|split].
    + intros k. rewrite Hk', Hkeys, map_app, in_app_iff. simpl.
      intuition congruence.
    + intros e' He'. apply (map_set_In Z.eqb Z.eqb_eq) in He'.
      destruct He' as [-> | He'].
      * exists e. split; [apply in_or_app; right; now left | split; reflexivity].
      * destruct (Hpins e' He') as (e0 & He0 & Hf & Hs).
        exists e0. split; [apply in_or_app; now left | split; assumption].
    + intros n pos Hget. rewrite (map_get_set String.eqb String.eqb_eq) in Hget.
      apply Hk'. destruct (String.eqb n (attr_Name e)).
      * right. congruence.
      * left. eapply Hntp. exact Hget.
Qed.

Lemma map_set_unlabelled (k : Z) (v v' : Pin) (m : list (Z * Pin)) :
  map_get Z.eqb k m = Some v -> unlabelled v' = unlabelled v ->
  map (fun e => (fst e, unlabelled (snd e))) (map_set Z.eqb k v' m)
  = map (fun e => (fst e, unlabelled (snd e))) m.
Proof.
  induction m as [|[k0 v0] m IH]; simpl; [discriminate|].
  intros Hget Hu. destruct (k =? k0) eqn:E; simpl.
  - inversion Hget; subst. now rewrite Hu.
  - now rewrite IH.
Qed.

Lemma add_signal_ok (data : list (string * string)) (ntp : list (string * Z))
      (pm : list (Z * Pin)) (s : string * string) :
  (forall n pos, map_get String.eqb n ntp = Some pos -> In pos (map fst pm)) ->
  exists pm',
    add_signal data ntp pm s = Ok pm'
    /\ map (fun e => (fst e, unlabelled (snd e))) pm'
       = map (fun e => (fst e, unlabelled (snd e))) pm.
Proof.
  intros Hntp. destruct s as [n l]. unfold add_signal.
  destruct (map_get String.eqb n ntp) as [pos|] eqn:En;
    [|eexists; split; reflexivity].
  apply Hntp in En. apply (map_get_In Z.eqb Z.eqb_eq) in En.
  destruct En as [pin Hpin]. rewrite Hpin.
  eexists. split; [reflexivity|].
  now apply map_set_unlabelled with (v := pin).
Qed.

Lemma keys_of_unlabelled (pm pm' : list (Z * Pin)) :
  map (fun e => (fst e, unlabelled (snd e))) pm'
  = map (fun e => (fst e, unlabelled (snd e))) pm ->
  map fst pm' = map fst pm.
Proof.
  intros H. apply (f_equal (map fst)) in H.
  rewrite !map_map in H. exact H.
Qed.

Lemma add_signals_ok (data : list (string * string)) (ntp : list (string * Z))
      (signals : list (string * string)) (pm : list (Z * Pin)) :
  (forall n pos, map_get String.eqb n ntp = Some pos -> In pos (map fst pm)) ->
  exists pm',
    add_signals data ntp signals pm = Ok pm'
    /\ map (fun e => (fst e, unlabelled (snd e))) pm'
       = map (fun e => (fst e, unlabelled (snd e))) pm.
Proof.
  revert pm. induction signals as [|s signals IH]; intros pm Hntp; simpl.
  - eexists; split; reflexivity.
  - destruct (add_signal_ok data ntp pm s Hntp) as (pm1 & -> & H1). simpl.
    destruct (IH pm1) as (pm' & -> & H').
    + intros n pos Hget. rewrite (keys_of_unlabelled _ _ H1). eauto.
    + exists pm'. split; [reflexivity | congruence].
Qed.

(** What [load_cubefile] returns, up to the labels and modes. *)
Lemma load_cubefile_inv (content : string)
      (database : string -> result McuDocument) (doc : McuDocument) :
  let data := new_map String.eqb (key_values content) in
  database (interpolated (map_get String.eqb "Mcu.Name" data)) = Ok doc ->
  exists cf,
    load_cubefile content database = Ok cf
    /\ CubeFile.package cf = attr_Package doc
    /\ CubeFile.name cf
       = interpolated (map_get String.eqb "Mcu.UserName" data)
    /\ NoDup (map position (CubeFile.pins cf))
    /\ (forall z, In z (map position (CubeFile.pins cf))
                  <-> In z (map attr_Position (pin_elements doc)))
    /\ (forall p, In p (CubeFile.pins cf) ->
                  exists e, In e (pin_elements doc)
                            /\ unlabelled p = pin_of_element data e).
Proof.
  intros data Hdoc. unfold load_cubefile. fold data. rewrite Hdoc. cbn [bind].
  destruct (first_loop data (pin_elements doc)) as (Hnd & Hkeys & Hpins & Hntp).
  set (maps := fold_left (add_pin_element data) (pin_elements doc) ([], [])) in *.
  destruct (add_signals_ok data (fst maps) (signals_of (key_values content))
              (snd maps) Hntp) as (pm' & -> & Hsame).
  cbn [bind]. eexists. split; [reflexivity|].
  cbn [CubeFile.package CubeFile.name CubeFile.pins].
  split; [reflexivity|]. split; [reflexivity|].
  assert (Hpos : map position (map snd pm') = map fst (snd maps)).
  { transitivity (map (fun e => position (unlabelled (snd e))) pm');
      [now rewrite map_map|].
    transitivity (map (fun e => position (snd e))
                      (map (fun e => (fst e, unlabelled (snd e))) pm'));
      [now rewrite map_map|].
    rewrite Hsame, map_map. apply map_ext_in.
    intros e' He'. destruct (Hpins e' He') as (e & _ & Hf & Hs).
    cbn [snd unlabelled position]. rewrite Hf, Hs. reflexivity. }
  rewrite Hpos. split; [exact Hnd|]. split; [exact Hkeys|].
  intros p Hp. apply in_map_iff in Hp. destruct Hp as [e' [<- He']].
  assert (Hin : In (fst e', unlabelled (snd e'))
                   (map (fun e => (fst e, unlabelled (snd e))) (snd maps))).
  { rewrite <- Hsame. apply (in_map (fun e => (fst e, unlabelled (snd e)))), He'. }
  apply in_map_iff in Hin. destruct Hin as [e0 [Heq He0]].
  destruct (Hpins e0 He0) as (e & He & _ & Hs).
  exists e. split; [exact He|].
  apply (f_equal snd) in Heq. cbn [snd] in Heq.
  rewrite <- Heq, Hs. reflexivity.
Qed.










(** ** The lines of the project file *)

Lemma string_forallb_append (f : ascii -> bool) (a b : string) :
  string_forallb f (String.append a b)
  = string_forallb f a && string_forallb f b.
Proof.
  induction a as [|c a IH]; simpl; [reflexivity|].
  now rewrite IH, andb_assoc.
Qed.








Lemma split_at_equals_iff (s k v : string) :
  split_at_equals s = Some (k, v)
  <-> s = String.append k (String "="%char v) /\ string_mem "="%char k = false.
Proof.
  revert k. induction s as [|c s IH]; intros k.
  - simpl. split; [discriminate|]. intros [H _]. destruct k; discriminate.
  - cbn [split_at_equals]. destruct (Ascii.eqb c "="%char) eqn:E.
    + apply Ascii.eqb_eq in E. subst c. split.
      * intros H. inversion H; subst. now split.
      * intros [H Hk]. destruct k as [|c' k].
        -- simpl in H. now inversion H.
        -- simpl in H. inversion H; subst. cbn [string_mem] in Hk.
           rewrite Ascii.eqb_refl in Hk. discriminate.
    + split.
      * destruct (split_at_equals s) as [[k' v']|] eqn:Es; [|discriminate].
        intros H. inversion H; subst.
        destruct (proj1 (IH k') eq_refl) as [-> Hk']. split; [reflexivity|].
        cbn [string_mem]. rewrite Ascii.eqb_sym, E. exact Hk'.
      * intros [H Hk]. destruct k as [|c' k].
        -- simpl in H. inversion H; subst. rewrite Ascii.eqb_refl in E.
           discriminate.
        -- simpl in H. inversion H; subst. cbn [string_mem] in Hk.
           apply orb_false_elim in Hk. destruct Hk as [_ Hk].
           assert (Hs : split_at_equals (String.append k (String "="%char v))
                        = Some (k, v)) by (apply IH; now split).
           now rewrite Hs.
Qed.

Lemma In_key_values (content k v : string) :
  In (k, v) (key_values content)
  <-> exists line, In line (split_lines content)
                   /\ match_key_value line = Some (k, v).
Proof.
  unfold key_values. rewrite in_flat_map. split.
  - intros (line & Hl & Hin). exists line. split; [exact Hl|].
    destruct (match_key_value line) as [kv|]; [|contradiction].
    destruct Hin as [-> | []]. reflexivity.
  - intros (line & Hl & Hm). exists line. split; [exact Hl|].
    rewrite Hm. now left.
Qed.







(** X15. A loaded pin is marked as assigned exactly when some line of the
    project file is a key and value whose key is the pin's name with a
    backslash before each space, followed by [.Signal]. *)
Theorem assigned_iff_signal_line (content : string)
        (database : string -> result McuDocument) (cf : CubeFile.t) (p : Pin) :
  load_cubefile content database = Ok cf ->
  In p (CubeFile.pins cf) ->
  (assigned p = true
   <-> exists line v,
         In line (split_lines content)
         /\ match_key_value line
            = Some (String.append (escape_spaces (name p)) ".Signal", v)).
Proof.
  intros Hload Hp.
  set (data := new_map String.eqb (key_values content)).
  destruct (database (interpolated (map_get String.eqb "Mcu.Name" data)))
    as [doc|msg] eqn:Hdoc.
  - destruct (load_cubefile_inv content database doc Hdoc)
      as (cf' & Hload' & _ & _ & _ & _ & Hpins).
    rewrite Hload in Hload'. inversion Hload'; subst cf'. clear Hload'.
    destruct (Hpins p Hp) as (e & He & Hu).
    assert (Hname : name p = attr_Name e) by exact (f_equal name Hu).
    assert (Hassigned : assigned p
                        = map_has String.eqb
                            (String.append (escape_spaces (attr_Name e)) ".Signal")
                            data)
      by exact (f_equal assigned Hu).
    rewrite Hassigned, Hname. unfold data.
    rewrite (map_has_new_map String.eqb String.eqb_eq), in_map_iff. split.
    + intros ([k v] & Hk & Hin). simpl in Hk. subst k.
      apply In_key_values in Hin. destruct Hin as (line & Hl & Hm).
      now exists line, v.
    + intros (line & v & Hl & Hm).
      exists (String.append (escape_spaces (attr_Name e)) ".Signal", v).
      split; [reflexivity|]. apply In_key_values. now exists line.
  - unfold load_cubefile in Hload. fold data in Hload. rewrite Hdoc in Hload.
    discriminate.
Qed.

Lemma assigned_iff_signal_line_witness :
  exists cf p,
    load_cubefile example_project example_database = Ok cf
    /\ In p (CubeFile.pins cf)
    /\ name p = "PA13 (JTMS/SWDIO)"
    /\ assigned p = true.
Proof.
  destruct (load_cubefile example_project example_database) as [cf|msg] eqn:E;
    [|vm_compute in E; discriminate].
  destruct (nth_error (CubeFile.pins cf) 3) as [p|] eqn:Ep;
    [|vm_compute in E; inversion E; subst cf; discriminate].
  assert (Hp : In p (CubeFile.pins cf)) by (eapply nth_error_In; exact Ep).
  assert (Hn : name p = "PA13 (JTMS/SWDIO)").
  { vm_compute in E. inversion E; subst cf. vm_compute in Ep.
    inversion Ep; subst p. reflexivity. }
  exists cf, p. split; [reflexivity|]. split; [exact Hp|]. split; [exact Hn|].
  apply (assigned_iff_signal_line example_project example_database cf p E Hp).
  rewrite Hn.
  exists "PA13\ (JTMS/SWDIO).Signal=SYS_JTMS-SWDIO"%string, "SYS_JTMS-SWDIO"%string.
  split; [vm_compute; tauto | reflexivity].
Defined.



Lemma split_at_equals_cr (s : string) :
  split_at_equals (String.append s (String "013"%char EmptyString))
  = match split_at_equals s with
    | Some (k, v) => Some (k, String.append v (String "013"%char EmptyString))
    | None => None
    end.
Proof.
  induction s as [|c s IH]; [reflexivity|].
  cbn [String.append split_at_equals].
  destruct (Ascii.eqb c "="%char); [reflexivity|].
  rewrite IH. now destruct (split_at_equals s) as [[k v]|].
Qed.

Lemma match_key_value_cr (s : string) :
  match_key_value (String.append s (String "013"%char EmptyString)) = None.
Proof.
  unfold match_key_value. rewrite split_at_equals_cr.
  destruct (split_at_equals s) as [[k v]|]; [|reflexivity].
  unfold one_line. rewrite string_forallb_append. simpl.
  rewrite andb_false_r. now destruct k.
Qed.

(** X17. A line of the project file gives the key [k] and the value [v]
    exactly when it is [k], then [=], then [v], where [k] is not empty and
    holds no [=] and [v] holds no line terminator. *)
Theorem key_value_line_iff (line k v : string) :
  match_key_value line = Some (k, v)
  <-> line = String.append k (String "="%char v)
      /\ k <> EmptyString
      /\ string_mem "="%char k = false
      /\ one_line v = true.
Proof.
  unfold match_key_value. split.
  - destruct (split_at_equals line) as [[k' v']|] eqn:E; [|discriminate].
    apply split_at_equals_iff in E. destruct E as [-> Hk'].
    destruct k' as [|c k']; [discriminate|].
    destruct (one_line v') eqn:Hv; [|discriminate].
    intros H. inversion H; subst. repeat split; try assumption. discriminate.
  - intros (-> & Hne & Hk & Hv).
    assert (E : split_at_equals (String.append k (String "="%char v))
                = Some (k, v)) by (apply split_at_equals_iff; now split).
    rewrite E, Hv. destruct k; [contradiction | reflexivity].
Qed.

Lemma key_value_line_iff_witness :
  match_key_value "PA0-WKUP.Signal=GPIO_Output"
  = Some ("PA0-WKUP.Signal"%string, "GPIO_Output"%string).
Proof.
  apply (key_value_line_iff "PA0-WKUP.Signal=GPIO_Output"
                            "PA0-WKUP.Signal" "GPIO_Output").
  repeat split. discriminate.
Defined.

(** X18. A line that ends in a carriage return gives no key and value. So
    for a project file whose lines are empty or end in a carriage return,
    [load_cubefile] reads nothing from the file: it asks for the
    description of the microcontroller called [undefined] and throws when
    there is none. *)
Theorem carriage_returns_hide_every_key (content : string)
        (database : string -> result McuDocument) :
  Forall (fun line =>
            line = EmptyString
            \/ exists l, line = String.append l (String "013"%char EmptyString))
         (split_lines content) ->
  key_values content = []
  /\ forall msg, database "undefined" = Throw msg ->
                 load_cubefile content database = Throw msg.
Proof.
  intros Hlines.
  assert (Hkv : key_values content = []).
  { unfold key_values. induction Hlines as [|line lines Hline _ IH];
      [reflexivity|].
    cbn [flat_map]. rewrite IH, app_nil_r.
    destruct Hline as [-> | [l ->]]; [reflexivity|].
    now rewrite match_key_value_cr. }
  split; [exact Hkv|].
  intros msg Hdb. unfold load_cubefile. rewrite Hkv. cbn. now rewrite Hdb.
Qed.

Lemma carriage_returns_hide_every_key_witness :
  load_cubefile
    (String.append "Mcu.Name=STM32F103C(8-B)Tx"
       (String "013"%char (String "010"%char EmptyString)))
    example_database
  = Throw "ENOENT: no such file or directory".
Proof.
  apply carriage_returns_hide_every_key; [|reflexivity].
  cbn. constructor; [|constructor; [|constructor]].
  - right. now exists "Mcu.Name=STM32F103C(8-B)Tx"%string.
  - now left.
Defined.
